(** * Multi-version schema storage (cdc/entry/schema_storage.go)

    A shallow embedding of the schema snapshot, of the DDL application on it and
    of the storage facade that keeps the history of snapshots, followed by the
    properties proved about them.

    Conventions of the embedding.
    - [uint64] timestamps are [N]; the code only compares them.
    - [int64] identifiers are [Z]; the code only compares them and uses them as keys.
    - Go maps are [gmap]s, maps to [struct{}] are [gset]s, slices are lists.
    - A method that mutates its receiver and returns an [error] is a function
      from the receiver to an [exec]: the receiver as the call left it, together
      with the error if there is one, or a run-time panic.
    - Locks and atomics are not modelled: every operation is one atomic step on
      the storage, which is what the mutex gives to the writers. *)

From Stdlib Require Import ZArith NArith Lia.
From stdpp Require Import gmap strings list fin_maps sorting.
From Equations Require Import Equations.

Open Scope Z_scope.

(** ** Errors and executions *)

(** The error codes of pkg/errors that this file produces, and the two errors
    that come from outside: a failed argument decoding and a failed catalog read. *)
Inductive cerror : Type :=
| ErrSchemaStorageGCed
| ErrSchemaStorageUnresolved
| ErrSchemaSnapshotNotFound
| ErrSchemaStorageTableMiss
| ErrSnapshotSchemaNotFound
| ErrSnapshotSchemaExists
| ErrSnapshotTableNotFound
| ErrSnapshotTableExists
| ErrInvalidDDLJob
| ErrMetaListDatabases
| ErrDecodeArgs
| ErrContextCanceled
| ErrContextDeadlineExceeded.

#[global] Instance cerror_eq_dec : EqDecision cerror.
Proof. solve_decision. Defined.

(** Why the Go run time stops a call. *)
Inductive panic : Type :=
| NilDereference
| IndexOutOfRange.

(** The result of a call that works on a receiver of type [S] and returns an
    [error]. On [Err] the receiver is kept as the call left it: the code mutates
    in place and rolls nothing back. *)
Inductive exec (S : Type) : Type :=
| Ok (s : S)
| Err (e : cerror) (s : S)
| Panic (p : panic).
Arguments Ok {S} s.
Arguments Err {S} e s.
Arguments Panic {S} p.

Definition bind {S : Type} (m : exec S) (k : S → exec S) : exec S :=
  match m with
  | Ok s => k s
  | Err e s => Err e s
  | Panic p => Panic p
  end.

Notation "m >>> k" := (bind m k) (at level 61, left associativity).

(** Runs [step] on every element in order and stops at the first error or panic. *)
Fixpoint forEach {S A : Type} (step : A → S → exec S) (l : list A) (s : S) : exec S :=
  match l with
  | [] => Ok s
  | x :: rest => step x s >>> forEach step rest
  end.

(** ** Data model *)

(** [timodel.CIStr]: a name in its original and in its lower-case spelling. *)
Record CIStr : Type := { O : string; L : string }.

(** [timodel.DBInfo]. Charset and collation are carried and never read. *)
Record DBInfo : Type := {
  DBInfo_ID : Z;
  DBInfo_Name : CIStr;
  DBInfo_Charset : string;
  DBInfo_Collate : string
}.

Record PartitionDefinition : Type := { PartitionDefinition_ID : Z }.

Record PartitionInfo : Type := {
  Enable : bool;
  Definitions : list PartitionDefinition
}.

(** [timodel.TableInfo]. The columns and indices of a table are opaque to the
    snapshot, which only asks whether the table can be replicated.
    [model.TableInfo.IsEligible] lives in cdc/model, outside these sources, so
    its verdict is carried by the table as data: [Eligibility force] is what
    [IsEligible(force)] answers for this table. *)
Record RawTableInfo : Type := {
  RawTableInfo_ID : Z;
  RawTableInfo_Name : CIStr;
  Partition : option PartitionInfo;
  Eligibility : bool → bool
}.

(** [model.TableName], the key of [tableNameToID]. *)
Record TableName : Type := { Schema : string; Table : string }.

#[global] Instance TableName_eq_dec : EqDecision TableName.
Proof. solve_decision. Defined.

#[global] Instance TableName_countable : Countable TableName.
Proof.
  apply (inj_countable' (λ n, (Schema n, Table n)) (λ p, {| Schema := p.1; Table := p.2 |})).
  by intros [].
Defined.

(** [model.TableInfo]: a [timodel.TableInfo] wrapped with its schema. *)
Record TableInfo : Type := {
  Raw : RawTableInfo;
  SchemaID : Z;
  TableInfo_TableName : TableName;
  TableInfoVersion : N
}.

Definition ID (t : TableInfo) : Z := RawTableInfo_ID (Raw t).
Definition Name (t : TableInfo) : CIStr := RawTableInfo_Name (Raw t).

(** Modelled from the spec: [model.WrapTableInfo] is in cdc/model, which is not
    part of the sources. A table carries its id, its owning schema id, the
    schema name denormalised for reverse lookup, its name and the commit
    timestamp of the DDL that produced this version. The table name is the
    original spelling, as [newSchemaSnapshotFromMeta] and [PrintStatus] expect
    of the key [TableName]. *)
Definition WrapTableInfo (schemaID : Z) (schemaName : string) (version : N)
    (info : RawTableInfo) : TableInfo :=
  {| Raw := info;
     SchemaID := schemaID;
     TableInfo_TableName := {| Schema := schemaName; Table := O (RawTableInfo_Name info) |};
     TableInfoVersion := version |}.

(** [GetPartitionInfo]: the partitioning of the table, if it has one that is enabled. *)
Definition GetPartitionInfo (t : TableInfo) : option PartitionInfo :=
  match Partition (Raw t) with
  | Some pi => if Enable pi then Some pi else None
  | None => None
  end.

Definition IsEligible (t : TableInfo) (forceReplicate : bool) : bool :=
  Eligibility (Raw t) forceReplicate.

(** The partition ids of a table, in the order of its definitions. *)
Definition partitionIDs (pi : PartitionInfo) : list Z :=
  PartitionDefinition_ID <$> Definitions pi.

(** [timodel.ActionType]. The kinds that [handleDDL] names, and [ActionOther]
    for every other kind (column and index changes and the like). *)
Inductive ActionType : Type :=
| ActionCreateSchema
| ActionDropSchema
| ActionCreateTable
| ActionDropTable
| ActionTruncateTable
| ActionModifySchemaCharsetAndCollate
| ActionRenameTable
| ActionRenameTables
| ActionCreateView
| ActionDropView
| ActionRecoverTable
| ActionTruncateTablePartition
| ActionAddTablePartition
| ActionDropTablePartition
| ActionOther (code : nat).

Inductive JobState : Type :=
| JobStateNone
| JobStateRunning
| JobStateRollingback
| JobStateRollbackDone
| JobStateDone
| JobStateCancelled
| JobStateSynced
| JobStateCancelling.

(** [timodel.HistoryInfo], the [BinlogInfo] of a job. *)
Record HistoryInfo : Type := {
  FinishedTS : N;
  HistoryInfo_DBInfo : option DBInfo;
  HistoryInfo_TableInfo : option RawTableInfo;
  MultipleTableInfos : list RawTableInfo
}.

(** What [DecodeArgs] yields for a RenameTables job. *)
Record RenameTablesArgs : Type := {
  oldSchemaIDs : list Z;
  newSchemaIDs : list Z;
  newTableNames : list CIStr;
  oldTableIDs : list Z;
  oldSchemaNames : list CIStr
}.

(** [timodel.Job]. [Args] is the outcome of [DecodeArgs] on the raw arguments:
    [None] when decoding fails. *)
Record Job : Type := {
  Job_ID : Z;
  Type_ : ActionType;
  Job_SchemaID : Z;
  TableID : Z;
  SchemaName : string;
  State : JobState;
  BinlogInfo : option HistoryInfo;
  Args : option RenameTablesArgs
}.

Definition IsDone (job : Job) : bool :=
  match State job with JobStateDone => true | _ => false end.

Definition IsSynced (job : Job) : bool :=
  match State job with JobStateSynced => true | _ => false end.

Definition withSchemaName (job : Job) (name : string) : Job :=
  {| Job_ID := Job_ID job; Type_ := Type_ job; Job_SchemaID := Job_SchemaID job;
     TableID := TableID job; SchemaName := name; State := State job;
     BinlogInfo := BinlogInfo job; Args := Args job |}.

(** ** The snapshot *)

Record schemaSnapshot : Type := {
  tableNameToID : gmap TableName Z;
  schemaNameToID : gmap string Z;
  schemas : gmap Z DBInfo;
  tables : gmap Z TableInfo;
  partitionTable : gmap Z TableInfo;
  tableInSchema : gmap Z (list Z);
  truncateTableID : gset Z;
  ineligibleTableID : gset Z;
  currentTs : N;
  forceReplicate : bool
}.

Definition newEmptySchemaSnapshot (forceReplicate : bool) : schemaSnapshot :=
  {| tableNameToID := ∅; schemaNameToID := ∅; schemas := ∅; tables := ∅;
     partitionTable := ∅; tableInSchema := ∅; truncateTableID := ∅;
     ineligibleTableID := ∅; currentTs := 0%N; forceReplicate := forceReplicate |}.

(** Field updates, one per field that the code assigns. *)
Definition set_tableNameToID (f : gmap TableName Z → gmap TableName Z) (s : schemaSnapshot) :=
  {| tableNameToID := f (tableNameToID s); schemaNameToID := schemaNameToID s;
     schemas := schemas s; tables := tables s; partitionTable := partitionTable s;
     tableInSchema := tableInSchema s; truncateTableID := truncateTableID s;
     ineligibleTableID := ineligibleTableID s; currentTs := currentTs s;
     forceReplicate := forceReplicate s |}.

Definition set_schemaNameToID (f : gmap string Z → gmap string Z) (s : schemaSnapshot) :=
  {| tableNameToID := tableNameToID s; schemaNameToID := f (schemaNameToID s);
     schemas := schemas s; tables := tables s; partitionTable := partitionTable s;
     tableInSchema := tableInSchema s; truncateTableID := truncateTableID s;
     ineligibleTableID := ineligibleTableID s; currentTs := currentTs s;
     forceReplicate := forceReplicate s |}.

Definition set_schemas (f : gmap Z DBInfo → gmap Z DBInfo) (s : schemaSnapshot) :=
  {| tableNameToID := tableNameToID s; schemaNameToID := schemaNameToID s;
     schemas := f (schemas s); tables := tables s; partitionTable := partitionTable s;
     tableInSchema := tableInSchema s; truncateTableID := truncateTableID s;
     ineligibleTableID := ineligibleTableID s; currentTs := currentTs s;
     forceReplicate := forceReplicate s |}.

Definition set_tables (f : gmap Z TableInfo → gmap Z TableInfo) (s : schemaSnapshot) :=
  {| tableNameToID := tableNameToID s; schemaNameToID := schemaNameToID s;
     schemas := schemas s; tables := f (tables s); partitionTable := partitionTable s;
     tableInSchema := tableInSchema s; truncateTableID := truncateTableID s;
     ineligibleTableID := ineligibleTableID s; currentTs := currentTs s;
     forceReplicate := forceReplicate s |}.

Definition set_partitionTable (f : gmap Z TableInfo → gmap Z TableInfo) (s : schemaSnapshot) :=
  {| tableNameToID := tableNameToID s; schemaNameToID := schemaNameToID s;
     schemas := schemas s; tables := tables s; partitionTable := f (partitionTable s);
     tableInSchema := tableInSchema s; truncateTableID := truncateTableID s;
     ineligibleTableID := ineligibleTableID s; currentTs := currentTs s;
     forceReplicate := forceReplicate s |}.

Definition set_tableInSchema (f : gmap Z (list Z) → gmap Z (list Z)) (s : schemaSnapshot) :=
  {| tableNameToID := tableNameToID s; schemaNameToID := schemaNameToID s;
     schemas := schemas s; tables := tables s; partitionTable := partitionTable s;
     tableInSchema := f (tableInSchema s); truncateTableID := truncateTableID s;
     ineligibleTableID := ineligibleTableID s; currentTs := currentTs s;
     forceReplicate := forceReplicate s |}.

Definition set_truncateTableID (f : gset Z → gset Z) (s : schemaSnapshot) :=
  {| tableNameToID := tableNameToID s; schemaNameToID := schemaNameToID s;
     schemas := schemas s; tables := tables s; partitionTable := partitionTable s;
     tableInSchema := tableInSchema s; truncateTableID := f (truncateTableID s);
     ineligibleTableID := ineligibleTableID s; currentTs := currentTs s;
     forceReplicate := forceReplicate s |}.

Definition set_ineligibleTableID (f : gset Z → gset Z) (s : schemaSnapshot) :=
  {| tableNameToID := tableNameToID s; schemaNameToID := schemaNameToID s;
     schemas := schemas s; tables := tables s; partitionTable := partitionTable s;
     tableInSchema := tableInSchema s; truncateTableID := truncateTableID s;
     ineligibleTableID := f (ineligibleTableID s); currentTs := currentTs s;
     forceReplicate := forceReplicate s |}.

Definition set_currentTs (ts : N) (s : schemaSnapshot) :=
  {| tableNameToID := tableNameToID s; schemaNameToID := schemaNameToID s;
     schemas := schemas s; tables := tables s; partitionTable := partitionTable s;
     tableInSchema := tableInSchema s; truncateTableID := truncateTableID s;
     ineligibleTableID := ineligibleTableID s; currentTs := ts;
     forceReplicate := forceReplicate s |}.

(** [timodel.DBInfo.Copy]: a copy of the record. *)
Definition DBInfo_Copy (db : DBInfo) : DBInfo :=
  {| DBInfo_ID := DBInfo_ID db; DBInfo_Name := DBInfo_Name db;
     DBInfo_Charset := DBInfo_Charset db; DBInfo_Collate := DBInfo_Collate db |}.

(** [Clone]: every index is copied entry by entry, the schema records are
    copied, the table records are shared. *)
Definition Clone (s : schemaSnapshot) : schemaSnapshot :=
  {| tableNameToID := list_to_map (map_to_list (tableNameToID s));
     schemaNameToID := list_to_map (map_to_list (schemaNameToID s));
     schemas := DBInfo_Copy <$> schemas s;
     tables := list_to_map (map_to_list (tables s));
     tableInSchema := (λ v, take (length v) v) <$> tableInSchema s;
     partitionTable := list_to_map (map_to_list (partitionTable s));
     truncateTableID := list_to_set (elements (truncateTableID s));
     ineligibleTableID := list_to_set (elements (ineligibleTableID s));
     currentTs := currentTs s;
     forceReplicate := forceReplicate s |}.

(** *** Lookups *)

Definition GetTableIDByName (s : schemaSnapshot) (schemaName tableName : string) : option Z :=
  tableNameToID s !! {| Schema := schemaName; Table := tableName |}.

Definition SchemaByID (s : schemaSnapshot) (id : Z) : option DBInfo := schemas s !! id.

Definition TableByID (s : schemaSnapshot) (id : Z) : option TableInfo := tables s !! id.

Definition GetTableByName (s : schemaSnapshot) (schema table : string) : option TableInfo :=
  match GetTableIDByName s schema table with
  | None => None
  | Some id => TableByID s id
  end.

Definition PhysicalTableByID (s : schemaSnapshot) (id : Z) : option TableInfo :=
  match tables s !! id with
  | Some val => Some val
  | None => partitionTable s !! id
  end.

Definition IsTruncateTableID (s : schemaSnapshot) (id : Z) : bool :=
  bool_decide (id ∈ truncateTableID s).

Definition IsIneligibleTableID (s : schemaSnapshot) (id : Z) : bool :=
  bool_decide (id ∈ ineligibleTableID s).

(** [GetTableNameByID]: the name of the table, or of the table that owns the
    partition. The owner is read again from [tables] under the id of the record
    in the partition index; when it is not there the nil record is dereferenced. *)
Definition GetTableNameByID (s : schemaSnapshot) (id : Z) : panic + option TableName :=
  match tables s !! id with
  | Some tableInfo => inr (Some (TableInfo_TableName tableInfo))
  | None =>
      match partitionTable s !! id with
      | None => inr None
      | Some partInfo =>
          match tables s !! ID partInfo with
          | Some tableInfo => inr (Some (TableInfo_TableName tableInfo))
          | None => inl NilDereference
          end
      end
  end.

(** [SchemaByTableID]: the schema that the table names, through the schema name index. *)
Definition SchemaByTableID (s : schemaSnapshot) (tableID : Z) : option DBInfo :=
  match tables s !! tableID with
  | None => None
  | Some tableInfo =>
      match schemaNameToID s !! Schema (TableInfo_TableName tableInfo) with
      | None => None
      | Some schemaID => SchemaByID s schemaID
      end
  end.

(** [CloneTables]: the names of the tables by id. *)
Definition CloneTables (s : schemaSnapshot) : gmap Z TableName :=
  TableInfo_TableName <$> tables s.

(** [Tables]: the table map itself. *)
Definition Tables (s : schemaSnapshot) : gmap Z TableInfo := tables s.

(** [PreTableInfo]: the table that the job is about to overwrite or remove, if
    the kind of the job has one. *)
Definition PreTableInfo (s : schemaSnapshot) (job : Job) : cerror + option TableInfo :=
  match Type_ job with
  | ActionCreateSchema | ActionModifySchemaCharsetAndCollate | ActionDropSchema => inr None
  | ActionCreateTable | ActionCreateView | ActionRecoverTable => inr None
  | ActionRenameTable | ActionDropTable | ActionDropView | ActionTruncateTable =>
      match TableByID s (TableID job) with
      | None => inl ErrSchemaStorageTableMiss
      | Some table => inr (Some table)
      end
  | ActionRenameTables => inr None
  | _ =>
      match BinlogInfo job with
      | None => inr None
      | Some binlogInfo =>
          match HistoryInfo_TableInfo binlogInfo with
          | None => inr None
          | Some tbInfo =>
              match TableByID s (RawTableInfo_ID tbInfo) with
              | None => inl ErrSchemaStorageTableMiss
              | Some table => inr (Some table)
              end
          end
      end
  end.

(** [FillSchemaName] writes the schema name into the job; the receiver here is
    the job, the snapshot is only read. *)
Definition FillSchemaName (s : schemaSnapshot) (job : Job) : exec Job :=
  match Type_ job with
  | ActionRenameTables => Ok job
  | ActionCreateSchema | ActionDropSchema =>
      match BinlogInfo job with
      | None => Panic NilDereference
      | Some bi =>
          match HistoryInfo_DBInfo bi with
          | None => Panic NilDereference
          | Some db => Ok (withSchemaName job (O (DBInfo_Name db)))
          end
      end
  | _ =>
      match SchemaByID s (Job_SchemaID job) with
      | None => Err ErrSnapshotSchemaNotFound job
      | Some dbInfo => Ok (withSchemaName job (O (DBInfo_Name dbInfo)))
      end
  end.

(** *** Schema operations *)

(** The body of the loop of [dropSchema] over the tables of the schema. *)
Definition dropSchema_table (tableID : Z) (s : schemaSnapshot) : exec schemaSnapshot :=
  match tables s !! tableID with
  | None => Panic NilDereference
  | Some t =>
      let tableName := TableInfo_TableName t in
      let s :=
        match GetPartitionInfo t with
        | Some pi =>
            foldl (λ s partition,
                     set_partitionTable (delete (PartitionDefinition_ID partition)) s)
                  s (Definitions pi)
        | None => s
        end in
      let s := set_tables (delete tableID) s in
      Ok (set_tableNameToID (delete tableName) s)
  end.

Definition dropSchema (id : Z) (s : schemaSnapshot) : exec schemaSnapshot :=
  match schemas s !! id with
  | None => Err ErrSnapshotSchemaNotFound s
  | Some schema =>
      forEach dropSchema_table (default [] (tableInSchema s !! id)) s >>> λ s,
      let s := set_schemas (delete id) s in
      let s := set_tableInSchema (delete id) s in
      Ok (set_schemaNameToID (delete (O (DBInfo_Name schema))) s)
  end.

Definition createSchema (db : DBInfo) (s : schemaSnapshot) : exec schemaSnapshot :=
  match schemas s !! DBInfo_ID db with
  | Some _ => Err ErrSnapshotSchemaExists s
  | None =>
      let s := set_schemas <[DBInfo_ID db := DBInfo_Copy db]> s in
      let s := set_schemaNameToID <[O (DBInfo_Name db) := DBInfo_ID db]> s in
      Ok (set_tableInSchema <[DBInfo_ID db := []]> s)
  end.

Definition replaceSchema (db : DBInfo) (s : schemaSnapshot) : exec schemaSnapshot :=
  match schemas s !! DBInfo_ID db with
  | None => Err ErrSnapshotSchemaNotFound s
  | Some _ =>
      let s := set_schemas <[DBInfo_ID db := DBInfo_Copy db]> s in
      Ok (set_schemaNameToID <[O (DBInfo_Name db) := DBInfo_ID db]> s)
  end.

(** *** Table operations *)

(** The loop of [dropTable] over the membership list: the list without the
    first occurrence of [id], or [None] when [id] does not occur (and the list
    is then left alone). *)
Fixpoint removeFirst (id : Z) (l : list Z) : option (list Z) :=
  match l with
  | [] => None
  | tableID :: rest =>
      if decide (tableID = id) then Some rest
      else (λ r, tableID :: r) <$> removeFirst id rest
  end.

Definition dropTable_partition (s : schemaSnapshot) (partition : PartitionDefinition) :=
  let s := set_partitionTable (delete (PartitionDefinition_ID partition)) s in
  set_ineligibleTableID (λ m, m ∖ {[PartitionDefinition_ID partition]}) s.

Definition dropTable (id : Z) (s : schemaSnapshot) : exec schemaSnapshot :=
  match tables s !! id with
  | None => Err ErrSnapshotTableNotFound s
  | Some table =>
      match tableInSchema s !! SchemaID table with
      | None => Err ErrSnapshotSchemaNotFound s
      | Some tableInSchema_ =>
          let s :=
            match removeFirst id tableInSchema_ with
            | Some shorter => set_tableInSchema <[SchemaID table := shorter]> s
            | None => s
            end in
          let tableName := TableInfo_TableName table in
          let s := set_tables (delete id) s in
          let s :=
            match GetPartitionInfo table with
            | Some pi => foldl dropTable_partition s (Definitions pi)
            | None => s
            end in
          let s := set_tableNameToID (delete tableName) s in
          Ok (set_ineligibleTableID (λ m, m ∖ {[id]}) s)
      end
  end.

(** The body of the first loop of [updatePartition], over the incoming
    partitions; the accumulator is the snapshot and the local set [oldIDs]. *)
Definition updatePartition_new (tbl : TableInfo) (acc : schemaSnapshot * gset Z)
    (partition : PartitionDefinition) : schemaSnapshot * gset Z :=
  let pid := PartitionDefinition_ID partition in
  let s := set_partitionTable <[pid := tbl]> acc.1 in
  let s :=
    if IsEligible tbl (forceReplicate s) then s
    else set_ineligibleTableID (λ m, {[pid]} ∪ m) s in
  (s, acc.2 ∖ {[pid]}).

(** The body of the second loop of [updatePartition], over what is left of [oldIDs]. *)
Definition updatePartition_old (s : schemaSnapshot) (pid : Z) : schemaSnapshot :=
  let s := set_truncateTableID (λ m, {[pid]} ∪ m) s in
  let s := set_partitionTable (delete pid) s in
  set_ineligibleTableID (λ m, m ∖ {[pid]}) s.

Definition updatePartition (tbl : TableInfo) (s : schemaSnapshot) : exec schemaSnapshot :=
  let id := ID tbl in
  match tables s !! id with
  | None => Err ErrSnapshotTableNotFound s
  | Some table =>
      match GetPartitionInfo table with
      | None => Err ErrSnapshotTableNotFound s
      | Some oldPi =>
          let oldIDs : gset Z := list_to_set (partitionIDs oldPi) in
          match GetPartitionInfo tbl with
          | None => Err ErrSnapshotTableNotFound s
          | Some newPi =>
              let s := set_tables <[id := tbl]> s in
              let acc := foldl (updatePartition_new tbl) (s, oldIDs) (Definitions newPi) in
              Ok (foldl updatePartition_old acc.1 (elements acc.2))
          end
      end
  end.

(** The body of the partition loop shared by [createTable] and [replaceTable]. *)
Definition addPartition (table : TableInfo) (s : schemaSnapshot)
    (partition : PartitionDefinition) : schemaSnapshot :=
  let s := set_partitionTable <[PartitionDefinition_ID partition := table]> s in
  if IsEligible table (forceReplicate s) then s
  else set_ineligibleTableID (λ m, {[PartitionDefinition_ID partition]} ∪ m) s.

Definition createTable (table : TableInfo) (s : schemaSnapshot) : exec schemaSnapshot :=
  match schemas s !! SchemaID table with
  | None => Err ErrSnapshotSchemaNotFound s
  | Some schema =>
      match tableInSchema s !! SchemaID table with
      | None => Err ErrSnapshotSchemaNotFound s
      | Some tableInSchema_ =>
          match tables s !! ID table with
          | Some _ => Err ErrSnapshotTableExists s
          | None =>
              let s := set_tableInSchema <[SchemaID table := tableInSchema_ ++ [ID table]]> s in
              let s := set_tables <[ID table := table]> s in
              let s :=
                if IsEligible table (forceReplicate s) then s
                else set_ineligibleTableID (λ m, {[ID table]} ∪ m) s in
              let s :=
                match GetPartitionInfo table with
                | Some pi => foldl (addPartition table) s (Definitions pi)
                | None => s
                end in
              Ok (set_tableNameToID <[TableInfo_TableName table := ID table]> s)
          end
      end
  end.

Definition replaceTable (table : TableInfo) (s : schemaSnapshot) : exec schemaSnapshot :=
  match tables s !! ID table with
  | None => Err ErrSnapshotTableNotFound s
  | Some _ =>
      let s := set_tables <[ID table := table]> s in
      let s :=
        if IsEligible table (forceReplicate s) then s
        else set_ineligibleTableID (λ m, {[ID table]} ∪ m) s in
      let s :=
        match GetPartitionInfo table with
        | Some pi => foldl (addPartition table) s (Definitions pi)
        | None => s
        end in
      Ok s
  end.

(** The creation loop of [renameTables]: [i] is the index of the head of
    [infos] in [MultipleTableInfos]. Indexing [newSchemaIDs] out of range panics. *)
Fixpoint renameTables_create (newSchemaIDs : list Z) (finishedTS : N) (i : nat)
    (infos : list RawTableInfo) (s : schemaSnapshot) : exec schemaSnapshot :=
  match infos with
  | [] => Ok s
  | tableInfo :: rest =>
      match newSchemaIDs !! i with
      | None => Panic IndexOutOfRange
      | Some newSchemaID =>
          match SchemaByID s newSchemaID with
          | None => Err ErrSnapshotSchemaNotFound s
          | Some newSchema =>
              let newSchemaName := L (DBInfo_Name newSchema) in
              createTable (WrapTableInfo newSchemaID newSchemaName finishedTS tableInfo) s
                >>> renameTables_create newSchemaIDs finishedTS (S i) rest
          end
      end
  end.

Definition renameTables (job : Job) (s : schemaSnapshot) : exec schemaSnapshot :=
  match Args job with
  | None => Err ErrDecodeArgs s
  | Some args =>
      match BinlogInfo job with
      | None => Panic NilDereference
      | Some bi =>
          if (length (MultipleTableInfos bi) <? length (newTableNames args))%nat
          then Err ErrInvalidDDLJob s
          else
            forEach dropTable (oldTableIDs args) s >>>
            renameTables_create (newSchemaIDs args) (FinishedTS bi) 0 (MultipleTableInfos bi)
      end
  end.

(** *** DDL application *)

(** The closure [getWrapTableInfo] of [handleDDL]; [None] stands for the nil
    dereference of a job without [BinlogInfo] or without [TableInfo]. *)
Definition getWrapTableInfo (job : Job) : option TableInfo :=
  match BinlogInfo job with
  | None => None
  | Some bi =>
      match HistoryInfo_TableInfo bi with
      | None => None
      | Some info =>
          Some (WrapTableInfo (Job_SchemaID job) (SchemaName job) (FinishedTS bi) info)
      end
  end.

Definition withWrapTableInfo (job : Job) (k : TableInfo → schemaSnapshot → exec schemaSnapshot)
    (s : schemaSnapshot) : exec schemaSnapshot :=
  match getWrapTableInfo job with
  | None => Panic NilDereference
  | Some table => k table s
  end.

Definition withDBInfo (job : Job) (k : DBInfo → schemaSnapshot → exec schemaSnapshot)
    (s : schemaSnapshot) : exec schemaSnapshot :=
  match BinlogInfo job with
  | None => Panic NilDereference
  | Some bi =>
      match HistoryInfo_DBInfo bi with
      | None => Panic NilDereference
      | Some db => k db s
      end
  end.

(** The last statement of [handleDDL]: [s.currentTs = job.BinlogInfo.FinishedTS]. *)
Definition setCurrentTs (job : Job) (s : schemaSnapshot) : exec schemaSnapshot :=
  match BinlogInfo job with
  | None => Panic NilDereference
  | Some bi => Ok (set_currentTs (FinishedTS bi) s)
  end.

(** The switch of [handleDDL], on the job as [FillSchemaName] left it. *)
Definition applyDDL (job : Job) (s : schemaSnapshot) : exec schemaSnapshot :=
  match Type_ job with
  | ActionCreateSchema =>
      withDBInfo job createSchema s >>> setCurrentTs job
  | ActionModifySchemaCharsetAndCollate =>
      withDBInfo job replaceSchema s >>> setCurrentTs job
  | ActionDropSchema =>
      dropSchema (Job_SchemaID job) s >>> setCurrentTs job
  | ActionRenameTable =>
      dropTable (TableID job) s >>> withWrapTableInfo job createTable >>> setCurrentTs job
  | ActionRenameTables =>
      renameTables job s >>> setCurrentTs job
  | ActionCreateTable | ActionCreateView | ActionRecoverTable =>
      withWrapTableInfo job createTable s >>> setCurrentTs job
  | ActionDropTable | ActionDropView =>
      dropTable (TableID job) s >>> setCurrentTs job
  | ActionTruncateTable =>
      dropTable (TableID job) s >>> withWrapTableInfo job createTable >>>
      (λ s, Ok (set_truncateTableID (λ m, {[TableID job]} ∪ m) s)) >>> setCurrentTs job
  | ActionTruncateTablePartition | ActionAddTablePartition | ActionDropTablePartition =>
      withWrapTableInfo job updatePartition s >>> setCurrentTs job
  | ActionOther _ =>
      match BinlogInfo job with
      | None => Ok s
      | Some binlogInfo =>
          match HistoryInfo_TableInfo binlogInfo with
          | None => Ok s
          | Some _ => withWrapTableInfo job replaceTable s >>> setCurrentTs job
          end
      end
  end.

Definition handleDDL (job : Job) (s : schemaSnapshot) : exec schemaSnapshot :=
  match FillSchemaName s job with
  | Panic p => Panic p
  | Err e _ => Err e s
  | Ok job => applyDDL job s
  end.

(** [SingleSchemaSnapshot.HandleDDL]. *)
Definition HandleDDL (job : Job) (s : schemaSnapshot) : exec schemaSnapshot := handleDDL job s.

(** *** The initial snapshot *)

(** [timeta.Meta], the catalog that the initial snapshot is read from. [None]
    is a failed read. *)
Record Meta : Type := {
  ListDatabases : option (list DBInfo);
  ListTables : Z → option (list RawTableInfo)
}.

(** The body of the loop of [newSchemaSnapshotFromMeta] over the tables of one schema. *)
Definition fromMeta_table (dbinfo : DBInfo) (currentTs : N) (forceReplicate : bool)
    (schemaID : Z) (snap : schemaSnapshot) (info : RawTableInfo) : schemaSnapshot :=
  let snap :=
    set_tableInSchema
      (λ m, <[schemaID := default [] (m !! schemaID) ++ [RawTableInfo_ID info]]> m) snap in
  let tableInfo := WrapTableInfo (DBInfo_ID dbinfo) (O (DBInfo_Name dbinfo)) currentTs info in
  let snap := set_tables <[ID tableInfo := tableInfo]> snap in
  let snap :=
    set_tableNameToID
      <[ {| Schema := O (DBInfo_Name dbinfo); Table := O (Name tableInfo) |} := ID tableInfo ]>
      snap in
  let isEligible := IsEligible tableInfo forceReplicate in
  let snap :=
    if isEligible then snap else set_ineligibleTableID (λ m, {[ID tableInfo]} ∪ m) snap in
  match GetPartitionInfo tableInfo with
  | Some pi =>
      foldl (λ snap partition,
               let snap :=
                 set_partitionTable <[PartitionDefinition_ID partition := tableInfo]> snap in
               if isEligible then snap
               else set_ineligibleTableID (λ m, {[PartitionDefinition_ID partition]} ∪ m) snap)
            snap (Definitions pi)
  | None => snap
  end.

(** Modelled from the spec: [cerror.WrapError] is in pkg/errors, which is not
    part of the sources. The error taxonomy of the spec surfaces a failed read
    of the bootstrap catalog as MetaListDatabases, wrapping the loader error.
    The loader error itself is not represented here, so what is left of the
    wrapped error is its code. *)
Definition WrapError (rfcError : cerror) : cerror := rfcError.

(** The body of the loop over the schemas. *)
Definition fromMeta_schema (meta : Meta) (currentTs : N) (forceReplicate : bool)
    (entry : Z * DBInfo) (snap : schemaSnapshot) : exec schemaSnapshot :=
  let '(schemaID, dbinfo) := entry in
  match ListTables meta schemaID with
  | None => Err (WrapError ErrMetaListDatabases) snap
  | Some tableInfos =>
      let snap := set_tableInSchema <[schemaID := []]> snap in
      Ok (foldl (fromMeta_table dbinfo currentTs forceReplicate schemaID) snap tableInfos)
  end.

(** [newSchemaSnapshotFromMeta]. Go ranges over the map [snap.schemas] in an
    unspecified order; here it is the order of [map_to_list]. *)
Definition newSchemaSnapshotFromMeta (meta : Meta) (currentTs : N) (forceReplicate : bool)
    : cerror + schemaSnapshot :=
  let snap := newEmptySchemaSnapshot forceReplicate in
  match ListDatabases meta with
  | None => inl (WrapError ErrMetaListDatabases)
  | Some dbinfos =>
      let snap :=
        foldl (λ snap dbinfo,
                 let snap := set_schemas <[DBInfo_ID dbinfo := dbinfo]> snap in
                 set_schemaNameToID <[O (DBInfo_Name dbinfo) := DBInfo_ID dbinfo]> snap)
              snap dbinfos in
      match forEach (fromMeta_schema meta currentTs forceReplicate)
                    (map_to_list (schemas snap)) snap with
      | Ok snap => inr (set_currentTs currentTs snap)
      | Err e _ => inl e
      | Panic _ => inl (WrapError ErrMetaListDatabases)
      end
  end.

(** [NewSingleSchemaSnapshotFromMeta]. *)
Definition NewSingleSchemaSnapshotFromMeta (meta : option Meta) (currentTs : N)
    (forceReplicate : bool) : cerror + schemaSnapshot :=
  match meta with
  | None => inr (set_currentTs currentTs (newEmptySchemaSnapshot forceReplicate))
  | Some meta => newSchemaSnapshotFromMeta meta currentTs forceReplicate
  end.

(** ** The storage *)

Record schemaStorageImpl : Type := {
  snaps : list schemaSnapshot;
  gcTs : N;
  resolvedTs : N;
  ddlFilter : option (ActionType → bool);
  storageForceReplicate : bool;
  changefeedID : string
}.

Definition set_snaps (l : list schemaSnapshot) (st : schemaStorageImpl) :=
  {| snaps := l; gcTs := gcTs st; resolvedTs := resolvedTs st; ddlFilter := ddlFilter st;
     storageForceReplicate := storageForceReplicate st; changefeedID := changefeedID st |}.

Definition set_gcTs (ts : N) (st : schemaStorageImpl) :=
  {| snaps := snaps st; gcTs := ts; resolvedTs := resolvedTs st; ddlFilter := ddlFilter st;
     storageForceReplicate := storageForceReplicate st; changefeedID := changefeedID st |}.

Definition set_resolvedTs (ts : N) (st : schemaStorageImpl) :=
  {| snaps := snaps st; gcTs := gcTs st; resolvedTs := ts; ddlFilter := ddlFilter st;
     storageForceReplicate := storageForceReplicate st; changefeedID := changefeedID st |}.

(** [NewSchemaStorage]. Without a catalog the initial snapshot is the empty
    one, whose [currentTs] is zero. *)
Definition NewSchemaStorage (meta : option Meta) (startTs : N)
    (filter : option (ActionType → bool)) (forceReplicate : bool) (id : string)
    : cerror + schemaStorageImpl :=
  let snap :=
    match meta with
    | None => inr (newEmptySchemaSnapshot forceReplicate)
    | Some meta => newSchemaSnapshotFromMeta meta startTs forceReplicate
    end in
  match snap with
  | inl err => inl err
  | inr snap =>
      inr {| snaps := [snap]; gcTs := 0%N; resolvedTs := startTs; ddlFilter := filter;
             storageForceReplicate := forceReplicate; changefeedID := id |}
  end.

(** [sort.Search] of the Go standard library: the least index in [0, n) at
    which [f] holds, by bisection, or [n]. The loop is
    [for i < j { h := (i+j)/2; if !f(h) { i = h+1 } else { j = h } }]. *)
Equations? searchLoop (f : nat → bool) (i j : nat) : nat by wf (j - i)%nat lt :=
  searchLoop f i j with decide (i < j)%nat => {
    | left _ with f ((i + j) / 2)%nat => {
        | true => searchLoop f i ((i + j) / 2)%nat
        | false => searchLoop f ((i + j) / 2 + 1)%nat j };
    | right _ => i }.
Proof.
  all: change (Nat.divmod (i + j) 1 0 1).1 with ((i + j) / 2)%nat.
  all: pose proof (Nat.div_mod_eq (i + j) 2).
  all: pose proof (Nat.mod_upper_bound (i + j) 2).
  all: lia.
Qed.

Definition Search (n : nat) (f : nat → bool) : nat := searchLoop f 0 n.

(** [s.snaps[i].currentTs > ts], the predicate that [getSnapshot] searches with.
    The search only calls it inside the slice. *)
Definition snapAfter (l : list schemaSnapshot) (ts : N) (i : nat) : bool :=
  match l !! i with
  | Some snap => (ts <? currentTs snap)%N
  | None => false
  end.

(** [getSnapshot]: the one-shot lookup. *)
Definition getSnapshot (st : schemaStorageImpl) (ts : N) : cerror + schemaSnapshot :=
  if (ts <? gcTs st)%N then inl ErrSchemaStorageGCed
  else if (resolvedTs st <? ts)%N then inl ErrSchemaStorageUnresolved
  else
    let i := Search (length (snaps st)) (snapAfter (snaps st) ts) in
    match i with
    | 0%nat => inl ErrSchemaSnapshotNotFound
    | S i' =>
        match snaps st !! i' with
        | Some snap => inr snap
        | None => inl ErrSchemaSnapshotNotFound
        end
    end.

(** Modelled from the spec: [cerror.IsRetryableError] is in pkg/errors, which
    is not part of the sources. Cancellation is accepted through an external
    cancel or deadline signal and ends the retries; any other error may be
    retried as far as this helper is concerned. *)
Definition IsRetryableError (err : option cerror) : bool :=
  match err with
  | None => false
  | Some ErrContextCanceled | Some ErrContextDeadlineExceeded => false
  | Some _ => true
  end.

Definition isRetryable (err : option cerror) : bool :=
  IsRetryableError err && bool_decide (err = Some ErrSchemaStorageUnresolved).

(** [GetLastSnapshot]: [s.snaps[len(s.snaps)-1]], which panics on an empty slice. *)
Definition GetLastSnapshot (st : schemaStorageImpl) : panic + schemaSnapshot :=
  match last (snaps st) with
  | Some snap => inr snap
  | None => inl IndexOutOfRange
  end.

(** [AdvanceResolvedTs]: the compare-and-swap loop, run without interference. *)
Definition AdvanceResolvedTs (ts : N) (st : schemaStorageImpl) : schemaStorageImpl :=
  if (ts <? resolvedTs st)%N then st else set_resolvedTs ts st.

Definition skipJob (st : schemaStorageImpl) (job : Job) : bool :=
  match ddlFilter st with
  | Some ShouldDiscardDDL =>
      if ShouldDiscardDDL (Type_ job) then true
      else negb (IsSynced job) && negb (IsDone job)
  | None => negb (IsSynced job) && negb (IsDone job)
  end.

(** [ResolvedTs]. *)
Definition ResolvedTs (st : schemaStorageImpl) : N := resolvedTs st.

(** [HandleDDLJob]. The receiver of the result is the storage. *)
Definition HandleDDLJob (job : Job) (st : schemaStorageImpl) : exec schemaStorageImpl :=
  match BinlogInfo job with
  | None => Panic NilDereference
  | Some bi =>
      if skipJob st job then Ok (AdvanceResolvedTs (FinishedTS bi) st)
      else
        let applied (snap : schemaSnapshot) :=
          match handleDDL job snap with
          | Panic p => Panic p
          | Err err _ => Err err st
          | Ok snap =>
              Ok (AdvanceResolvedTs (FinishedTS bi) (set_snaps (snaps st ++ [snap]) st))
          end in
        match last (snaps st) with
        | Some lastSnap =>
            if (FinishedTS bi <=? currentTs lastSnap)%N then Ok st
            else applied (Clone lastSnap)
        | None => applied (newEmptySchemaSnapshot (storageForceReplicate st))
        end
  end.

(** The scan of [DoGC]: [startIdx] follows the index [i] of the head of [l]
    until a snapshot newer than [ts] breaks the loop. *)
Fixpoint gcScan (ts : N) (l : list schemaSnapshot) (i startIdx : nat) : nat :=
  match l with
  | [] => startIdx
  | snap :: rest =>
      if (ts <? currentTs snap)%N then startIdx else gcScan ts rest (S i) i
  end.

(** [DoGC]: the storage after the call and the returned timestamp;
    [s.snaps[0]] panics on an empty slice. *)
Definition DoGC (ts : N) (st : schemaStorageImpl) : panic + schemaStorageImpl * N :=
  let startIdx := gcScan ts (snaps st) 0 0 in
  match startIdx with
  | 0%nat =>
      match snaps st with
      | snap :: _ => inr (st, currentTs snap)
      | [] => inl IndexOutOfRange
      end
  | _ =>
      let newSnaps := drop startIdx (snaps st) in
      match newSnaps with
      | snap :: _ =>
          let lastSchemaTs := currentTs snap in
          inr (set_gcTs lastSchemaTs (set_snaps newSnaps st), lastSchemaTs)
      | [] => inl IndexOutOfRange
      end
  end.

(** ** The history *)

(** The history of a storage is its list of snapshots in ascending order of
    [currentTs]. Equal neighbours are allowed: a job of another kind that
    carries no [TableInfo] is appended without a new [currentTs]. *)
Definition History (l : list schemaSnapshot) : Prop := Sorted N.le (currentTs <$> l).


(** The partition ids that the snapshot indexes for a table: those of its
    enabled partitioning, if it has one. *)
Definition partitionsOf (t : TableInfo) : list Z :=
  match GetPartitionInfo t with
  | Some pi => partitionIDs pi
  | None => []
  end.

(** The two scalars of a snapshot. No operation below [handleDDL] writes them. *)
Definition scalars (s : schemaSnapshot) : N * bool := (currentTs s, forceReplicate s).

(** ** Reachable storages *)

(** The storages that a changefeed can be in: a freshly constructed storage,
    and whatever [HandleDDLJob], [AdvanceResolvedTs] and [DoGC] make of a
    reachable storage when they return. *)
Inductive reachable : schemaStorageImpl → Prop :=
| reachable_new meta startTs filter forceReplicate id st :
    NewSchemaStorage meta startTs filter forceReplicate id = inr st →
    reachable st
| reachable_ddl job st st' :
    reachable st → HandleDDLJob job st = Ok st' → reachable st'
| reachable_ddl_failed job err st st' :
    reachable st → HandleDDLJob job st = Err err st' → reachable st'
| reachable_advance ts st :
    reachable st → reachable (AdvanceResolvedTs ts st)
| reachable_gc ts st st' lastSchemaTs :
    reachable st → DoGC ts st = inr (st', lastSchemaTs) → reachable st'.

(** Invariant 5 of a snapshot: every ineligible id is a table or a partition. *)
Definition ineligibleKnown (s : schemaSnapshot) : Prop :=
  set_Forall (λ id, is_Some (tables s !! id) ∨ is_Some (partitionTable s !! id))
             (ineligibleTableID s).

(** ** Further notions *)

(** The number of snapshots of a list that are at or before [ts]. *)
Definition atOrBefore (ts : N) (l : list schemaSnapshot) : nat :=
  length (filter (λ s, (currentTs s ≤ ts)%N) l).

(** What holds of the snapshot all along the schema loop of
    [newSchemaSnapshotFromMeta]: [sch] is the schema map that the first loop
    built, [ts] and [force] are the arguments of the call. *)
Definition loaded (sch : gmap Z DBInfo) (ts : N) (force : bool) (s : schemaSnapshot) : Prop :=
  schemas s = sch ∧
  forceReplicate s = force ∧
  truncateTableID s = ∅ ∧
  ineligibleKnown s ∧
  (∀ id t, tables s !! id = Some t →
     ID t = id ∧ TableInfoVersion t = ts ∧
     ∃ db, sch !! SchemaID t = Some db ∧ Schema (TableInfo_TableName t) = O (DBInfo_Name db)) ∧
  (∀ id, is_Some (tableInSchema s !! id) → is_Some (sch !! id)).

(** The partition index is owned: every record of the partition index is the
    record that the table map holds under its id, and lists the partition id
    it is indexed by. [GetTableNameByID] relies on the first half. *)
Definition partitionOwned (s : schemaSnapshot) : Prop :=
  ∀ pid t, partitionTable s !! pid = Some t →
           tables s !! ID t = Some t ∧ pid ∈ partitionsOf t.

(** ** Data of the scenarios *)

Module Scenario.

Definition ciStr (name : string) : CIStr := {| O := name; L := name |}.

Definition schema (id : Z) (name : string) : DBInfo :=
  {| DBInfo_ID := id; DBInfo_Name := ciStr name;
     DBInfo_Charset := "utf8mb4"; DBInfo_Collate := "utf8mb4_bin" |}.

Definition db1 : DBInfo := schema 1 "db1".

(** A table without partitions. *)
Definition table (id : Z) (name : string) (eligible : bool) : RawTableInfo :=
  {| RawTableInfo_ID := id; RawTableInfo_Name := ciStr name; Partition := None;
     Eligibility := λ _, eligible |}.

(** A table with the given partitions. *)
Definition partitioned (id : Z) (name : string) (pids : list Z) (eligible : bool)
    : RawTableInfo :=
  {| RawTableInfo_ID := id; RawTableInfo_Name := ciStr name;
     Partition := Some {| Enable := true; Definitions := Build_PartitionDefinition <$> pids |};
     Eligibility := λ _, eligible |}.

(** A job in state done, on schema 1 unless it says otherwise. *)
Definition job (kind : ActionType) (schemaID tableID : Z) (finishedTS : N)
    (db : option DBInfo) (info : option RawTableInfo) : Job :=
  {| Job_ID := 1; Type_ := kind; Job_SchemaID := schemaID; TableID := tableID;
     SchemaName := ""; State := JobStateDone;
     BinlogInfo := Some {| FinishedTS := finishedTS; HistoryInfo_DBInfo := db;
                           HistoryInfo_TableInfo := info; MultipleTableInfos := [] |};
     Args := None |}.

Definition createSchemaJob (db : DBInfo) (finishedTS : N) : Job :=
  job ActionCreateSchema (DBInfo_ID db) 0 finishedTS (Some db) None.

Definition dropSchemaJob (db : DBInfo) (finishedTS : N) : Job :=
  job ActionDropSchema (DBInfo_ID db) 0 finishedTS (Some db) None.

Definition createTableJob (info : RawTableInfo) (finishedTS : N) : Job :=
  job ActionCreateTable 1 (RawTableInfo_ID info) finishedTS None (Some info).

Definition renameTableJob (oldID : Z) (info : RawTableInfo) (finishedTS : N) : Job :=
  job ActionRenameTable 1 oldID finishedTS None (Some info).

Definition renameTablesJob (args : RenameTablesArgs) (infos : list RawTableInfo)
    (finishedTS : N) : Job :=
  {| Job_ID := 1; Type_ := ActionRenameTables; Job_SchemaID := 1; TableID := 0;
     SchemaName := ""; State := JobStateDone;
     BinlogInfo := Some {| FinishedTS := finishedTS; HistoryInfo_DBInfo := None;
                           HistoryInfo_TableInfo := None; MultipleTableInfos := infos |};
     Args := Some args |}.

(** The swap of scenario 4: table 100 takes the name b, table 200 the name a. *)
Definition swapArgs : RenameTablesArgs :=
  {| oldSchemaIDs := [1; 1]; newSchemaIDs := [1; 1];
     newTableNames := [ciStr "b"; ciStr "a"]; oldTableIDs := [100; 200];
     oldSchemaNames := [ciStr "db1"; ciStr "db1"] |}.

Definition swapJob : Job :=
  renameTablesJob swapArgs [table 100 "b" true; table 200 "a" true] 11.

(** A catalog without databases. *)
Definition emptyMeta : Meta := {| ListDatabases := Some []; ListTables := λ _, Some [] |}.

(** The storage of a changefeed that starts at [startTs] on the empty catalog. *)
Definition startAt (startTs : N) : schemaStorageImpl :=
  {| snaps := [set_currentTs startTs (newEmptySchemaSnapshot false)];
     gcTs := 0%N; resolvedTs := startTs; ddlFilter := None;
     storageForceReplicate := false; changefeedID := "changefeed" |}.

(** The storage with snapshots at 1, 5, 7 and 9: it starts at 1 and handles
    three schema creations. *)
Definition jobs_5_7_9 : list Job :=
  [createSchemaJob (schema 1 "db1") 5; createSchemaJob (schema 2 "db2") 7;
   createSchemaJob (schema 3 "db3") 9].

(** The snapshot with schema [db1] and nothing else. *)
Definition withDb1 : exec schemaSnapshot :=
  handleDDL (createSchemaJob db1 1) (newEmptySchemaSnapshot false).

(** The snapshot that the empty snapshot becomes under a list of jobs. *)
Definition snapshotAfter (jobs : list Job) : exec schemaSnapshot :=
  forEach handleDDL jobs (newEmptySchemaSnapshot false).

(** The storage that a changefeed starting at 0 becomes under a list of jobs. *)
Definition storageAfter (jobs : list Job) : exec schemaStorageImpl :=
  forEach HandleDDLJob jobs (startAt 0).

Definition partitionJob (kind : ActionType) (info : RawTableInfo) (finishedTS : N) : Job :=
  job kind 1 (RawTableInfo_ID info) finishedTS None (Some info).

(** A job of another kind (here: adding an index) that carries the new table. *)
Definition alterTableJob (info : RawTableInfo) (finishedTS : N) : Job :=
  job (ActionOther 7) 1 (RawTableInfo_ID info) finishedTS None (Some info).

(** The owner of an id in the partition index, if any. *)
Definition partitionOwner (s : schemaSnapshot) (pid : Z) : option Z :=
  ID <$> partitionTable s !! pid.

(** The storage with snapshots at 1, 5, 7 and 9. *)
Definition st1579 : schemaStorageImpl :=
  match forEach HandleDDLJob jobs_5_7_9 (startAt 1) with
  | Ok st => st
  | _ => startAt 1
  end.

(** Scenario 1: schema db1 with table 100 named t, renamed to u at 5. *)
Definition renameJob : Job := renameTableJob 100 (table 100 "u" true) 5.

Definition afterRename : schemaStorageImpl :=
  match storageAfter [createSchemaJob db1 1; createTableJob (table 100 "t" true) 2;
                      renameJob] with
  | Ok st => st
  | _ => startAt 0
  end.

(** A schema with an ineligible partitioned table, and the drop of the schema. *)
Definition ineligibleJobs : list Job :=
  [createSchemaJob db1 1; createTableJob (partitioned 100 "t" [10; 20] false) 2].

Definition beforeDropSchema : schemaStorageImpl :=
  match storageAfter ineligibleJobs with
  | Ok st => st
  | _ => startAt 0
  end.

Definition afterDropSchema : schemaStorageImpl :=
  match HandleDDLJob (dropSchemaJob db1 3) beforeDropSchema with
  | Ok st => st
  | _ => startAt 0
  end.

(** The snapshot under a list of jobs, when it is known that they all apply. *)
Definition theSnapshot (jobs : list Job) : schemaSnapshot :=
  match snapshotAfter jobs with
  | Ok s => s
  | _ => newEmptySchemaSnapshot false
  end.

(** Schema db1 with the tables a (100) and b (200). *)
Definition twoTables : schemaSnapshot :=
  theSnapshot [createSchemaJob db1 1; createTableJob (table 100 "a" true) 2;
               createTableJob (table 200 "b" true) 3].

(** Schema db1 with table t (100). *)
Definition oneTable (eligible : bool) : schemaSnapshot :=
  theSnapshot [createSchemaJob db1 1; createTableJob (table 100 "t" eligible) 2].

(** Schema db1 with table t (100) and its partitions. *)
Definition onePartitioned (pids : list Z) (eligible : bool) : schemaSnapshot :=
  theSnapshot [createSchemaJob db1 1; createTableJob (partitioned 100 "t" pids eligible) 2].


(** What a run returned, for the runs of the scenarios, which all return. *)
Definition snapshotOf (r : exec schemaSnapshot) : schemaSnapshot :=
  match r with
  | Ok s => s
  | _ => newEmptySchemaSnapshot false
  end.

(** The i-th snapshot of a storage. *)
Definition nthSnap (st : schemaStorageImpl) (i : nat) : schemaSnapshot :=
  default (newEmptySchemaSnapshot false) (snaps st !! i).

(** The storage that [DoGC ts] leaves. *)
Definition collected (ts : N) (st : schemaStorageImpl) : schemaStorageImpl :=
  match DoGC ts st with
  | inr (st', _) => st'
  | inl _ => st
  end.

(** The storage with snapshots at 5, 7 and 9 that [DoGC 6] makes of [st1579]. *)
Definition st579 : schemaStorageImpl := collected 6 st1579.

(** Scenario 4: the two tables after the swap. *)
Definition swapped : schemaSnapshot := snapshotOf (handleDDL swapJob twoTables).

(** Scenario 3: table 100 with partitions 10, 20 and 30 after the drop of 30. *)
Definition dropPartitionJob : Job :=
  partitionJob ActionDropTablePartition (partitioned 100 "t" [10; 20] true) 9.

Definition partitionDropped : schemaSnapshot :=
  snapshotOf (handleDDL dropPartitionJob (onePartitioned [10; 20; 30] true)).

(** The ineligible table 100 with partitions 10 and 20 after an eligible
    incoming table added partition 30. *)
Definition addPartitionJob : Job :=
  partitionJob ActionAddTablePartition (partitioned 100 "t" [10; 20; 30] true) 9.

Definition partitionAdded : schemaSnapshot :=
  snapshotOf (handleDDL addPartitionJob (onePartitioned [10; 20] false)).

(** The latest snapshot of a storage of the scenarios. *)
Definition latest (st : schemaStorageImpl) : schemaSnapshot :=
  default (newEmptySchemaSnapshot false) (last (snaps st)).

(** Unwraps a lookup for the scenarios: the [currentTs] of what [getSnapshot] returns. *)
Definition getSnapshotTs (st : schemaStorageImpl) (ts : N) : cerror + N :=
  match getSnapshot st ts with
  | inl err => inl err
  | inr snap => inr (currentTs snap)
  end.

(** What a call on a storage returned, or the storage itself when it did not return. *)
Definition storageOf (r : exec schemaStorageImpl) (st : schemaStorageImpl)
    : schemaStorageImpl :=
  match r with
  | Ok st' => st'
  | _ => st
  end.

(** The creation of schema db4 at 11, and [st1579] after it. *)
Definition createDb4 : Job := createSchemaJob (schema 4 "db4") 11.

Definition st157911 : schemaStorageImpl := storageOf (HandleDDLJob createDb4 st1579) st1579.

(** The same creation while the job is still running: the storage skips it. *)
Definition runningJob : Job :=
  {| Job_ID := 2; Type_ := ActionCreateSchema; Job_SchemaID := 4; TableID := 0;
     SchemaName := ""; State := JobStateRunning;
     BinlogInfo := Some {| FinishedTS := 11; HistoryInfo_DBInfo := Some (schema 4 "db4");
                           HistoryInfo_TableInfo := None; MultipleTableInfos := [] |};
     Args := None |}.

(** A job of another kind on schema 1 that carries no table. *)
Definition noTableJob : Job := job (ActionOther 7) 1 0 11 None None.

(** The truncation of table 100, whose successor is table 101. *)
Definition truncateJob : Job :=
  job ActionTruncateTable 1 100 5 None (Some (table 101 "t" true)).

(** An ineligible table of schema 1 with the partitions 30 and 40. *)
Definition partitionedTable : TableInfo :=
  WrapTableInfo 1 "db1" 3 (partitioned 200 "p" [30; 40] false).

(** Schema db1 alone, and with the eligible table t (100) and its partitions
    10 and 20, built by [createSchema] and [createTable]. *)
Definition schemaOnly : schemaSnapshot :=
  snapshotOf (createSchema db1 (newEmptySchemaSnapshot false)).

Definition ownedTable : TableInfo :=
  WrapTableInfo 1 "db1" 2 (partitioned 100 "t" [10; 20] true).

Definition owned : schemaSnapshot := snapshotOf (createTable ownedTable schemaOnly).

(** A catalog with schema db1 and its ineligible table t (100) with the
    partitions 10 and 20, and the snapshot read from it at 5. *)
Definition catalog : Meta :=
  {| ListDatabases := Some [db1];
     ListTables := λ id, if decide (id = 1)
                         then Some [partitioned 100 "t" [10; 20] false] else Some [] |}.

Definition fromCatalog : schemaSnapshot :=
  match newSchemaSnapshotFromMeta catalog 5 false with
  | inr s => s
  | inl _ => newEmptySchemaSnapshot false
  end.

(** A schema whose name has an upper-case letter: its original spelling is
    Db1, its lower-case spelling db1. *)
Definition mixedCase : DBInfo :=
  {| DBInfo_ID := 1; DBInfo_Name := {| O := "Db1"; L := "db1" |};
     DBInfo_Charset := "utf8mb4"; DBInfo_Collate := "utf8mb4_bin" |}.

(** The storage with schema Db1 and its tables a (100) and b (200), and what
    the swap of scenario 4 makes of it. *)
Definition mixedJobs : list Job :=
  [createSchemaJob mixedCase 1; createTableJob (table 100 "a" true) 2;
   createTableJob (table 200 "b" true) 3].

Definition mixedBefore : schemaStorageImpl := storageOf (storageAfter mixedJobs) (startAt 0).

Definition mixedAfter : schemaStorageImpl :=
  storageOf (HandleDDLJob swapJob mixedBefore) mixedBefore.

(** The rename of table 100 alone to b2, by a RenameTable job, on the same storage. *)
Definition renameOneJob : Job := renameTableJob 100 (table 100 "b2" true) 11.

Definition mixedRenamedOne : schemaStorageImpl :=
  storageOf (HandleDDLJob renameOneJob mixedBefore) mixedBefore.

(** The truncation of partition 30 of table 100, which gets partition 31 for it. *)
Definition truncatePartitionJob : Job :=
  partitionJob ActionTruncateTablePartition (partitioned 100 "t" [10; 20; 31] true) 9.

End Scenario.
(** * Properties *)

(** Closes a goal about the scenarios by running the definitions. *)
Ltac evaluate :=
  vm_compute;
  first [reflexivity | exact I | discriminate | (intros; discriminate)].

(** Membership in a list of the scenarios, with the context out of the way. *)
Ltac member := vm_compute; clear; set_solver.

(** Splits a conjunction into its conjuncts, and nothing else. *)
Ltac conjuncts := repeat match goal with |- _ ∧ _ => split end.

(** ** Executions *)

Lemma bind_Ok_inv {S : Type} (m : exec S) (k : S → exec S) (s' : S) :
  m >>> k = Ok s' → ∃ s1, m = Ok s1 ∧ k s1 = Ok s'.
Proof. destruct m; simpl; intros H; try discriminate. eauto. Qed.

Lemma forEach_app {S A : Type} (step : A → S → exec S) (l1 l2 : list A) (s : S) :
  forEach step (l1 ++ l2) s = forEach step l1 s >>> forEach step l2.
Proof.
  revert s. induction l1 as [|x l1 IH]; intros s; simpl; [done|].
  destruct (step x s); simpl; auto.
Qed.

(** A property that every step keeps is kept by the loop. *)
Lemma forEach_Ok_ind {S A : Type} (P : S → Prop) (step : A → S → exec S) (l : list A) :
  (∀ x s s', x ∈ l → P s → step x s = Ok s' → P s') →
  ∀ s s', P s → forEach step l s = Ok s' → P s'.
Proof.
  induction l as [|x l IH]; intros Hstep s s' HP H; simpl in H.
  - by inversion H; subst.
  - apply bind_Ok_inv in H as (s1 & H1 & H2).
    eapply IH; [|eapply Hstep; [left| |]|]; eauto.
    intros; eapply Hstep; eauto. by right.
Qed.

(** ** Clone *)

(** A clone is equal to its source as a value: [Clone] copies every container,
    so nothing that is done to the clone afterwards shows in the source. *)
Lemma Clone_eq (s : schemaSnapshot) : Clone s = s.
Proof.
  destruct s; unfold Clone; simpl; f_equal.
  - apply list_to_map_to_list.
  - apply list_to_map_to_list.
  - apply map_eq; intros i. rewrite lookup_fmap. by destruct (_ !! i) as [[]|].
  - apply list_to_map_to_list.
  - apply list_to_map_to_list.
  - apply map_eq; intros i. rewrite lookup_fmap.
    destruct (_ !! i) as [v|]; simpl; [|done]. by rewrite firstn_all.
  - apply list_to_set_elements_L.
  - apply list_to_set_elements_L.
Qed.

(** ** The history *)

Lemma History_cons_inv (a : schemaSnapshot) (l : list schemaSnapshot) :
  History (a :: l) → History l ∧ Forall (λ b, (currentTs a ≤ currentTs b)%N) l.
Proof.
  unfold History. rewrite fmap_cons. intros H.
  apply (Sorted_StronglySorted _) in H. apply StronglySorted_inv in H as [H1 H2].
  split; [by apply StronglySorted_Sorted|].
  rewrite Forall_fmap in H2. exact H2.
Qed.

Lemma History_lookup_le (l : list schemaSnapshot) (i j : nat) (a b : schemaSnapshot) :
  History l → (i ≤ j)%nat → l !! i = Some a → l !! j = Some b →
  (currentTs a ≤ currentTs b)%N.
Proof.
  revert i j. induction l as [|x l IH]; intros i j Hl Hij Ha Hb; [done|].
  apply History_cons_inv in Hl as [Hl Hx].
  destruct i as [|i], j as [|j]; simpl in *.
  - inversion Ha; inversion Hb; subst. lia.
  - inversion Ha; subst. rewrite Forall_forall in Hx. apply Hx.
    by eapply list_elem_of_lookup_2.
  - lia.
  - eapply (IH i j); eauto. lia.
Qed.

Lemma History_app_inv_r (l1 l2 : list schemaSnapshot) : History (l1 ++ l2) → History l2.
Proof.
  induction l1 as [|x l1 IH]; [done|]. simpl. intros H.
  apply History_cons_inv in H as [H _]. auto.
Qed.

Lemma History_snoc (l : list schemaSnapshot) (lastSnap snap : schemaSnapshot) :
  History l → last l = Some lastSnap → (currentTs lastSnap ≤ currentTs snap)%N →
  History (l ++ [snap]).
Proof.
  unfold History. intros Hl Hlast Hle. rewrite fmap_app. simpl.
  apply (Sorted_StronglySorted _) in Hl. apply StronglySorted_Sorted.
  apply StronglySorted_app_2; [|done|repeat constructor].
  intros x1 x2 Hx1 Hx2. apply list_elem_of_singleton in Hx2 as ->.
  apply list_elem_of_fmap in Hx1 as (a & -> & Ha).
  apply list_elem_of_lookup in Ha as [i Hi].
  rewrite last_lookup in Hlast.
  etrans; [|exact Hle].
  apply (History_lookup_le l i (pred (length l))); auto.
  - by apply StronglySorted_Sorted.
  - apply lookup_lt_Some in Hi. lia.
Qed.

(** ** Bisection *)

Section Search.
Variable f : nat → bool.
Variable n : nat.
Hypothesis f_mono : ∀ a b, (a ≤ b)%nat → (b < n)%nat → f a = true → f b = true.

Lemma searchLoop_bounds (i j : nat) :
  (i ≤ j)%nat → (j ≤ n)%nat →
  (∀ a, (a < i)%nat → f a = false) →
  (∀ a, (j ≤ a)%nat → (a < n)%nat → f a = true) →
  (i ≤ searchLoop f i j ≤ j)%nat ∧
  (∀ a, (a < searchLoop f i j)%nat → f a = false) ∧
  (∀ a, (searchLoop f i j ≤ a)%nat → (a < n)%nat → f a = true).
Proof.
  intros Hij Hjn Hlow Hhigh.
  funelim (searchLoop f i j).
  - assert (i = j) as -> by lia. auto.
  - assert ((i + j) / 2 < j)%nat by (apply Nat.Div0.div_lt_upper_bound; lia).
    assert (i ≤ (i + j) / 2)%nat by (apply Nat.div_le_lower_bound; lia).
    destruct H as (Hb & Hl & Hh); try lia; try done.
    + intros a Ha1 Ha2. apply (f_mono ((i + j) / 2)%nat); auto.
    + split; [lia|done].
  - assert ((i + j) / 2 < j)%nat by (apply Nat.Div0.div_lt_upper_bound; lia).
    assert (i ≤ (i + j) / 2)%nat by (apply Nat.div_le_lower_bound; lia).
    destruct H as (Hb & Hl & Hh); try lia; try done.
    + intros a Ha. destruct (f a) eqn:Hfa; [|done].
      rewrite (f_mono a ((i + j) / 2)%nat) in Heq; [done|lia|lia|done].
    + split; [lia|done].
Qed.

(** [Search n f] is the least index at which the monotone [f] holds, or [n]. *)
Lemma Search_least :
  (Search n f ≤ n)%nat ∧
  (∀ a, (a < Search n f)%nat → f a = false) ∧
  (∀ a, (Search n f ≤ a)%nat → (a < n)%nat → f a = true).
Proof.
  unfold Search.
  destruct (searchLoop_bounds 0 n) as (Hb & Hl & Hh);
    [lia | lia | intros; lia | intros; lia |].
  split; [lia|done].
Qed.
End Search.

(** ** The one-shot lookup *)

Lemma snapAfter_mono (l : list schemaSnapshot) (ts : N) :
  History l →
  ∀ a b, (a ≤ b)%nat → (b < length l)%nat → snapAfter l ts a = true → snapAfter l ts b = true.
Proof.
  intros Hl a b Hab Hb. unfold snapAfter.
  destruct (lookup_lt_is_Some_2 l b Hb) as [sb Hsb].
  destruct (lookup_lt_is_Some_2 l a ltac:(lia)) as [sa Hsa].
  rewrite Hsa, Hsb. rewrite !N.ltb_lt.
  pose proof (History_lookup_le l a b sa sb Hl Hab Hsa Hsb). lia.
Qed.

(** What the search of [getSnapshot] finds in a history: every snapshot below
    the index is at or before [ts], every snapshot from the index on is after it. *)
Lemma getSnapshot_index (l : list schemaSnapshot) (ts : N) :
  History l →
  (Search (length l) (snapAfter l ts) ≤ length l)%nat ∧
  (∀ a s, (a < Search (length l) (snapAfter l ts))%nat → l !! a = Some s →
          (currentTs s ≤ ts)%N) ∧
  (∀ a s, (Search (length l) (snapAfter l ts) ≤ a)%nat → l !! a = Some s →
          (ts < currentTs s)%N).
Proof.
  intros Hl.
  destruct (Search_least (snapAfter l ts) (length l) (snapAfter_mono l ts Hl))
    as (Hb & Hlow & Hhigh).
  split; [done|]. split.
  - intros a s Ha Hs. specialize (Hlow a Ha). unfold snapAfter in Hlow.
    rewrite Hs in Hlow. apply N.ltb_ge in Hlow. done.
  - intros a s Ha Hs. pose proof (lookup_lt_Some _ _ _ Hs) as Hlt.
    specialize (Hhigh a Ha Hlt). unfold snapAfter in Hhigh.
    rewrite Hs in Hhigh. by apply N.ltb_lt in Hhigh.
Qed.

(** The successful lookups, in full. *)
Lemma getSnapshot_inr (st : schemaStorageImpl) (ts : N) (s : schemaSnapshot) :
  History (snaps st) → getSnapshot st ts = inr s →
  ∃ i, snaps st !! i = Some s ∧
       (gcTs st ≤ ts ≤ resolvedTs st)%N ∧ (currentTs s ≤ ts)%N ∧
       (∀ a s', (i < a)%nat → snaps st !! a = Some s' → (ts < currentTs s')%N).
Proof.
  intros Hl. unfold getSnapshot.
  destruct (ts <? gcTs st)%N eqn:Hgc; [done|].
  destruct (resolvedTs st <? ts)%N eqn:Hres; [done|].
  apply N.ltb_ge in Hgc, Hres.
  destruct (getSnapshot_index (snaps st) ts Hl) as (Hb & Hlow & Hhigh).
  destruct (Search _ _) as [|i] eqn:Hi; [done|].
  destruct (snaps st !! i) as [snap|] eqn:Hsnap; [|done].
  intros [= <-]. exists i. split; [done|]. split; [lia|]. split.
  - apply (Hlow i); [lia|done].
  - intros a s' Ha Hs'. apply (Hhigh a); [lia|done].
Qed.

(** Inside the window the lookup returns. *)
Lemma getSnapshot_returns (st : schemaStorageImpl) (ts : N) (oldest : schemaSnapshot) :
  History (snaps st) → head (snaps st) = Some oldest →
  (gcTs st ≤ ts ≤ resolvedTs st)%N → (currentTs oldest ≤ ts)%N →
  ∃ s, getSnapshot st ts = inr s.
Proof.
  intros Hl Hhead [Hgc Hres] Hold.
  destruct (getSnapshot_index (snaps st) ts Hl) as (Hb & _ & Hhigh).
  assert (snaps st !! 0%nat = Some oldest) as H0 by (by rewrite <- head_lookup).
  unfold getSnapshot. apply N.ltb_ge in Hgc, Hres. rewrite Hgc, Hres.
  destruct (Search _ _) as [|i] eqn:Hi.
  - specialize (Hhigh 0%nat oldest ltac:(lia) H0). lia.
  - destruct (lookup_lt_is_Some_2 (snaps st) i ltac:(lia)) as [snap Hsnap].
    rewrite Hsnap. eauto.
Qed.

(** C1. In a history, the lookup [getSnapshot ts] returns a snapshot exactly
    when [ts] lies between the two watermarks and at or after the [currentTs]
    of the oldest snapshot; and the snapshot [s] that it returns is the
    snapshot of the history with the largest [currentTs] at or before [ts]:
    [s] is in the history, [currentTs s <= ts], and no snapshot of the history
    has its [currentTs] after that of [s] and at or before [ts]. *)
Theorem getSnapshot_largest_at_or_before (st : schemaStorageImpl) (ts : N) :
  History (snaps st) →
  ((∃ s, getSnapshot st ts = inr s) ↔
   (gcTs st ≤ ts ≤ resolvedTs st)%N ∧
   ∃ oldest, head (snaps st) = Some oldest ∧ (currentTs oldest ≤ ts)%N) ∧
  (∀ s, getSnapshot st ts = inr s →
        s ∈ snaps st ∧
        (currentTs s ≤ ts)%N ∧
        (∀ s', s' ∈ snaps st → ¬ (currentTs s < currentTs s' ≤ ts)%N)).
Proof.
  intros Hl. split; [split|].
  - intros [s Hget].
    destruct (getSnapshot_inr st ts s Hl Hget) as (i & Hi & Hts & Hle & _).
    split; [done|].
    destruct (snaps st) as [|oldest rest] eqn:Hsnaps; [done|].
    exists oldest. split; [done|].
    pose proof (History_lookup_le (oldest :: rest) 0 i oldest s Hl) as H.
    etrans; [apply H; [lia|done|done]|done].
  - intros (Hwin & oldest & Hhead & Hold). by eapply getSnapshot_returns.
  - intros s Hget.
    destruct (getSnapshot_inr st ts s Hl Hget) as (i & Hi & Hts & Hle & Hafter).
    split; [by eapply list_elem_of_lookup_2|]. split; [done|].
    intros s' Hs' [Hlt Hle'].
    apply list_elem_of_lookup in Hs' as [a Ha].
    destruct (decide (i < a)%nat) as [Hia|Hia].
    + specialize (Hafter a s' Hia Ha). lia.
    + pose proof (History_lookup_le (snaps st) a i s' s Hl ltac:(lia) Ha Hi). lia.
Qed.

(** C4. In a non-empty history, [getSnapshot ts] decides in this order: it
    fails with [ErrSchemaStorageGCed] when [ts < gcTs]; otherwise with
    [ErrSchemaStorageUnresolved] when [ts > resolvedTs]; otherwise with
    [ErrSchemaSnapshotNotFound] when [ts] is before the oldest snapshot; in every
    other case it returns a snapshot. Of all errors, only
    [ErrSchemaStorageUnresolved] is retryable. *)
Theorem getSnapshot_error_order (st : schemaStorageImpl) (ts : N) (oldest : schemaSnapshot) :
  History (snaps st) →
  head (snaps st) = Some oldest →
  ((ts < gcTs st)%N → getSnapshot st ts = inl ErrSchemaStorageGCed) ∧
  ((gcTs st ≤ ts)%N → (resolvedTs st < ts)%N →
   getSnapshot st ts = inl ErrSchemaStorageUnresolved) ∧
  ((gcTs st ≤ ts ≤ resolvedTs st)%N → (ts < currentTs oldest)%N →
   getSnapshot st ts = inl ErrSchemaSnapshotNotFound) ∧
  ((gcTs st ≤ ts ≤ resolvedTs st)%N → (currentTs oldest ≤ ts)%N →
   ∃ s, getSnapshot st ts = inr s) ∧
  (∀ err, isRetryable err = true ↔ err = Some ErrSchemaStorageUnresolved).
Proof.
  intros Hl Hhead.
  destruct (getSnapshot_index (snaps st) ts Hl) as (Hb & Hlow & Hhigh).
  assert (snaps st !! 0%nat = Some oldest) as H0 by (by rewrite <- head_lookup).
  unfold getSnapshot. repeat split.
  - intros Hgc. apply N.ltb_lt in Hgc. by rewrite Hgc.
  - intros Hgc Hres. apply N.ltb_ge in Hgc. apply N.ltb_lt in Hres. by rewrite Hgc, Hres.
  - intros [Hgc Hres] Hold. apply N.ltb_ge in Hgc, Hres. rewrite Hgc, Hres.
    destruct (Search _ _) as [|i] eqn:Hi; [done|].
    specialize (Hlow 0%nat oldest ltac:(lia) H0). lia.
  - intros [Hgc Hres] Hold. apply N.ltb_ge in Hgc, Hres. rewrite Hgc, Hres.
    destruct (Search _ _) as [|i] eqn:Hi.
    + specialize (Hhigh 0%nat oldest ltac:(lia) H0). lia.
    + destruct (lookup_lt_is_Some_2 (snaps st) i ltac:(lia)) as [snap Hsnap].
      rewrite Hsnap. eauto.
  - intros H. unfold isRetryable in H.
    apply andb_true_iff in H as [_ H]. by apply bool_decide_eq_true in H.
  - by intros ->.
Qed.

(** ** Garbage collection *)

(** The scan stops at the first snapshot after [ts]: it splits the list into
    the longest prefix at or before [ts] and the rest, and ends on the index of
    the last snapshot of the prefix, or on its initial value if the prefix is empty. *)
Lemma gcScan_split (ts : N) (l : list schemaSnapshot) (i startIdx : nat) :
  ∃ pre post,
    l = pre ++ post ∧
    Forall (λ s, (currentTs s ≤ ts)%N) pre ∧
    (∀ s, head post = Some s → (ts < currentTs s)%N) ∧
    gcScan ts l i startIdx =
      match length pre with 0%nat => startIdx | S k => (i + k)%nat end.
Proof.
  revert i startIdx. induction l as [|snap rest IH]; intros i startIdx; simpl.
  - exists [], []. by repeat split.
  - destruct (ts <? currentTs snap)%N eqn:Hts.
    + exists [], (snap :: rest). repeat split; [done|].
      intros s [= <-]. by apply N.ltb_lt.
    + destruct (IH (S i) i) as (pre & post & -> & Hpre & Hpost & Hscan).
      exists (snap :: pre), post. split; [done|]. split; [|split; [done|]].
      * constructor; [by apply N.ltb_ge|done].
      * rewrite Hscan. destruct pre; simpl; [lia|f_equal; lia].
Qed.

(** In a history, everything after a snapshot that is after [ts] is after [ts]. *)
Lemma History_after (ts : N) (l : list schemaSnapshot) :
  History l → (∀ s, head l = Some s → (ts < currentTs s)%N) →
  Forall (λ s, (ts < currentTs s)%N) l.
Proof.
  intros Hl Hhead. destruct l as [|x l]; [constructor|].
  specialize (Hhead x eq_refl).
  apply History_cons_inv in Hl as [_ Hx].
  constructor; [done|]. eapply Forall_impl; [exact Hx|]. simpl. intros; lia.
Qed.

(** What [DoGC] does to a non-empty history. The history splits into the
    removed snapshots, the retained baseline [oldest] and the snapshots kept
    after it. When nothing is removed the storage, and with it [gcTs], is left
    as it was. *)
Lemma DoGC_history (ts : N) (st : schemaStorageImpl) :
  snaps st ≠ [] → History (snaps st) →
  ∃ removed oldest kept,
    snaps st = removed ++ oldest :: kept ∧
    Forall (λ s, (currentTs s ≤ ts)%N) removed ∧
    Forall (λ s, (ts < currentTs s)%N) kept ∧
    ((currentTs oldest ≤ ts)%N ∨ removed = []) ∧
    DoGC ts st =
      inr (match removed with
           | [] => st
           | _ => set_gcTs (currentTs oldest) (set_snaps (oldest :: kept) st)
           end, currentTs oldest).
Proof.
  intros Hne Hl. unfold DoGC.
  destruct (gcScan_split ts (snaps st) 0 0) as (pre & post & Hsplit & Hpre & Hpost & ->).
  assert (Forall (λ s, (ts < currentTs s)%N) post) as Hpost'.
  { apply History_after; [|done]. rewrite Hsplit in Hl. by eapply History_app_inv_r. }
  destruct pre as [|p pre _] using rev_ind.
  - simpl in Hsplit. destruct (snaps st) as [|oldest kept] eqn:Hs; [done|]. subst post.
    exists [], oldest, kept. repeat split; [constructor| |by right].
    by apply Forall_inv_tail in Hpost'.
  - apply Forall_app in Hpre as [Hpre Hp]. apply Forall_inv in Hp.
    rewrite length_app, Nat.add_comm. simpl.
    destruct pre as [|q pre].
    + simpl in *. rewrite Hsplit.
      exists [], p, post. repeat split; [constructor|done|by left].
    + exists (q :: pre), p, post.
      split; [by rewrite Hsplit, <- app_assoc|]. split; [done|]. split; [done|].
      split; [by left|].
      rewrite Hsplit, <- app_assoc.
      rewrite (drop_app_length' (q :: pre)) by done. done.
Qed.

(** C3. [DoGC ts] on a non-empty history removes the snapshots at or before [ts]
    except the last of them, keeps that one and every snapshot after [ts], and
    returns the [currentTs] of the oldest snapshot it keeps. It stores the
    returned value into [gcTs] when it removes something; when it removes
    nothing it leaves [gcTs] as it was. On the snapshots at 1, 5, 7 and 9,
    [DoGC 6] returns 5; afterwards a lookup at 4 fails with
    [ErrSchemaStorageGCed] and the lookups at 5 and 8 return the snapshots at 5 and 7. *)
Theorem DoGC_retains_baseline :
  (∀ (ts : N) (st : schemaStorageImpl),
     snaps st ≠ [] → History (snaps st) →
     ∃ removed oldest kept,
       snaps st = removed ++ oldest :: kept ∧
       Forall (λ s, (currentTs s ≤ ts)%N) removed ∧
       Forall (λ s, (ts < currentTs s)%N) kept ∧
       ((currentTs oldest ≤ ts)%N ∨ removed = []) ∧
       ∃ st',
         DoGC ts st = inr (st', currentTs oldest) ∧
         snaps st' = oldest :: kept ∧
         resolvedTs st' = resolvedTs st ∧
         gcTs st' = match removed with [] => gcTs st | _ => currentTs oldest end) ∧
  (NewSchemaStorage (Some Scenario.emptyMeta) 1 None false "changefeed"
     = inr (Scenario.startAt 1) ∧
   forEach HandleDDLJob Scenario.jobs_5_7_9 (Scenario.startAt 1) = Ok Scenario.st1579 ∧
   currentTs <$> snaps Scenario.st1579 = [1; 5; 7; 9]%N ∧
   DoGC 6 Scenario.st1579 = inr (Scenario.st579, 5%N) ∧
   currentTs <$> snaps Scenario.st579 = [5; 7; 9]%N ∧
   gcTs Scenario.st579 = 5%N ∧
   Scenario.getSnapshotTs Scenario.st579 4 = inl ErrSchemaStorageGCed ∧
   Scenario.getSnapshotTs Scenario.st579 5 = inr 5%N ∧
   Scenario.getSnapshotTs Scenario.st579 8 = inr 7%N).
Proof.
  split.
  - intros ts st Hne Hl.
    destruct (DoGC_history ts st Hne Hl) as (removed & oldest & kept & Hs & Hr & Hk & Ho & Hgc).
    exists removed, oldest, kept. repeat (split; [done|]).
    eexists. split; [exact Hgc|].
    destruct removed; simpl; [|done].
    by rewrite Hs.
  - conjuncts; evaluate.
Qed.

(** ** What the DDL application leaves alone *)

Lemma foldl_keeps {A B C : Type} (g : A → C) (f : A → B → A) (l : list B) (a : A) :
  (∀ a x, g (f a x) = g a) → g (foldl f a l) = g a.
Proof.
  intros Hf. revert a. induction l as [|x l IH]; intros a; simpl; [done|].
  by rewrite IH, Hf.
Qed.

Lemma forEach_keeps {S A C : Type} (g : S → C) (step : A → S → exec S) (l : list A)
    (s s' : S) :
  (∀ x s s', step x s = Ok s' → g s' = g s) →
  forEach step l s = Ok s' → g s' = g s.
Proof.
  intros Hstep H.
  apply (forEach_Ok_ind (λ s', g s' = g s) step l) with (s := s) (s' := s'); [|done|done].
  intros x s1 s2 _ H1 H2. rewrite <- H1. eauto.
Qed.

(** The setters of the containers keep the scalars by computation. *)
Ltac scalars_set :=
  repeat match goal with
         | |- context [scalars (set_tableNameToID ?f ?s)] =>
             change (scalars (set_tableNameToID f s)) with (scalars s)
         | |- context [scalars (set_schemaNameToID ?f ?s)] =>
             change (scalars (set_schemaNameToID f s)) with (scalars s)
         | |- context [scalars (set_schemas ?f ?s)] =>
             change (scalars (set_schemas f s)) with (scalars s)
         | |- context [scalars (set_tables ?f ?s)] =>
             change (scalars (set_tables f s)) with (scalars s)
         | |- context [scalars (set_partitionTable ?f ?s)] =>
             change (scalars (set_partitionTable f s)) with (scalars s)
         | |- context [scalars (set_tableInSchema ?f ?s)] =>
             change (scalars (set_tableInSchema f s)) with (scalars s)
         | |- context [scalars (set_truncateTableID ?f ?s)] =>
             change (scalars (set_truncateTableID f s)) with (scalars s)
         | |- context [scalars (set_ineligibleTableID ?f ?s)] =>
             change (scalars (set_ineligibleTableID f s)) with (scalars s)
         end.

Lemma addPartition_scalars (table : TableInfo) (s : schemaSnapshot) (p : PartitionDefinition) :
  scalars (addPartition table s p) = scalars s.
Proof. unfold addPartition. simpl. destruct (IsEligible _ _); by scalars_set. Qed.

Lemma dropSchema_table_scalars (tableID : Z) (s s' : schemaSnapshot) :
  dropSchema_table tableID s = Ok s' → scalars s' = scalars s.
Proof.
  unfold dropSchema_table. destruct (tables s !! tableID) as [t|]; [|done].
  intros [= <-]. scalars_set.
  destruct (GetPartitionInfo t); [|done].
  by rewrite (foldl_keeps scalars).
Qed.

Lemma dropSchema_scalars (id : Z) (s s' : schemaSnapshot) :
  dropSchema id s = Ok s' → scalars s' = scalars s.
Proof.
  unfold dropSchema. destruct (schemas s !! id); [|done].
  intros H. apply bind_Ok_inv in H as (s1 & H1 & [= <-]). scalars_set.
  apply (forEach_keeps scalars) in H1; [|apply dropSchema_table_scalars]. done.
Qed.

Lemma createSchema_scalars (db : DBInfo) (s s' : schemaSnapshot) :
  createSchema db s = Ok s' → scalars s' = scalars s.
Proof. unfold createSchema. destruct (schemas s !! _); [done|]. by intros [= <-]. Qed.

Lemma replaceSchema_scalars (db : DBInfo) (s s' : schemaSnapshot) :
  replaceSchema db s = Ok s' → scalars s' = scalars s.
Proof. unfold replaceSchema. destruct (schemas s !! _); [|done]. by intros [= <-]. Qed.

Lemma dropTable_scalars (id : Z) (s s' : schemaSnapshot) :
  dropTable id s = Ok s' → scalars s' = scalars s.
Proof.
  unfold dropTable. destruct (tables s !! id) as [t|]; [|done].
  destruct (tableInSchema s !! SchemaID t) as [l|]; [|done].
  intros [= <-]. scalars_set.
  destruct (GetPartitionInfo t).
  - rewrite (foldl_keeps scalars); [|done]. scalars_set. by destruct (removeFirst id l).
  - scalars_set. by destruct (removeFirst id l).
Qed.

Lemma createTable_scalars (table : TableInfo) (s s' : schemaSnapshot) :
  createTable table s = Ok s' → scalars s' = scalars s.
Proof.
  unfold createTable. destruct (schemas s !! _); [|done].
  destruct (tableInSchema s !! _); [|done]. destruct (tables s !! _); [done|].
  intros [= <-]. scalars_set.
  destruct (GetPartitionInfo table).
  - rewrite (foldl_keeps scalars); [|apply addPartition_scalars].
    destruct (IsEligible _ _); by scalars_set.
  - destruct (IsEligible _ _); by scalars_set.
Qed.

Lemma replaceTable_scalars (table : TableInfo) (s s' : schemaSnapshot) :
  replaceTable table s = Ok s' → scalars s' = scalars s.
Proof.
  unfold replaceTable. destruct (tables s !! _); [|done].
  intros [= <-].
  destruct (GetPartitionInfo table).
  - rewrite (foldl_keeps scalars); [|apply addPartition_scalars].
    destruct (IsEligible _ _); by scalars_set.
  - destruct (IsEligible _ _); by scalars_set.
Qed.

Lemma updatePartition_new_scalars (tbl : TableInfo) (l : list PartitionDefinition)
    (acc : schemaSnapshot * gset Z) :
  scalars (foldl (updatePartition_new tbl) acc l).1 = scalars acc.1.
Proof.
  apply (foldl_keeps (λ acc, scalars acc.1)).
  intros a x. unfold updatePartition_new. simpl. destruct (IsEligible _ _); by scalars_set.
Qed.

Lemma updatePartition_scalars (tbl : TableInfo) (s s' : schemaSnapshot) :
  updatePartition tbl s = Ok s' → scalars s' = scalars s.
Proof.
  unfold updatePartition. destruct (tables s !! _) as [t|]; [|done].
  destruct (GetPartitionInfo t); [|done]. destruct (GetPartitionInfo tbl); [|done].
  intros [= <-].
  rewrite (foldl_keeps scalars); [|done].
  by rewrite updatePartition_new_scalars.
Qed.

Lemma renameTables_create_scalars (ids : list Z) (ts : N) (infos : list RawTableInfo)
    (i : nat) (s s' : schemaSnapshot) :
  renameTables_create ids ts i infos s = Ok s' → scalars s' = scalars s.
Proof.
  revert i s. induction infos as [|info infos IH]; intros i s; simpl.
  - by intros [= <-].
  - destruct (ids !! i); [|done]. destruct (SchemaByID s _); [|done].
    intros H. apply bind_Ok_inv in H as (s1 & H1 & H2).
    apply createTable_scalars in H1. apply IH in H2. congruence.
Qed.

Lemma renameTables_scalars (job : Job) (s s' : schemaSnapshot) :
  renameTables job s = Ok s' → scalars s' = scalars s.
Proof.
  unfold renameTables. destruct (Args job); [|done]. destruct (BinlogInfo job); [|done].
  destruct (_ <? _)%nat; [done|].
  intros H. apply bind_Ok_inv in H as (s1 & H1 & H2).
  apply (forEach_keeps scalars) in H1; [|apply dropTable_scalars].
  apply renameTables_create_scalars in H2. congruence.
Qed.

Lemma withWrapTableInfo_scalars (job : Job) k (s s' : schemaSnapshot) :
  (∀ table s s', k table s = Ok s' → scalars s' = scalars s) →
  withWrapTableInfo job k s = Ok s' → scalars s' = scalars s.
Proof. unfold withWrapTableInfo. destruct (getWrapTableInfo job); [eauto|done]. Qed.

Lemma withDBInfo_scalars (job : Job) k (s s' : schemaSnapshot) :
  (∀ db s s', k db s = Ok s' → scalars s' = scalars s) →
  withDBInfo job k s = Ok s' → scalars s' = scalars s.
Proof.
  unfold withDBInfo. destruct (BinlogInfo job) as [bi|]; [|done].
  destruct (HistoryInfo_DBInfo bi); [eauto|done].
Qed.

Lemma setCurrentTs_Ok (job : Job) (s s' : schemaSnapshot) :
  setCurrentTs job s = Ok s' →
  ∃ bi, BinlogInfo job = Some bi ∧ s' = set_currentTs (FinishedTS bi) s.
Proof. unfold setCurrentTs. destruct (BinlogInfo job); [|done]. intros [= <-]. eauto. Qed.

Lemma FillSchemaName_Ok (s : schemaSnapshot) (job job' : Job) :
  FillSchemaName s job = Ok job' →
  ∃ name, job' = withSchemaName job name.
Proof.
  unfold FillSchemaName. intros H.
  destruct (Type_ job);
    repeat match type of H with
           | context [match ?x with _ => _ end] => destruct x; try done
           end;
    inversion H; subst; eauto.
  exists (SchemaName job'). by destruct job'.
Qed.

(** A successful application keeps [forceReplicate], and either stamps the
    snapshot with the finished timestamp of the job or, for a job of another
    kind without table, returns it as it was. *)
Lemma handleDDL_Ok (job : Job) (s s' : schemaSnapshot) :
  handleDDL job s = Ok s' →
  forceReplicate s' = forceReplicate s ∧
  (s' = s ∨ ∃ bi, BinlogInfo job = Some bi ∧ currentTs s' = FinishedTS bi).
Proof.
  unfold handleDDL. destruct (FillSchemaName s job) as [job'| |] eqn:Hfill; [|done|done].
  apply FillSchemaName_Ok in Hfill as [name ->].
  set (job' := withSchemaName job name).
  assert (BinlogInfo job' = BinlogInfo job) as Hbi by done.
  assert (∀ m, m >>> setCurrentTs job' = Ok s' →
               (∀ s1, m = Ok s1 → scalars s1 = scalars s) →
               forceReplicate s' = forceReplicate s ∧
               (s' = s ∨ ∃ bi, BinlogInfo job = Some bi ∧ currentTs s' = FinishedTS bi))
    as Hfinish.
  { intros m H Hm. apply bind_Ok_inv in H as (s1 & H1 & H2).
    apply setCurrentTs_Ok in H2 as (bi & Hb & ->). specialize (Hm s1 H1).
    injection Hm as _ Hf. split; [done|]. right. exists bi. by rewrite <- Hbi. }
  unfold applyDDL. destruct (Type_ job'); intros H;
    try (apply Hfinish in H; [exact H|clear H; intros s1 H1]).
  - eapply withDBInfo_scalars; [apply createSchema_scalars|done].
  - by eapply dropSchema_scalars.
  - eapply withWrapTableInfo_scalars; [apply createTable_scalars|done].
  - by eapply dropTable_scalars.
  - apply bind_Ok_inv in H1 as (s2 & H2 & [= <-]).
    apply bind_Ok_inv in H2 as (s3 & H3 & H4).
    apply dropTable_scalars in H3.
    apply (withWrapTableInfo_scalars _ _ _ _ createTable_scalars) in H4.
    unfold scalars in *; simpl. congruence.
  - eapply withDBInfo_scalars; [apply replaceSchema_scalars|done].
  - apply bind_Ok_inv in H1 as (s3 & H3 & H4).
    apply dropTable_scalars in H3.
    apply (withWrapTableInfo_scalars _ _ _ _ createTable_scalars) in H4. congruence.
  - by eapply renameTables_scalars.
  - eapply withWrapTableInfo_scalars; [apply createTable_scalars|done].
  - by eapply dropTable_scalars.
  - eapply withWrapTableInfo_scalars; [apply createTable_scalars|done].
  - eapply withWrapTableInfo_scalars; [apply updatePartition_scalars|done].
  - eapply withWrapTableInfo_scalars; [apply updatePartition_scalars|done].
  - eapply withWrapTableInfo_scalars; [apply updatePartition_scalars|done].
  - destruct (BinlogInfo job') as [bi|] eqn:Hb; [|injection H as <-; by split; [|left]].
    destruct (HistoryInfo_TableInfo bi); [|injection H as <-; by split; [|left]].
    apply Hfinish in H; [done|]. intros s1 H1.
    eapply withWrapTableInfo_scalars; [apply replaceTable_scalars|done].
Qed.

(** ** The storage under its operations *)

Lemma AdvanceResolvedTs_snaps (ts : N) (st : schemaStorageImpl) :
  snaps (AdvanceResolvedTs ts st) = snaps st ∧ gcTs (AdvanceResolvedTs ts st) = gcTs st.
Proof. unfold AdvanceResolvedTs. by destruct (ts <? resolvedTs st)%N. Qed.

(** [HandleDDLJob] returns an error only with the storage it was given. *)
Lemma HandleDDLJob_Err (job : Job) (err : cerror) (st st' : schemaStorageImpl) :
  HandleDDLJob job st = Err err st' → st' = st.
Proof.
  unfold HandleDDLJob. destruct (BinlogInfo job) as [bi|]; [|done].
  destruct (skipJob st job); [done|].
  destruct (last (snaps st)) as [lastSnap|].
  - destruct (_ <=? _)%N; [done|]. destruct (handleDDL _ _); [done| |done]. by intros [= _ <-].
  - destruct (handleDDL _ _); [done| |done]. by intros [= _ <-].
Qed.

(** [HandleDDLJob] appends at most one snapshot, which is not older than the
    latest one, and touches nothing else of the list. *)
Lemma HandleDDLJob_Ok (job : Job) (st st' : schemaStorageImpl) :
  HandleDDLJob job st = Ok st' →
  gcTs st' = gcTs st ∧
  (snaps st' = snaps st ∨
   ∃ snap, snaps st' = snaps st ++ [snap] ∧
           ∀ lastSnap, last (snaps st) = Some lastSnap →
                       (currentTs lastSnap ≤ currentTs snap)%N).
Proof.
  unfold HandleDDLJob. destruct (BinlogInfo job) as [bi|] eqn:Hbi; [|done].
  destruct (skipJob st job).
  { intros [= <-]. destruct (AdvanceResolvedTs_snaps (FinishedTS bi) st). auto. }
  destruct (last (snaps st)) as [lastSnap|] eqn:Hlast.
  - destruct (_ <=? _)%N eqn:Hle; [intros [= <-]; auto|]. apply N.leb_gt in Hle.
    rewrite Clone_eq.
    destruct (handleDDL job lastSnap) as [snap| |] eqn:Hddl; [|done|done].
    intros [= <-].
    destruct (AdvanceResolvedTs_snaps (FinishedTS bi) (set_snaps (snaps st ++ [snap]) st))
      as [-> ->].
    split; [done|]. right. exists snap. split; [done|].
    intros ? [= <-].
    apply handleDDL_Ok in Hddl as [_ [->|(bi' & Hbi' & ->)]]; [done|].
    rewrite Hbi in Hbi'. injection Hbi' as <-. lia.
  - destruct (handleDDL job _) as [snap| |] eqn:Hddl; [|done|done].
    intros [= <-].
    destruct (AdvanceResolvedTs_snaps (FinishedTS bi) (set_snaps (snaps st ++ [snap]) st))
      as [-> ->].
    split; [done|]. right. exists snap. split; [done|]. done.
Qed.

(** [DoGC] on a non-empty list returns, and what it keeps is a non-empty
    suffix of the list that starts at the scanned index. *)
Lemma DoGC_suffix (ts : N) (st : schemaStorageImpl) :
  snaps st ≠ [] →
  ∃ st' lastSchemaTs,
    DoGC ts st = inr (st', lastSchemaTs) ∧
    snaps st' = drop (gcScan ts (snaps st) 0 0) (snaps st) ∧
    snaps st' ≠ [] ∧
    head (currentTs <$> snaps st') = Some lastSchemaTs.
Proof.
  intros Hne. unfold DoGC.
  destruct (gcScan_split ts (snaps st) 0 0) as (pre & post & Hsplit & _ & _ & ->).
  destruct (length pre) as [|[|k]] eqn:Hlen.
  - destruct (snaps st) as [|snap rest] eqn:Hs; [done|].
    exists st, (currentTs snap). by rewrite Hs.
  - destruct (snaps st) as [|snap rest] eqn:Hs; [done|].
    exists st, (currentTs snap). by rewrite Hs.
  - simpl.
    destruct (drop (S k) (snaps st)) as [|snap rest] eqn:Hdrop.
    + apply drop_nil_inv in Hdrop. rewrite Hsplit, length_app in Hdrop. lia.
    + by eexists _, _.
Qed.

Lemma History_drop (n : nat) (l : list schemaSnapshot) : History l → History (drop n l).
Proof.
  intros Hl. rewrite <- (take_drop n l) in Hl. by apply History_app_inv_r in Hl.
Qed.

(** The snapshots of a reachable storage are a non-empty history. *)
Lemma reachable_History (st : schemaStorageImpl) :
  reachable st → snaps st ≠ [] ∧ History (snaps st).
Proof.
  induction 1 as [meta startTs filter force id st Hnew
                 |job st st' _ [Hne Hl] Hddl
                 |job err st st' _ IH Hddl
                 |ts st _ IH
                 |ts st st' r _ [Hne Hl] Hgc].
  - unfold NewSchemaStorage in Hnew.
    destruct (match meta with Some _ => _ | None => _ end) as [|snap]; [done|].
    injection Hnew as <-. simpl. split; [done|]. repeat constructor.
  - apply HandleDDLJob_Ok in Hddl as [_ [->|(snap & -> & Hlast)]]; [done|].
    split; [by destruct (snaps st)|].
    destruct (last (snaps st)) as [lastSnap|] eqn:Hlast'.
    + eapply History_snoc; eauto.
    + apply last_None in Hlast'. done.
  - apply HandleDDLJob_Err in Hddl as ->. done.
  - by destruct (AdvanceResolvedTs_snaps ts st) as [-> _].
  - destruct (DoGC_suffix ts st Hne) as (st2 & r2 & Hgc' & Hs & Hne' & _).
    rewrite Hgc in Hgc'. injection Hgc' as <- <-.
    split; [done|]. rewrite Hs. by apply History_drop.
Qed.

(** C10. The snapshot list is never empty. Construction installs exactly one
    snapshot; [HandleDDLJob] appends one snapshot or leaves the list as it is;
    [DoGC] keeps the non-empty suffix that starts at its start index. Hence, on
    every storage reachable through these operations, [GetLastSnapshot] and
    [DoGC] index inside the list: they return and do not panic. *)
Theorem snaps_never_empty :
  (∀ meta startTs filter forceReplicate id st,
     NewSchemaStorage meta startTs filter forceReplicate id = inr st →
     length (snaps st) = 1%nat) ∧
  (∀ job st st',
     HandleDDLJob job st = Ok st' →
     snaps st' = snaps st ∨ ∃ snap, snaps st' = snaps st ++ [snap]) ∧
  (∀ job err st st', HandleDDLJob job st = Err err st' → snaps st' = snaps st) ∧
  (∀ ts st,
     snaps st ≠ [] →
     ∃ st' lastSchemaTs,
       DoGC ts st = inr (st', lastSchemaTs) ∧
       snaps st' = drop (gcScan ts (snaps st) 0 0) (snaps st) ∧
       (gcScan ts (snaps st) 0 0 < length (snaps st))%nat) ∧
  (∀ st,
     reachable st →
     snaps st ≠ [] ∧
     (∃ snap, GetLastSnapshot st = inr snap ∧ last (snaps st) = Some snap) ∧
     (∀ ts, ∃ st' lastSchemaTs, DoGC ts st = inr (st', lastSchemaTs) ∧ snaps st' ≠ [])).
Proof.
  split; [|split; [|split; [|split]]].
  - intros meta startTs filter force id st H. unfold NewSchemaStorage in H.
    destruct (match meta with Some _ => _ | None => _ end) as [|snap]; [done|].
    by injection H as <-.
  - intros job st st' H. apply HandleDDLJob_Ok in H as [_ [H|(snap & H & _)]]; eauto.
  - intros job err st st' H. by apply HandleDDLJob_Err in H as ->.
  - intros ts st Hne.
    destruct (DoGC_suffix ts st Hne) as (st' & r & Hgc & Hs & Hne' & _).
    exists st', r. split; [done|]. split; [done|].
    destruct (decide (gcScan ts (snaps st) 0 0 < length (snaps st))%nat); [done|].
    rewrite drop_ge in Hs by lia. done.
  - intros st H. pose proof (reachable_History st H) as [Hne _].
    split; [done|]. split.
    + unfold GetLastSnapshot.
      destruct (last (snaps st)) as [snap|] eqn:Hlast; [eauto|].
      by apply last_None in Hlast.
    + intros ts.
      destruct (DoGC_suffix ts st Hne) as (st' & r & Hgc & _ & Hne' & _). eauto.
Qed.

(** ** The loops over partitions *)

Lemma foldl_insert_lookup {V : Type} (v : V) (ids : list Z) (m : gmap Z V) (k : Z) :
  foldl (λ m id, <[id := v]> m) m ids !! k =
    if decide (k ∈ ids) then Some v else m !! k.
Proof.
  revert m. induction ids as [|id ids IH]; intros m; cbn [foldl].
  - case_decide; [set_solver|done].
  - rewrite IH. destruct (decide (k = id)) as [->|Hne].
    + rewrite lookup_insert_eq. repeat case_decide; set_solver.
    + rewrite lookup_insert_ne by done. repeat case_decide; set_solver.
Qed.

Lemma foldl_delete_lookup {V : Type} (ids : list Z) (m : gmap Z V) (k : Z) :
  foldl (λ m id, delete id m) m ids !! k =
    if decide (k ∈ ids) then None else m !! k.
Proof.
  revert m. induction ids as [|id ids IH]; intros m; cbn [foldl].
  - case_decide; [set_solver|done].
  - rewrite IH. destruct (decide (k = id)) as [->|Hne].
    + rewrite lookup_delete_eq. repeat case_decide; set_solver.
    + rewrite lookup_delete_ne by done. repeat case_decide; set_solver.
Qed.

(** The loop of [createTable] and [replaceTable]. *)
Lemma addPartition_forceReplicate (table : TableInfo) (s : schemaSnapshot)
    (p : PartitionDefinition) :
  forceReplicate (addPartition table s p) = forceReplicate s.
Proof. unfold addPartition. simpl. by destruct (IsEligible _ _). Qed.

Lemma addPartition_partitionTable (table : TableInfo) (defs : list PartitionDefinition)
    (s : schemaSnapshot) :
  partitionTable (foldl (addPartition table) s defs) =
    foldl (λ m id, <[id := table]> m) (partitionTable s) (PartitionDefinition_ID <$> defs).
Proof.
  revert s. induction defs as [|p defs IH]; intros s; simpl; [done|].
  rewrite IH. unfold addPartition. simpl. by destruct (IsEligible _ _).
Qed.

Lemma addPartition_ineligibleTableID (table : TableInfo) (defs : list PartitionDefinition)
    (s : schemaSnapshot) :
  ineligibleTableID (foldl (addPartition table) s defs) =
    if IsEligible table (forceReplicate s) then ineligibleTableID s
    else list_to_set (PartitionDefinition_ID <$> defs) ∪ ineligibleTableID s.
Proof.
  revert s. induction defs as [|p defs IH]; intros s; simpl.
  - destruct (IsEligible _ _); [done|]. set_solver.
  - rewrite IH, addPartition_forceReplicate. unfold addPartition. simpl.
    destruct (IsEligible _ _); simpl; [done|]. set_solver.
Qed.

Lemma addPartition_others (table : TableInfo) (defs : list PartitionDefinition)
    (s : schemaSnapshot) :
  let s' := foldl (addPartition table) s defs in
  tables s' = tables s ∧ schemas s' = schemas s ∧ tableNameToID s' = tableNameToID s ∧
  schemaNameToID s' = schemaNameToID s ∧ tableInSchema s' = tableInSchema s ∧
  truncateTableID s' = truncateTableID s.
Proof.
  simpl. repeat split.
  all: match goal with
       | |- ?g (foldl _ _ _) = _ => apply (foldl_keeps g)
       end.
  all: intros a x; unfold addPartition; simpl; by destruct (IsEligible _ _).
Qed.

(** The loop of [dropTable]. *)
Lemma dropTable_partition_partitionTable (defs : list PartitionDefinition)
    (s : schemaSnapshot) :
  partitionTable (foldl dropTable_partition s defs) =
    foldl (λ m id, delete id m) (partitionTable s) (PartitionDefinition_ID <$> defs).
Proof.
  revert s. induction defs as [|p defs IH]; intros s; simpl; [done|]. by rewrite IH.
Qed.

Lemma dropTable_partition_ineligibleTableID (defs : list PartitionDefinition)
    (s : schemaSnapshot) :
  ineligibleTableID (foldl dropTable_partition s defs) =
    ineligibleTableID s ∖ list_to_set (PartitionDefinition_ID <$> defs).
Proof.
  revert s. induction defs as [|p defs IH]; intros s; simpl; [set_solver|].
  rewrite IH. simpl. set_solver.
Qed.

Lemma dropTable_partition_others (defs : list PartitionDefinition) (s : schemaSnapshot) :
  let s' := foldl dropTable_partition s defs in
  tables s' = tables s ∧ schemas s' = schemas s ∧ tableNameToID s' = tableNameToID s ∧
  schemaNameToID s' = schemaNameToID s ∧ tableInSchema s' = tableInSchema s ∧
  truncateTableID s' = truncateTableID s.
Proof.
  simpl. repeat split.
  all: match goal with
       | |- ?g (foldl _ _ _) = _ => by apply (foldl_keeps g)
       end.
Qed.

(** The two loops of [updatePartition]. *)
Lemma updatePartition_new_oldIDs (tbl : TableInfo) (defs : list PartitionDefinition)
    (acc : schemaSnapshot * gset Z) :
  (foldl (updatePartition_new tbl) acc defs).2 =
    acc.2 ∖ list_to_set (PartitionDefinition_ID <$> defs).
Proof.
  revert acc. induction defs as [|p defs IH]; intros acc; simpl; [set_solver|].
  rewrite IH. simpl. set_solver.
Qed.

Lemma updatePartition_new_partitionTable (tbl : TableInfo) (defs : list PartitionDefinition)
    (acc : schemaSnapshot * gset Z) :
  partitionTable (foldl (updatePartition_new tbl) acc defs).1 =
    foldl (λ m id, <[id := tbl]> m) (partitionTable acc.1) (PartitionDefinition_ID <$> defs).
Proof.
  revert acc. induction defs as [|p defs IH]; intros acc; simpl; [done|].
  rewrite IH. unfold updatePartition_new. simpl. by destruct (IsEligible _ _).
Qed.

Lemma updatePartition_new_ineligibleTableID (tbl : TableInfo)
    (defs : list PartitionDefinition) (acc : schemaSnapshot * gset Z) :
  ineligibleTableID (foldl (updatePartition_new tbl) acc defs).1 =
    if IsEligible tbl (forceReplicate acc.1) then ineligibleTableID acc.1
    else list_to_set (PartitionDefinition_ID <$> defs) ∪ ineligibleTableID acc.1.
Proof.
  revert acc. induction defs as [|p defs IH]; intros acc; simpl.
  - destruct (IsEligible _ _); [done|]. set_solver.
  - rewrite IH. unfold updatePartition_new. simpl.
    destruct (IsEligible tbl (forceReplicate acc.1)) eqn:He; simpl; rewrite He; [done|].
    simpl. set_solver.
Qed.

Lemma updatePartition_new_others (tbl : TableInfo) (defs : list PartitionDefinition)
    (acc : schemaSnapshot * gset Z) :
  let s' := (foldl (updatePartition_new tbl) acc defs).1 in
  tables s' = tables acc.1 ∧ truncateTableID s' = truncateTableID acc.1.
Proof.
  simpl. split.
  - apply (foldl_keeps (λ acc, tables acc.1)).
    intros a x. unfold updatePartition_new. simpl. by destruct (IsEligible _ _).
  - apply (foldl_keeps (λ acc, truncateTableID acc.1)).
    intros a x. unfold updatePartition_new. simpl. by destruct (IsEligible _ _).
Qed.

Lemma updatePartition_old_truncateTableID (pids : list Z) (s : schemaSnapshot) :
  truncateTableID (foldl updatePartition_old s pids) = list_to_set pids ∪ truncateTableID s.
Proof.
  revert s. induction pids as [|pid pids IH]; intros s; simpl; [set_solver|].
  rewrite IH. simpl. set_solver.
Qed.

Lemma updatePartition_old_partitionTable (pids : list Z) (s : schemaSnapshot) :
  partitionTable (foldl updatePartition_old s pids) =
    foldl (λ m id, delete id m) (partitionTable s) pids.
Proof.
  revert s. induction pids as [|pid pids IH]; intros s; simpl; [done|]. by rewrite IH.
Qed.

Lemma updatePartition_old_ineligibleTableID (pids : list Z) (s : schemaSnapshot) :
  ineligibleTableID (foldl updatePartition_old s pids) = ineligibleTableID s ∖ list_to_set pids.
Proof.
  revert s. induction pids as [|pid pids IH]; intros s; simpl; [set_solver|].
  rewrite IH. simpl. set_solver.
Qed.

Lemma updatePartition_old_tables (pids : list Z) (s : schemaSnapshot) :
  tables (foldl updatePartition_old s pids) = tables s.
Proof. by apply (foldl_keeps tables). Qed.

(** ** Replacing a table *)

Lemma replaceTable_None (table : TableInfo) (s : schemaSnapshot) :
  tables s !! ID table = None → replaceTable table s = Err ErrSnapshotTableNotFound s.
Proof. unfold replaceTable. by intros ->. Qed.

(** What a successful [replaceTable] does to the indices. *)
Lemma replaceTable_Ok (table : TableInfo) (s : schemaSnapshot) :
  is_Some (tables s !! ID table) →
  ∃ s',
    replaceTable table s = Ok s' ∧
    tables s' = <[ID table := table]> (tables s) ∧
    partitionTable s' =
      foldl (λ m id, <[id := table]> m) (partitionTable s) (partitionsOf table) ∧
    ineligibleTableID s' =
      (if IsEligible table (forceReplicate s) then ineligibleTableID s
       else list_to_set (partitionsOf table) ∪ {[ID table]} ∪ ineligibleTableID s) ∧
    truncateTableID s' = truncateTableID s ∧
    schemas s' = schemas s ∧
    tableNameToID s' = tableNameToID s ∧
    tableInSchema s' = tableInSchema s.
Proof.
  intros [old Hold]. unfold replaceTable, partitionsOf, partitionIDs. rewrite Hold.
  eexists. split; [reflexivity|].
  destruct (GetPartitionInfo table) as [pi|].
  - rewrite addPartition_partitionTable, addPartition_ineligibleTableID.
    destruct (addPartition_others table (Definitions pi)
                (if IsEligible table (forceReplicate (set_tables <[ID table:=table]> s))
                 then set_tables <[ID table:=table]> s
                 else set_ineligibleTableID (λ m, {[ID table]} ∪ m)
                        (set_tables <[ID table:=table]> s)))
      as (-> & -> & -> & _ & -> & ->).
    simpl. destruct (IsEligible table (forceReplicate s)) eqn:He; simpl; rewrite ?He;
      repeat split; try done. set_solver.
  - simpl. destruct (IsEligible table (forceReplicate s)) eqn:He; simpl;
      repeat split; try done. set_solver.
Qed.

(** The jobs of the other kinds that carry a table run [replaceTable] on the
    wrapped table and stamp the snapshot. *)
Lemma handleDDL_other (job : Job) (code : nat) (bi : HistoryInfo) (info : RawTableInfo)
    (db : DBInfo) (s : schemaSnapshot) :
  Type_ job = ActionOther code → BinlogInfo job = Some bi →
  HistoryInfo_TableInfo bi = Some info → schemas s !! Job_SchemaID job = Some db →
  handleDDL job s =
    replaceTable (WrapTableInfo (Job_SchemaID job) (O (DBInfo_Name db)) (FinishedTS bi) info) s
      >>> λ s, Ok (set_currentTs (FinishedTS bi) s).
Proof.
  intros Hty Hbi Hinfo Hdb.
  unfold handleDDL, FillSchemaName, SchemaByID. rewrite Hty, Hdb.
  unfold applyDDL, withWrapTableInfo, getWrapTableInfo, setCurrentTs. simpl.
  rewrite Hty, Hbi, Hinfo. done.
Qed.

(** C9. A replace never takes an id out of [ineligibleTableID]: it inserts the
    table id and the partition ids when the incoming table is ineligible, and
    leaves the set as it is when the incoming table is eligible. So for a job
    of another kind on an existing table whose id is in [ineligibleTableID]
    and whose incoming table is eligible, the application succeeds, the table
    is replaced, and [IsIneligibleTableID] still answers true for the id (and
    answers for every id what it answered before). *)
Theorem replaceTable_keeps_ineligible :
  (∀ (table : TableInfo) (s : schemaSnapshot),
     is_Some (tables s !! ID table) →
     ∃ s',
       replaceTable table s = Ok s' ∧
       ineligibleTableID s ⊆ ineligibleTableID s' ∧
       (IsEligible table (forceReplicate s) = true →
        ineligibleTableID s' = ineligibleTableID s) ∧
       (IsEligible table (forceReplicate s) = false →
        ineligibleTableID s' =
          list_to_set (partitionsOf table) ∪ {[ID table]} ∪ ineligibleTableID s)) ∧
  (∀ (job : Job) (code : nat) (bi : HistoryInfo) (info : RawTableInfo) (db : DBInfo)
     (s : schemaSnapshot),
     Type_ job = ActionOther code → BinlogInfo job = Some bi →
     HistoryInfo_TableInfo bi = Some info → schemas s !! Job_SchemaID job = Some db →
     is_Some (tables s !! RawTableInfo_ID info) →
     RawTableInfo_ID info ∈ ineligibleTableID s →
     Eligibility info (forceReplicate s) = true →
     ∃ s',
       handleDDL job s = Ok s' ∧
       (∃ table, tables s' !! RawTableInfo_ID info = Some table ∧ Raw table = info) ∧
       IsIneligibleTableID s' (RawTableInfo_ID info) = true ∧
       (∀ id, IsIneligibleTableID s' id = IsIneligibleTableID s id)).
Proof.
  split.
  - intros table s Hex.
    destruct (replaceTable_Ok table s Hex) as (s' & Hrep & _ & _ & Hin & _).
    exists s'. split; [done|]. rewrite Hin.
    destruct (IsEligible table (forceReplicate s)); repeat split; try done; set_solver.
  - intros job code bi info db s Hty Hbi Hinfo Hdb Hex Hin Hel.
    rewrite (handleDDL_other job code bi info db s Hty Hbi Hinfo Hdb).
    set (table := WrapTableInfo _ _ _ info).
    destruct (replaceTable_Ok table s Hex) as (s' & -> & Htab & _ & Hin' & _).
    change (IsEligible table (forceReplicate s)) with (Eligibility info (forceReplicate s))
      in Hin'.
    rewrite Hel in Hin'.
    eexists. split; [reflexivity|]. unfold IsIneligibleTableID. simpl. rewrite Hin', Htab.
    split; [|split; [by apply bool_decide_eq_true|done]].
    exists table. split; [apply lookup_insert_eq|done].
Qed.

(** ** Partition reconciliation *)

Lemma updatePartition_no_table (tbl : TableInfo) (s : schemaSnapshot) :
  tables s !! ID tbl = None → updatePartition tbl s = Err ErrSnapshotTableNotFound s.
Proof. unfold updatePartition. by intros ->. Qed.

Lemma updatePartition_old_not_partitioned (tbl table : TableInfo) (s : schemaSnapshot) :
  tables s !! ID tbl = Some table → GetPartitionInfo table = None →
  updatePartition tbl s = Err ErrSnapshotTableNotFound s.
Proof. unfold updatePartition. by intros -> ->. Qed.

Lemma updatePartition_new_not_partitioned (tbl : TableInfo) (s : schemaSnapshot) :
  GetPartitionInfo tbl = None → updatePartition tbl s = Err ErrSnapshotTableNotFound s.
Proof.
  unfold updatePartition. intros ->.
  destruct (tables s !! ID tbl) as [table|]; [|done]. by destruct (GetPartitionInfo table).
Qed.

(** What a successful [updatePartition] does to the indices. *)
Lemma updatePartition_Ok (tbl table : TableInfo) (oldPi newPi : PartitionInfo)
    (s : schemaSnapshot) :
  tables s !! ID tbl = Some table →
  GetPartitionInfo table = Some oldPi →
  GetPartitionInfo tbl = Some newPi →
  ∃ s',
    updatePartition tbl s = Ok s' ∧
    tables s' = <[ID tbl := tbl]> (tables s) ∧
    (∀ pid, partitionTable s' !! pid =
              if decide (pid ∈ partitionIDs newPi) then Some tbl
              else if decide (pid ∈ partitionIDs oldPi) then None
                   else partitionTable s !! pid) ∧
    ineligibleTableID s' =
      (if IsEligible tbl (forceReplicate s) then ineligibleTableID s
       else list_to_set (partitionIDs newPi) ∪ ineligibleTableID s)
        ∖ (list_to_set (partitionIDs oldPi) ∖ list_to_set (partitionIDs newPi)) ∧
    truncateTableID s' =
      (list_to_set (partitionIDs oldPi) ∖ list_to_set (partitionIDs newPi))
        ∪ truncateTableID s.
Proof.
  intros Htable Hold Hnew. unfold updatePartition. rewrite Htable, Hold, Hnew.
  eexists. split; [reflexivity|].
  set (acc := foldl (updatePartition_new tbl) _ (Definitions newPi)).
  assert (list_to_set (elements acc.2) =
          (list_to_set (partitionIDs oldPi) ∖ list_to_set (partitionIDs newPi) : gset Z))
    as Hleft.
  { rewrite list_to_set_elements_L. unfold acc.
    by rewrite updatePartition_new_oldIDs. }
  split; [|split; [|split]].
  - rewrite updatePartition_old_tables. unfold acc.
    by destruct (updatePartition_new_others tbl (Definitions newPi)
                   (set_tables <[ID tbl:=tbl]> s, list_to_set (partitionIDs oldPi)))
      as [-> _].
  - intros pid. rewrite updatePartition_old_partitionTable, foldl_delete_lookup.
    unfold acc. rewrite updatePartition_new_partitionTable, foldl_insert_lookup. simpl.
    fold (partitionIDs newPi).
    assert (pid ∈ elements acc.2 ↔ pid ∈ partitionIDs oldPi ∧ pid ∉ partitionIDs newPi)
      as Hin.
    { rewrite <- (elem_of_list_to_set (C := gset Z)), Hleft. set_solver. }
    fold acc. repeat case_decide; try done; tauto.
  - rewrite updatePartition_old_ineligibleTableID, Hleft. unfold acc.
    rewrite updatePartition_new_ineligibleTableID. done.
  - rewrite updatePartition_old_truncateTableID, Hleft. unfold acc.
    by destruct (updatePartition_new_others tbl (Definitions newPi)
                   (set_tables <[ID tbl:=tbl]> s, list_to_set (partitionIDs oldPi)))
      as [_ ->].
Qed.

(** A job of one of the three partition kinds that carries a table, on a
    snapshot that knows its schema, is [updatePartition] on the wrapped table
    and then the stamp. *)
Lemma handleDDL_partition_job (job : Job) (db : DBInfo) (bi : HistoryInfo)
    (info : RawTableInfo) (s : schemaSnapshot) :
  Type_ job = ActionAddTablePartition ∨ Type_ job = ActionDropTablePartition ∨
  Type_ job = ActionTruncateTablePartition →
  schemas s !! Job_SchemaID job = Some db →
  BinlogInfo job = Some bi → HistoryInfo_TableInfo bi = Some info →
  handleDDL job s =
    updatePartition
      (WrapTableInfo (Job_SchemaID job) (O (DBInfo_Name db)) (FinishedTS bi) info) s
      >>> λ s, Ok (set_currentTs (FinishedTS bi) s).
Proof.
  intros Hty Hdb Hbi Hinfo.
  unfold handleDDL, FillSchemaName, SchemaByID.
  destruct Hty as [Hty|[Hty|Hty]]; rewrite Hty, Hdb.
  all: unfold applyDDL, withWrapTableInfo, getWrapTableInfo, setCurrentTs; simpl.
  all: by rewrite Hty, Hbi, Hinfo.
Qed.

(** C7. A job of kind AddTablePartition, DropTablePartition or
    TruncateTablePartition, on a snapshot that knows the schema of the job and
    holds a partitioned table under the id of the table that the job carries,
    the carried table being partitioned too, is applied without error: the
    table record is replaced by the incoming one; every id of the incoming
    partitioning is indexed to the incoming table, and is in
    [ineligibleTableID] if and only if the incoming table is ineligible or the
    id was in the set before; every id of the old partitioning that the new one
    lacks is in [truncateTableID], out of the partition index and out of
    [ineligibleTableID]; and the snapshot is stamped with the finished
    timestamp. The job fails with the table not found when the table does not
    exist or one of the two tables is not partitioned. Dropping partition 30 of
    table 100 with partitions 10, 20 and 30 leaves 10 and 20 indexed to 100, 30
    absent and truncated. *)
Theorem partition_job_reconciles :
  (∀ (job : Job) (db : DBInfo) (bi : HistoryInfo) (info : RawTableInfo)
     (table : TableInfo) (oldPi newPi : PartitionInfo) (s : schemaSnapshot),
     Type_ job = ActionAddTablePartition ∨ Type_ job = ActionDropTablePartition ∨
     Type_ job = ActionTruncateTablePartition →
     schemas s !! Job_SchemaID job = Some db →
     BinlogInfo job = Some bi → HistoryInfo_TableInfo bi = Some info →
     let tbl := WrapTableInfo (Job_SchemaID job) (O (DBInfo_Name db)) (FinishedTS bi) info in
     tables s !! ID tbl = Some table →
     GetPartitionInfo table = Some oldPi →
     GetPartitionInfo tbl = Some newPi →
     ∃ s',
       handleDDL job s = Ok s' ∧
       tables s' = <[ID tbl := tbl]> (tables s) ∧
       (∀ pid, pid ∈ partitionIDs newPi →
               partitionTable s' !! pid = Some tbl ∧
               (pid ∈ ineligibleTableID s' ↔
                IsEligible tbl (forceReplicate s) = false ∨ pid ∈ ineligibleTableID s)) ∧
       (∀ pid, pid ∈ partitionIDs oldPi → pid ∉ partitionIDs newPi →
               pid ∈ truncateTableID s' ∧
               partitionTable s' !! pid = None ∧
               pid ∉ ineligibleTableID s') ∧
       currentTs s' = FinishedTS bi) ∧
  (∀ (job : Job) (db : DBInfo) (bi : HistoryInfo) (info : RawTableInfo) (s : schemaSnapshot),
     Type_ job = ActionAddTablePartition ∨ Type_ job = ActionDropTablePartition ∨
     Type_ job = ActionTruncateTablePartition →
     schemas s !! Job_SchemaID job = Some db →
     BinlogInfo job = Some bi → HistoryInfo_TableInfo bi = Some info →
     let tbl := WrapTableInfo (Job_SchemaID job) (O (DBInfo_Name db)) (FinishedTS bi) info in
     tables s !! ID tbl = None ∨
     (∃ table, tables s !! ID tbl = Some table ∧ GetPartitionInfo table = None) ∨
     GetPartitionInfo tbl = None →
     handleDDL job s = Err ErrSnapshotTableNotFound s) ∧
  (Scenario.snapshotAfter
     [Scenario.createSchemaJob Scenario.db1 1;
      Scenario.createTableJob (Scenario.partitioned 100 "t" [10; 20; 30] true) 2]
     = Ok (Scenario.onePartitioned [10; 20; 30] true) ∧
   Scenario.partitionOwner (Scenario.onePartitioned [10; 20; 30] true) 30 = Some 100 ∧
   handleDDL Scenario.dropPartitionJob (Scenario.onePartitioned [10; 20; 30] true)
     = Ok Scenario.partitionDropped ∧
   Scenario.partitionOwner Scenario.partitionDropped 10 = Some 100 ∧
   Scenario.partitionOwner Scenario.partitionDropped 20 = Some 100 ∧
   Scenario.partitionOwner Scenario.partitionDropped 30 = None ∧
   IsTruncateTableID Scenario.partitionDropped 30 = true ∧
   currentTs Scenario.partitionDropped = 9%N).
Proof.
  split; [|split].
  - intros job db bi info table oldPi newPi s Hty Hdb Hbi Hinfo tbl Htable Hold Hnew.
    destruct (updatePartition_Ok tbl table oldPi newPi s Htable Hold Hnew)
      as (s1 & Hup & Htab & Hpart & Hin & Htr).
    exists (set_currentTs (FinishedTS bi) s1). split.
    { rewrite (handleDDL_partition_job job db bi info s Hty Hdb Hbi Hinfo).
      fold tbl. by rewrite Hup. }
    split; [done|]. split; [|split; [|done]].
    + intros pid Hpid. split.
      * simpl. rewrite Hpart. by rewrite decide_True.
      * simpl. rewrite Hin. destruct (IsEligible tbl (forceReplicate s)); set_solver.
    + intros pid Ho Hn. simpl. split; [|split].
      * rewrite Htr. set_solver.
      * rewrite Hpart. rewrite decide_False by done. by rewrite decide_True.
      * rewrite Hin. set_solver.
  - intros job db bi info s Hty Hdb Hbi Hinfo tbl Hcase.
    rewrite (handleDDL_partition_job job db bi info s Hty Hdb Hbi Hinfo). fold tbl.
    assert (updatePartition tbl s = Err ErrSnapshotTableNotFound s) as ->; [|done].
    destruct Hcase as [H|[(table & H1 & H2)|H]].
    + by apply updatePartition_no_table.
    + by eapply updatePartition_old_not_partitioned.
    + by apply updatePartition_new_not_partitioned.
  - conjuncts; evaluate.
Qed.

(** ** Dropping and creating tables *)

(** [dropTable] fails before it writes anything. *)
Lemma dropTable_Err (id : Z) (err : cerror) (s s' : schemaSnapshot) :
  dropTable id s = Err err s' → s' = s.
Proof.
  unfold dropTable. destruct (tables s !! id) as [t|]; [|by intros [= _ <-]].
  destruct (tableInSchema s !! SchemaID t); [done|by intros [= _ <-]].
Qed.

(** What a successful [dropTable] does to the indices. *)
Lemma dropTable_Ok (id : Z) (s s' : schemaSnapshot) :
  dropTable id s = Ok s' →
  ∃ table,
    tables s !! id = Some table ∧
    tables s' = delete id (tables s) ∧
    partitionTable s' = foldl (λ m pid, delete pid m) (partitionTable s) (partitionsOf table) ∧
    ineligibleTableID s' =
      ineligibleTableID s ∖ list_to_set (partitionsOf table) ∖ {[id]} ∧
    tableNameToID s' = delete (TableInfo_TableName table) (tableNameToID s) ∧
    truncateTableID s' = truncateTableID s ∧
    schemas s' = schemas s ∧
    schemaNameToID s' = schemaNameToID s.
Proof.
  unfold dropTable, partitionsOf, partitionIDs.
  destruct (tables s !! id) as [table|]; [|done].
  destruct (tableInSchema s !! SchemaID table) as [l|]; [|done].
  intros [= <-]. exists table. split; [done|]. simpl.
  destruct (GetPartitionInfo table) as [pi|].
  - rewrite dropTable_partition_partitionTable, dropTable_partition_ineligibleTableID.
    match goal with
    | |- context [foldl dropTable_partition ?s0 ?defs] =>
        destruct (dropTable_partition_others defs s0) as (-> & -> & -> & -> & _ & ->)
    end.
    simpl. by destruct (removeFirst id l).
  - simpl. destruct (removeFirst id l); repeat split; try done; set_solver.
Qed.

Lemma createTable_Err (table : TableInfo) (err : cerror) (s s' : schemaSnapshot) :
  createTable table s = Err err s' → s' = s.
Proof.
  unfold createTable. destruct (schemas s !! _); [|by intros [= _ <-]].
  destruct (tableInSchema s !! _); [|by intros [= _ <-]].
  destruct (tables s !! _); [by intros [= _ <-]|done].
Qed.

(** What a successful [createTable] does to the indices. *)
Lemma createTable_Ok (table : TableInfo) (s s' : schemaSnapshot) :
  createTable table s = Ok s' →
  tables s !! ID table = None ∧
  is_Some (schemas s !! SchemaID table) ∧
  tables s' = <[ID table := table]> (tables s) ∧
  partitionTable s' =
    foldl (λ m pid, <[pid := table]> m) (partitionTable s) (partitionsOf table) ∧
  ineligibleTableID s' =
    (if IsEligible table (forceReplicate s) then ineligibleTableID s
     else list_to_set (partitionsOf table) ∪ {[ID table]} ∪ ineligibleTableID s) ∧
  tableNameToID s' = <[TableInfo_TableName table := ID table]> (tableNameToID s) ∧
  truncateTableID s' = truncateTableID s ∧
  schemas s' = schemas s ∧
  schemaNameToID s' = schemaNameToID s.
Proof.
  unfold createTable, partitionsOf, partitionIDs.
  destruct (schemas s !! SchemaID table) as [db|]; [|done].
  destruct (tableInSchema s !! SchemaID table) as [l|]; [|done].
  destruct (tables s !! ID table) eqn:Hfree; [done|].
  intros [= <-]. split; [done|]. split; [by eexists|]. simpl.
  destruct (GetPartitionInfo table) as [pi|].
  - rewrite addPartition_partitionTable, addPartition_ineligibleTableID.
    match goal with
    | |- context [foldl (addPartition table) ?s0 ?defs] =>
        destruct (addPartition_others table defs s0) as (-> & -> & -> & -> & _ & ->)
    end.
    destruct (IsEligible table (forceReplicate s)) eqn:He; simpl; rewrite ?He;
      repeat split; try done. set_solver.
  - destruct (IsEligible table (forceReplicate s)) eqn:He; simpl;
      repeat split; try done. set_solver.
Qed.

(** The drop phase of a rename: on success every id of the list was a table
    when its turn came, and the tables are the old ones without these ids. *)
Lemma dropTables_Ok (ids : list Z) (s s' : schemaSnapshot) :
  forEach dropTable ids s = Ok s' →
  tables s' = foldl (λ m id, delete id m) (tables s) ids ∧
  schemas s' = schemas s ∧
  NoDup ids ∧
  (∀ id, id ∈ ids → is_Some (tables s !! id) ∧ tables s' !! id = None).
Proof.
  revert s. induction ids as [|id ids IH]; intros s; simpl.
  - intros [= <-]. split; [done|]. split; [done|]. split; [constructor|set_solver].
  - intros H. apply bind_Ok_inv in H as (s1 & H1 & H2).
    apply dropTable_Ok in H1 as (t & Ht & Htab & _ & _ & _ & _ & Hsch & _).
    apply IH in H2 as (Htab' & Hsch' & Hnd & Hall).
    rewrite Htab', Htab, Hsch', Hsch. split; [done|]. split; [done|].
    assert (id ∉ ids) as Hfresh.
    { intros Hin. destruct (Hall id Hin) as [[x Hx] _].
      rewrite Htab, lookup_delete_eq in Hx. done. }
    split; [by constructor|].
    intros k Hk. rewrite foldl_delete_lookup.
    apply elem_of_cons in Hk as [->|Hk].
    + split; [by eexists|]. rewrite decide_False by done. apply lookup_delete_eq.
    + destruct (Hall k Hk) as [[x Hx] _]. rewrite Htab in Hx.
      rewrite decide_True by done. split; [|done].
      destruct (decide (k = id)) as [->|Hne]; [by rewrite lookup_delete_eq in Hx|].
      rewrite lookup_delete_ne in Hx by done. by eexists.
Qed.

(** The creation phase of a rename: on success every new table is in the
    tables, wrapped with the schema that [newSchemaIDs] gives at its index and
    with the lower-case name of that schema, and the tables that were there
    are still there. *)
Lemma renameTables_create_Ok (ids : list Z) (ts : N) (infos : list RawTableInfo) (i : nat)
    (s s' : schemaSnapshot) :
  renameTables_create ids ts i infos s = Ok s' →
  schemas s' = schemas s ∧
  (∀ id t, tables s !! id = Some t → tables s' !! id = Some t) ∧
  (∀ k info, infos !! k = Some info →
     tables s !! RawTableInfo_ID info = None ∧
     ∃ sid db,
       ids !! (i + k)%nat = Some sid ∧ schemas s !! sid = Some db ∧
       tables s' !! RawTableInfo_ID info =
         Some (WrapTableInfo sid (L (DBInfo_Name db)) ts info)).
Proof.
  revert i s. induction infos as [|info infos IH]; intros i s; simpl.
  - intros [= <-]. split; [done|]. split; [done|]. intros k info' Hk. done.
  - destruct (ids !! i) as [sid|] eqn:Hsid; [|done].
    unfold SchemaByID. destruct (schemas s !! sid) as [db|] eqn:Hdb; [|done].
    intros H. apply bind_Ok_inv in H as (s1 & H1 & H2).
    apply createTable_Ok in H1 as (Hfree & _ & Htab & _ & _ & _ & _ & Hsch & _).
    apply IH in H2 as (Hsch' & Hmono & Hnew).
    change (ID (WrapTableInfo sid (L (DBInfo_Name db)) ts info))
      with (RawTableInfo_ID info) in *.
    split; [congruence|]. split.
    + intros id t Ht. apply Hmono. rewrite Htab.
      destruct (decide (id = RawTableInfo_ID info)) as [->|Hne]; [congruence|].
      by rewrite lookup_insert_ne.
    + intros [|k] info' Hk; simpl in Hk.
      * injection Hk as <-. split; [done|]. exists sid, db.
        rewrite Nat.add_0_r. split; [done|]. split; [done|].
        apply Hmono. rewrite Htab. apply lookup_insert_eq.
      * destruct (Hnew k info' Hk) as (Hfree' & sid' & db' & Hsid' & Hdb' & Hlook).
        split.
        { rewrite Htab in Hfree'.
          destruct (decide (RawTableInfo_ID info' = RawTableInfo_ID info)) as [Heq|Hne].
          - rewrite Heq, lookup_insert_eq in Hfree'. done.
          - by rewrite lookup_insert_ne in Hfree'. }
        exists sid', db'. replace (i + S k)%nat with (S i + k)%nat by lia.
        split; [done|]. split; [congruence|done].
Qed.

(** ** Renaming several tables *)

Lemma handleDDL_renameTables (job : Job) (s : schemaSnapshot) :
  Type_ job = ActionRenameTables →
  handleDDL job s = renameTables job s >>> setCurrentTs job.
Proof.
  intros Hty. unfold handleDDL, FillSchemaName. rewrite Hty.
  unfold applyDDL. by rewrite Hty.
Qed.

(** The two phases of [renameTables]. A job whose arguments decode fails with
    [ErrInvalidDDLJob], on an untouched snapshot, when it carries fewer table
    infos than new names. Otherwise the tables of [oldTableIDs] are dropped in
    input order: the first id that is not a table ends the job with the table
    not found, after the drops before it and before any creation. Only when
    every drop succeeded are the tables of [MultipleTableInfos] created in
    order, the i-th under [newSchemaIDs[i]]; on success every old id was
    dropped before the first creation and every new table is in the tables. On
    schema db1, whose two spellings agree, the swap of scenario 4 succeeds, and
    afterwards a is table 200 and b is table 100. *)
Lemma renameTables_two_phases :
  (∀ (job : Job) (args : RenameTablesArgs) (bi : HistoryInfo) (s : schemaSnapshot),
     Args job = Some args → BinlogInfo job = Some bi →
     ((length (MultipleTableInfos bi) < length (newTableNames args))%nat →
      renameTables job s = Err ErrInvalidDDLJob s ∧
      (Type_ job = ActionRenameTables → handleDDL job s = Err ErrInvalidDDLJob s)) ∧
     ((length (newTableNames args) ≤ length (MultipleTableInfos bi))%nat →
      (∀ pre id post s0,
         oldTableIDs args = pre ++ id :: post →
         forEach dropTable pre s = Ok s0 → tables s0 !! id = None →
         renameTables job s = Err ErrSnapshotTableNotFound s0) ∧
      (∀ s',
         renameTables job s = Ok s' →
         ∃ mid,
           forEach dropTable (oldTableIDs args) s = Ok mid ∧
           tables mid = foldl (λ m id, delete id m) (tables s) (oldTableIDs args) ∧
           (∀ id, id ∈ oldTableIDs args →
                  is_Some (tables s !! id) ∧ tables mid !! id = None) ∧
           renameTables_create (newSchemaIDs args) (FinishedTS bi) 0
             (MultipleTableInfos bi) mid = Ok s' ∧
           (∀ id t, tables mid !! id = Some t → tables s' !! id = Some t) ∧
           (∀ i info,
              MultipleTableInfos bi !! i = Some info →
              tables mid !! RawTableInfo_ID info = None ∧
              ∃ sid db,
                newSchemaIDs args !! i = Some sid ∧ schemas s !! sid = Some db ∧
                tables s' !! RawTableInfo_ID info =
                  Some (WrapTableInfo sid (L (DBInfo_Name db)) (FinishedTS bi) info))))) ∧
  (Scenario.snapshotAfter
     [Scenario.createSchemaJob Scenario.db1 1;
      Scenario.createTableJob (Scenario.table 100 "a" true) 2;
      Scenario.createTableJob (Scenario.table 200 "b" true) 3] = Ok Scenario.twoTables ∧
   GetTableIDByName Scenario.twoTables "db1" "a" = Some 100 ∧
   GetTableIDByName Scenario.twoTables "db1" "b" = Some 200 ∧
   handleDDL Scenario.swapJob Scenario.twoTables = Ok Scenario.swapped ∧
   GetTableIDByName Scenario.swapped "db1" "a" = Some 200 ∧
   GetTableIDByName Scenario.swapped "db1" "b" = Some 100 ∧
   currentTs Scenario.swapped = 11%N).
Proof.
  split.
  - intros job args bi s Hargs Hbi. split.
    + intros Hlen. apply Nat.ltb_lt in Hlen.
      assert (renameTables job s = Err ErrInvalidDDLJob s) as Hren.
      { unfold renameTables. by rewrite Hargs, Hbi, Hlen. }
      split; [done|]. intros Hty. by rewrite (handleDDL_renameTables job s Hty), Hren.
    + intros Hlen. apply Nat.ltb_ge in Hlen. split.
      * intros pre id post s0 Hold Hpre Hmiss.
        unfold renameTables. rewrite Hargs, Hbi, Hlen, Hold, forEach_app, Hpre. simpl.
        unfold dropTable at 1. by rewrite Hmiss.
      * intros s'. unfold renameTables. rewrite Hargs, Hbi, Hlen.
        intros H. apply bind_Ok_inv in H as (mid & Hdrop & Hcreate).
        exists mid. split; [done|].
        destruct (dropTables_Ok _ _ _ Hdrop) as (Htab & Hsch & _ & Hall).
        destruct (renameTables_create_Ok _ _ _ _ _ _ Hcreate) as (_ & Hmono & Hnew).
        split; [done|]. split; [done|]. split; [done|]. split; [done|].
        intros i info Hi. destruct (Hnew i info Hi) as (Hfree & sid & db & H1 & H2 & H3).
        split; [done|]. exists sid, db. rewrite <- Hsch. done.
  - conjuncts; evaluate.
Qed.

(** ** Handling a job *)

(** C8. A job that is not skipped and whose finished timestamp is at or before
    the [currentTs] of the latest snapshot is accepted without effect:
    [HandleDDLJob] returns no error and the storage it leaves is the storage it
    found, so no snapshot is appended and the history has the length it had. *)
Theorem HandleDDLJob_replay_is_noop (job : Job) (st : schemaStorageImpl) (bi : HistoryInfo)
    (lastSnap : schemaSnapshot) :
  BinlogInfo job = Some bi →
  skipJob st job = false →
  last (snaps st) = Some lastSnap →
  (FinishedTS bi ≤ currentTs lastSnap)%N →
  HandleDDLJob job st = Ok st.
Proof.
  intros Hbi Hskip Hlast Hle. unfold HandleDDLJob. rewrite Hbi, Hskip, Hlast.
  apply N.leb_le in Hle. by rewrite Hle.
Qed.

(** C5. When [HandleDDLJob] applies a job that is not skipped to the clone of
    the latest snapshot, which it does when the finished timestamp of the job
    is after the [currentTs] of that snapshot, and the application fails, the
    call returns that error and the storage is the one it was given: history,
    [resolvedTs] and [gcTs] are as before the call. *)
Theorem HandleDDLJob_failure_is_atomic (job : Job) (st : schemaStorageImpl) (bi : HistoryInfo)
    (lastSnap : schemaSnapshot) (err : cerror) (s' : schemaSnapshot) :
  BinlogInfo job = Some bi →
  skipJob st job = false →
  last (snaps st) = Some lastSnap →
  (currentTs lastSnap < FinishedTS bi)%N →
  handleDDL job (Clone lastSnap) = Err err s' →
  HandleDDLJob job st = Err err st ∧
  (∀ e st', HandleDDLJob job st = Err e st' →
            e = err ∧ snaps st' = snaps st ∧ resolvedTs st' = resolvedTs st ∧
            gcTs st' = gcTs st).
Proof.
  intros Hbi Hskip Hlast Hlt Hfail.
  assert (HandleDDLJob job st = Err err st) as Hret.
  { unfold HandleDDLJob. rewrite Hbi, Hskip, Hlast.
    apply N.leb_gt in Hlt. by rewrite Hlt, Hfail. }
  split; [exact Hret|].
  intros e st' H. rewrite Hret in H. by injection H as <- <-.
Qed.


(** ** The scenarios are reachable *)

Lemma reachable_startAt (startTs : N) : reachable (Scenario.startAt startTs).
Proof.
  apply (reachable_new (Some Scenario.emptyMeta) startTs None false "changefeed").
  reflexivity.
Qed.

Lemma reachable_forEach (jobs : list Job) (st st' : schemaStorageImpl) :
  reachable st → forEach HandleDDLJob jobs st = Ok st' → reachable st'.
Proof.
  revert st. induction jobs as [|job jobs IH]; intros st Hst; simpl.
  - by intros [= <-].
  - intros H. apply bind_Ok_inv in H as (st1 & H1 & H2).
    eapply IH; [|exact H2]. by eapply reachable_ddl.
Qed.

Lemma st1579_History : History (snaps Scenario.st1579).
Proof. apply (bool_decide_unpack _). evaluate. Qed.

Lemma st579_History : History (snaps Scenario.st579).
Proof. apply (bool_decide_unpack _). evaluate. Qed.

Lemma st1579_reachable : reachable Scenario.st1579.
Proof.
  apply (reachable_forEach Scenario.jobs_5_7_9 (Scenario.startAt 1));
    [apply reachable_startAt|evaluate].
Qed.

(** ** Dropping a schema *)

(** C2, at the failing input. A changefeed creates schema db1 and, in it, the
    ineligible table 100 with partitions 10 and 20; its latest snapshot
    satisfies invariant 5. It then handles the drop of db1: the job is applied
    and appended, the tables and the partition index of the new latest snapshot
    are empty, and its [ineligibleTableID] still holds 100, 10 and 20. The
    snapshot is reachable and violates invariant 5. Dropping the table with
    [dropTable] instead clears the three ids. *)
Theorem dropSchema_leaves_ineligible_ids :
  reachable Scenario.beforeDropSchema ∧
  length (snaps Scenario.beforeDropSchema) = 3%nat ∧
  ineligibleKnown (Scenario.latest Scenario.beforeDropSchema) ∧
  ineligibleTableID (Scenario.latest Scenario.beforeDropSchema) = {[100; 10; 20]} ∧
  HandleDDLJob (Scenario.dropSchemaJob Scenario.db1 3) Scenario.beforeDropSchema
    = Ok Scenario.afterDropSchema ∧
  reachable Scenario.afterDropSchema ∧
  length (snaps Scenario.afterDropSchema) = 4%nat ∧
  currentTs (Scenario.latest Scenario.afterDropSchema) = 3%N ∧
  tables (Scenario.latest Scenario.afterDropSchema) = ∅ ∧
  partitionTable (Scenario.latest Scenario.afterDropSchema) = ∅ ∧
  IsIneligibleTableID (Scenario.latest Scenario.afterDropSchema) 100 = true ∧
  IsIneligibleTableID (Scenario.latest Scenario.afterDropSchema) 10 = true ∧
  IsIneligibleTableID (Scenario.latest Scenario.afterDropSchema) 20 = true ∧
  ¬ ineligibleKnown (Scenario.latest Scenario.afterDropSchema) ∧
  ineligibleTableID
    (Scenario.snapshotOf (dropTable 100 (Scenario.latest Scenario.beforeDropSchema))) = ∅.
Proof.
  assert (reachable Scenario.beforeDropSchema) as Hbefore.
  { apply (reachable_forEach Scenario.ineligibleJobs (Scenario.startAt 0));
      [apply reachable_startAt|evaluate]. }
  assert (HandleDDLJob (Scenario.dropSchemaJob Scenario.db1 3) Scenario.beforeDropSchema
          = Ok Scenario.afterDropSchema) as Hdrop by evaluate.
  assert (tables (Scenario.latest Scenario.afterDropSchema) = ∅) as Htab by evaluate.
  assert (partitionTable (Scenario.latest Scenario.afterDropSchema) = ∅) as Hpart
    by evaluate.
  assert (IsIneligibleTableID (Scenario.latest Scenario.afterDropSchema) 100 = true)
    as Hin by evaluate.
  split; [exact Hbefore|]. split; [evaluate|]. split.
  { unfold ineligibleKnown. apply (bool_decide_unpack _). evaluate. }
  split; [evaluate|]. split; [exact Hdrop|].
  split; [exact (reachable_ddl _ _ _ Hbefore Hdrop)|].
  split; [evaluate|]. split; [evaluate|]. split; [exact Htab|]. split; [exact Hpart|].
  split; [exact Hin|]. split; [evaluate|]. split; [evaluate|]. split; [|evaluate].
  intros Hknown. specialize (Hknown 100).
  apply bool_decide_eq_true in Hin.
  destruct (Hknown Hin) as [[x Hx]|[x Hx]].
  - rewrite Htab, lookup_empty in Hx. discriminate.
  - rewrite Hpart, lookup_empty in Hx. discriminate.
Qed.

(** C6. [renameTables] wraps every new table with the lower-case spelling of
    the name of its schema, where every other path ([FillSchemaName] for the
    kinds on one table, [newSchemaSnapshotFromMeta], the schema name index)
    uses the original spelling. On the reachable storage with schema Db1 and
    its tables a (100) and b (200), the swap of scenario 4 is applied without
    error and both tables carry their new names, but neither a nor b is found
    under the name of their schema any more: the name index holds them under
    db1, and [SchemaByTableID] finds no schema for them. The rename of table
    100 alone, by a RenameTable job on the same storage, keeps the table under
    Db1. *)
Theorem renameTables_lower_case_schema_name :
  reachable Scenario.mixedBefore ∧
  SchemaByID (Scenario.latest Scenario.mixedBefore) 1 = Some Scenario.mixedCase ∧
  GetTableIDByName (Scenario.latest Scenario.mixedBefore) "Db1" "a" = Some 100 ∧
  GetTableIDByName (Scenario.latest Scenario.mixedBefore) "Db1" "b" = Some 200 ∧
  SchemaByTableID (Scenario.latest Scenario.mixedBefore) 100 = Some Scenario.mixedCase ∧
  HandleDDLJob Scenario.swapJob Scenario.mixedBefore = Ok Scenario.mixedAfter ∧
  reachable Scenario.mixedAfter ∧
  length (snaps Scenario.mixedAfter) = 5%nat ∧
  currentTs (Scenario.latest Scenario.mixedAfter) = 11%N ∧
  (O ∘ Name <$> TableByID (Scenario.latest Scenario.mixedAfter) 100) = Some "b" ∧
  (O ∘ Name <$> TableByID (Scenario.latest Scenario.mixedAfter) 200) = Some "a" ∧
  (SchemaID <$> TableByID (Scenario.latest Scenario.mixedAfter) 100) = Some 1 ∧
  (SchemaID <$> TableByID (Scenario.latest Scenario.mixedAfter) 200) = Some 1 ∧
  GetTableIDByName (Scenario.latest Scenario.mixedAfter) "Db1" "a" = None ∧
  GetTableIDByName (Scenario.latest Scenario.mixedAfter) "Db1" "b" = None ∧
  GetTableIDByName (Scenario.latest Scenario.mixedAfter) "db1" "a" = Some 200 ∧
  GetTableIDByName (Scenario.latest Scenario.mixedAfter) "db1" "b" = Some 100 ∧
  SchemaByTableID (Scenario.latest Scenario.mixedAfter) 100 = None ∧
  SchemaByTableID (Scenario.latest Scenario.mixedAfter) 200 = None ∧
  HandleDDLJob Scenario.renameOneJob Scenario.mixedBefore = Ok Scenario.mixedRenamedOne ∧
  GetTableIDByName (Scenario.latest Scenario.mixedRenamedOne) "Db1" "b2" = Some 100 ∧
  SchemaByTableID (Scenario.latest Scenario.mixedRenamedOne) 100 = Some Scenario.mixedCase.
Proof.
  assert (reachable Scenario.mixedBefore) as Hbefore.
  { apply (reachable_forEach Scenario.mixedJobs (Scenario.startAt 0));
      [apply reachable_startAt|evaluate]. }
  assert (HandleDDLJob Scenario.swapJob Scenario.mixedBefore = Ok Scenario.mixedAfter)
    as Hswap by evaluate.
  split; [exact Hbefore|]. split; [evaluate|]. split; [evaluate|]. split; [evaluate|].
  split; [evaluate|]. split; [exact Hswap|].
  split; [exact (reachable_ddl _ _ _ Hbefore Hswap)|].
  conjuncts; evaluate.
Qed.

(** ** The claims at concrete inputs *)

(** On a changefeed that starts at 5, [DoGC 6] removes nothing and returns 5,
    and [gcTs] stays 0: a lookup at 4 then fails with the snapshot not found. *)
Lemma DoGC_early_return_leaves_gcTs :
  NewSchemaStorage (Some Scenario.emptyMeta) 5 None false "changefeed"
    = inr (Scenario.startAt 5) ∧
  DoGC 6 (Scenario.startAt 5) = inr (Scenario.startAt 5, 5%N) ∧
  gcTs (Scenario.startAt 5) = 0%N ∧
  getSnapshot (Scenario.startAt 5) 4 = inl ErrSchemaSnapshotNotFound.
Proof. conjuncts; evaluate. Qed.

(** Table 100 with partitions 10 and 20 is ineligible; a partition is added
    with an incoming table that is eligible. Partition 10 is indexed to the
    eligible incoming table and is still in [ineligibleTableID]. *)
Lemma updatePartition_keeps_stale_ineligible :
  let tbl := WrapTableInfo 1 "db1" 9 (Scenario.partitioned 100 "t" [10; 20; 30] true) in
  IsIneligibleTableID (Scenario.onePartitioned [10; 20] false) 10 = true ∧
  handleDDL Scenario.addPartitionJob (Scenario.onePartitioned [10; 20] false)
    = Ok Scenario.partitionAdded ∧
  ID <$> tables Scenario.partitionAdded !! 100 = Some (ID tbl) ∧
  partitionsOf <$> tables Scenario.partitionAdded !! 100 = Some [10; 20; 30] ∧
  (λ t, IsEligible t (forceReplicate Scenario.partitionAdded))
    <$> tables Scenario.partitionAdded !! 100 = Some true ∧
  Scenario.partitionOwner Scenario.partitionAdded 10 = Some 100 ∧
  IsIneligibleTableID Scenario.partitionAdded 10 = true ∧
  IsIneligibleTableID Scenario.partitionAdded 30 = false.
Proof. intros tbl. conjuncts; evaluate. Qed.

(** ** The theorems at concrete inputs *)

(** C1 on the snapshots at 1, 5, 7 and 9: the lookup at 8 returns, and what it
    returns is the snapshot at 7. *)
Lemma getSnapshot_largest_at_or_before_witness :
  (∃ s, getSnapshot Scenario.st1579 8 = inr s) ∧
  getSnapshot Scenario.st1579 8 = inr (Scenario.nthSnap Scenario.st1579 2) ∧
  currentTs (Scenario.nthSnap Scenario.st1579 2) = 7%N ∧
  Scenario.nthSnap Scenario.st1579 2 ∈ snaps Scenario.st1579 ∧
  (∀ s', s' ∈ snaps Scenario.st1579 →
         ¬ (currentTs (Scenario.nthSnap Scenario.st1579 2) < currentTs s' ≤ 8)%N).
Proof.
  destruct (getSnapshot_largest_at_or_before Scenario.st1579 8 st1579_History)
    as [[_ Hreturns] Hlargest].
  assert (getSnapshot Scenario.st1579 8 = inr (Scenario.nthSnap Scenario.st1579 2))
    as Hget by evaluate.
  destruct (Hlargest _ Hget) as (Hin & _ & Hnone).
  split.
  { apply Hreturns. split; [split; evaluate|].
    exists (Scenario.nthSnap Scenario.st1579 0). split; evaluate. }
  split; [exact Hget|]. split; [evaluate|]. split; [exact Hin|exact Hnone].
Defined.

(** C4 on the storage with snapshots at 5, 7 and 9 after the collection,
    and on a changefeed that starts at 5. *)
Lemma getSnapshot_error_order_witness :
  getSnapshot Scenario.st579 4 = inl ErrSchemaStorageGCed ∧
  getSnapshot Scenario.st579 10 = inl ErrSchemaStorageUnresolved ∧
  getSnapshot (Scenario.startAt 5) 4 = inl ErrSchemaSnapshotNotFound ∧
  (∃ s, getSnapshot Scenario.st579 8 = inr s) ∧
  isRetryable (Some ErrSchemaStorageUnresolved) = true.
Proof.
  assert (head (snaps Scenario.st579) = Some (Scenario.nthSnap Scenario.st579 0))
    as Hhead by evaluate.
  assert (head (snaps (Scenario.startAt 5)) = Some (Scenario.nthSnap (Scenario.startAt 5) 0))
    as Hhead5 by evaluate.
  assert (History (snaps (Scenario.startAt 5))) as Hl5
    by (apply (bool_decide_unpack _); evaluate).
  destruct (getSnapshot_error_order Scenario.st579 4 _ st579_History Hhead)
    as (Hgc & _).
  destruct (getSnapshot_error_order Scenario.st579 10 _ st579_History Hhead)
    as (_ & Hunres & _).
  destruct (getSnapshot_error_order Scenario.st579 8 _ st579_History Hhead)
    as (_ & _ & _ & Hok & Hretry).
  destruct (getSnapshot_error_order (Scenario.startAt 5) 4 _ Hl5 Hhead5)
    as (_ & _ & Hnf & _).
  split; [apply Hgc; evaluate|].
  split; [apply Hunres; evaluate|].
  split; [apply Hnf; [split; evaluate|evaluate]|].
  split; [apply Hok; [split; evaluate|evaluate]|].
  apply Hretry. reflexivity.
Defined.

(** C3 on the snapshots at 1, 5, 7 and 9. *)
Lemma DoGC_retains_baseline_witness :
  ∃ st',
    DoGC 6 Scenario.st1579 = inr (st', 5%N) ∧
    st' = Scenario.st579 ∧
    gcTs st' = 5%N ∧
    resolvedTs st' = resolvedTs Scenario.st1579.
Proof.
  assert (snaps Scenario.st1579 = [] → False) as Hne by evaluate.
  assert (DoGC 6 Scenario.st1579 = inr (Scenario.st579, 5%N)) as Hrun by evaluate.
  destruct (proj1 DoGC_retains_baseline 6%N Scenario.st1579 Hne st1579_History)
    as (removed & oldest & kept & _ & _ & _ & _ & st' & Hgc & _ & Hres & _).
  exists st'. rewrite Hrun in Hgc. injection Hgc as <- Hts.
  split; [exact Hrun|]. split; [reflexivity|]. split; [evaluate|exact Hres].
Defined.

(** C5 on a changefeed that starts at 5: the drop of an unknown schema at 7. *)
Lemma HandleDDLJob_failure_is_atomic_witness :
  HandleDDLJob (Scenario.dropSchemaJob (Scenario.schema 99 "nowhere") 7) (Scenario.startAt 5)
    = Err ErrSnapshotSchemaNotFound (Scenario.startAt 5).
Proof.
  refine (proj1 (HandleDDLJob_failure_is_atomic
                   (Scenario.dropSchemaJob (Scenario.schema 99 "nowhere") 7)
                   (Scenario.startAt 5) _ (Scenario.latest (Scenario.startAt 5))
                   ErrSnapshotSchemaNotFound
                   (Clone (Scenario.latest (Scenario.startAt 5))) _ _ _ _ _)).
  - reflexivity.
  - evaluate.
  - evaluate.
  - evaluate.
  - evaluate.
Defined.

(** C8, scenario 5: the rename at 5 delivered again after it was handled. *)
Lemma HandleDDLJob_replay_is_noop_witness :
  length (snaps Scenario.afterRename) = 4%nat ∧
  GetTableIDByName (Scenario.latest Scenario.afterRename) "db1" "u" = Some 100 ∧
  HandleDDLJob Scenario.renameJob Scenario.afterRename = Ok Scenario.afterRename.
Proof.
  split; [evaluate|]. split; [evaluate|].
  refine (HandleDDLJob_replay_is_noop Scenario.renameJob Scenario.afterRename _
            (Scenario.latest Scenario.afterRename) _ _ _ _).
  - reflexivity.
  - evaluate.
  - evaluate.
  - evaluate.
Defined.

(** C7 on the drop of partition 30, and on the truncation of partition 30,
    which gets the id 31. *)
Lemma partition_job_reconciles_witness :
  (∃ s',
     handleDDL Scenario.dropPartitionJob (Scenario.onePartitioned [10; 20; 30] true) = Ok s' ∧
     30 ∈ truncateTableID s' ∧
     partitionTable s' !! 30 = None ∧
     is_Some (partitionTable s' !! 10) ∧
     currentTs s' = 9%N) ∧
  (∃ s',
     handleDDL Scenario.truncatePartitionJob (Scenario.onePartitioned [10; 20; 30] true)
       = Ok s' ∧
     30 ∈ truncateTableID s' ∧
     partitionTable s' !! 30 = None ∧
     is_Some (partitionTable s' !! 31)).
Proof.
  assert (tables (Scenario.onePartitioned [10; 20; 30] true) !! 100
          = Some (WrapTableInfo 1 "db1" 2 (Scenario.partitioned 100 "t" [10; 20; 30] true)))
    as Htable by evaluate.
  assert (schemas (Scenario.onePartitioned [10; 20; 30] true) !! 1 = Some Scenario.db1)
    as Hdb by evaluate.
  split.
  - destruct (proj1 partition_job_reconciles Scenario.dropPartitionJob Scenario.db1 _
                (Scenario.partitioned 100 "t" [10; 20] true) _ _ _
                (Scenario.onePartitioned [10; 20; 30] true)
                (or_intror (or_introl eq_refl)) Hdb eq_refl eq_refl Htable eq_refl eq_refl)
      as (s' & Hddl & _ & Hnew & Hgone & Hts).
    exists s'. split; [exact Hddl|].
    destruct (Hgone 30) as (Htr & Hpart & _); [member|member|].
    split; [exact Htr|]. split; [exact Hpart|].
    destruct (Hnew 10) as [Hlook _]; [member|]. split; [|exact Hts]. eexists. exact Hlook.
  - destruct (proj1 partition_job_reconciles Scenario.truncatePartitionJob Scenario.db1 _
                (Scenario.partitioned 100 "t" [10; 20; 31] true) _ _ _
                (Scenario.onePartitioned [10; 20; 30] true)
                (or_intror (or_intror eq_refl)) Hdb eq_refl eq_refl Htable eq_refl eq_refl)
      as (s' & Hddl & _ & Hnew & Hgone & _).
    exists s'. split; [exact Hddl|].
    destruct (Hgone 30) as (Htr & Hpart & _); [member|member|].
    split; [exact Htr|]. split; [exact Hpart|].
    destruct (Hnew 31) as [Hlook _]; [member|]. eexists. exact Hlook.
Defined.

(** C9 on table 100, created ineligible and altered into an eligible table. *)
Lemma replaceTable_keeps_ineligible_witness :
  IsIneligibleTableID (Scenario.oneTable false) 100 = true ∧
  ∃ s',
    handleDDL (Scenario.alterTableJob (Scenario.table 100 "t" true) 9)
      (Scenario.oneTable false) = Ok s' ∧
    (∃ table, tables s' !! 100 = Some table ∧ IsEligible table (forceReplicate s') = true) ∧
    IsIneligibleTableID s' 100 = true.
Proof.
  split; [evaluate|].
  destruct (proj2 replaceTable_keeps_ineligible
              (Scenario.alterTableJob (Scenario.table 100 "t" true) 9) 7%nat _
              (Scenario.table 100 "t" true) Scenario.db1 (Scenario.oneTable false)
              eq_refl eq_refl eq_refl)
    as (s' & Hddl & (table & Htable & Hraw) & Hstill & _).
  - evaluate.
  - apply (bool_decide_unpack _). evaluate.
  - apply (bool_decide_unpack _). evaluate.
  - reflexivity.
  - exists s'. split; [exact Hddl|]. split; [|exact Hstill].
    exists table. split; [exact Htable|]. unfold IsEligible. rewrite Hraw. reflexivity.
Defined.

(** C10 on the storage with snapshots at 1, 5, 7 and 9. *)
Lemma snaps_never_empty_witness :
  length (snaps Scenario.st1579) = 4%nat ∧
  (∃ snap, GetLastSnapshot Scenario.st1579 = inr snap ∧
           last (snaps Scenario.st1579) = Some snap) ∧
  (∃ st' lastSchemaTs,
     DoGC 100 Scenario.st1579 = inr (st', lastSchemaTs) ∧ snaps st' ≠ []).
Proof.
  destruct (proj2 (proj2 (proj2 (proj2 snaps_never_empty))) Scenario.st1579 st1579_reachable)
    as (_ & Hlast & Hgc).
  split; [evaluate|]. split; [exact Hlast|exact (Hgc 100%N)].
Defined.

(** * Further properties of the storage *)

(** ** The watermarks *)

Lemma newSchemaSnapshotFromMeta_currentTs (meta : Meta) (ts : N) (force : bool)
    (s : schemaSnapshot) :
  newSchemaSnapshotFromMeta meta ts force = inr s → currentTs s = ts.
Proof.
  unfold newSchemaSnapshotFromMeta. destruct (ListDatabases meta); [|done].
  destruct (forEach _ _ _); [|done|done]. by intros [= <-].
Qed.

Lemma AdvanceResolvedTs_max (ts : N) (st : schemaStorageImpl) :
  resolvedTs (AdvanceResolvedTs ts st) = N.max (resolvedTs st) ts.
Proof.
  unfold AdvanceResolvedTs. destruct (ts <? resolvedTs st)%N eqn:H; simpl.
  - apply N.ltb_lt in H. lia.
  - apply N.ltb_ge in H. lia.
Qed.

(** The three ways in which [HandleDDLJob] returns without error: the job is
    skipped, the job is foregone, or the job is applied to a base snapshot and
    the result appended. *)
Lemma HandleDDLJob_Ok_cases (job : Job) (st st' : schemaStorageImpl) :
  HandleDDLJob job st = Ok st' →
  ∃ bi,
    BinlogInfo job = Some bi ∧
    ((skipJob st job = true ∧ st' = AdvanceResolvedTs (FinishedTS bi) st) ∨
     (skipJob st job = false ∧ st' = st ∧
      ∃ lastSnap, last (snaps st) = Some lastSnap ∧
                  (FinishedTS bi ≤ currentTs lastSnap)%N) ∨
     (skipJob st job = false ∧
      ∃ base snap,
        (last (snaps st) = Some base ∧ (currentTs base < FinishedTS bi)%N ∨
         snaps st = [] ∧ base = newEmptySchemaSnapshot (storageForceReplicate st)) ∧
        handleDDL job base = Ok snap ∧
        st' = AdvanceResolvedTs (FinishedTS bi) (set_snaps (snaps st ++ [snap]) st))).
Proof.
  unfold HandleDDLJob. destruct (BinlogInfo job) as [bi|]; [|done].
  intros H. exists bi. split; [done|].
  destruct (skipJob st job).
  { left. by injection H as <-. }
  right. destruct (last (snaps st)) as [lastSnap|] eqn:Hlast.
  - destruct (_ <=? _)%N eqn:Hle.
    + left. injection H as <-. apply N.leb_le in Hle. eauto.
    + right. split; [done|]. apply N.leb_gt in Hle. rewrite Clone_eq in H.
      destruct (handleDDL job lastSnap) as [snap| |] eqn:Hddl; [|done|done].
      injection H as <-. exists lastSnap, snap. eauto.
  - right. split; [done|]. apply last_None in Hlast.
    destruct (handleDDL job _) as [snap| |] eqn:Hddl; [|done|done].
    injection H as <-. eexists _, snap. eauto.
Qed.

(** The watermarks of a reachable storage enclose its history: [gcTs] is at or
    before the oldest snapshot and the latest snapshot is at or before [resolvedTs]. *)
Lemma reachable_watermarks (st : schemaStorageImpl) :
  reachable st →
  ∃ oldest latest,
    head (snaps st) = Some oldest ∧ last (snaps st) = Some latest ∧
    (gcTs st ≤ currentTs oldest)%N ∧ (currentTs latest ≤ resolvedTs st)%N.
Proof.
  induction 1 as [meta startTs filter force id st Hnew
                 |job st st' Hst IH Hddl
                 |job err st st' _ IH Hddl
                 |ts st _ IH
                 |ts st st' r Hst IH Hgc].
  - unfold NewSchemaStorage in Hnew. destruct meta as [meta|].
    + destruct (newSchemaSnapshotFromMeta meta startTs force) as [|snap] eqn:Hmeta; [done|].
      apply newSchemaSnapshotFromMeta_currentTs in Hmeta.
      injection Hnew as <-. exists snap, snap. simpl.
      split; [done|]. split; [done|]. lia.
    + injection Hnew as <-. eexists _, _. simpl.
      split; [done|]. split; [done|]. simpl. lia.
  - destruct IH as (oldest & latest & Hhead & Hlast & Hgc & Hres).
    apply HandleDDLJob_Ok_cases in Hddl as (bi & Hbi & [[_ ->]|[(_ & -> & _)|(_ & Hap)]]).
    + exists oldest, latest.
      destruct (AdvanceResolvedTs_snaps (FinishedTS bi) st) as [-> ->].
      rewrite AdvanceResolvedTs_max. repeat split; try done. lia.
    + exists oldest, latest. done.
    + destruct Hap as (base & snap & Hbase & Hddl & ->).
      destruct Hbase as [[Hb Hlt]|[Hnil _]]; [|by rewrite Hnil in Hhead].
      exists oldest, snap.
      destruct (AdvanceResolvedTs_snaps (FinishedTS bi) (set_snaps (snaps st ++ [snap]) st))
        as [-> ->].
      rewrite AdvanceResolvedTs_max. simpl.
      split; [by destruct (snaps st)|]. split; [apply last_snoc|]. split; [done|].
      apply handleDDL_Ok in Hddl as [_ [->|(bi' & Hbi' & ->)]].
      * rewrite Hlast in Hb. injection Hb as ->. lia.
      * rewrite Hbi in Hbi'. injection Hbi' as <-. lia.
  - apply HandleDDLJob_Err in Hddl as ->. done.
  - destruct IH as (oldest & latest & Hhead & Hlast & Hgc & Hres).
    exists oldest, latest.
    destruct (AdvanceResolvedTs_snaps ts st) as [-> ->].
    rewrite AdvanceResolvedTs_max. repeat split; try done. lia.
  - destruct IH as (oldest & latest & Hhead & Hlast & Hgc' & Hres).
    destruct (reachable_History st Hst) as [Hne Hl].
    destruct (DoGC_history ts st Hne Hl)
      as (removed & old' & kept & Hs & _ & _ & _ & Hrun).
    rewrite Hgc in Hrun. injection Hrun as -> ->.
    destruct removed as [|x removed].
    + exists oldest, latest. done.
    + exists old', latest. simpl. split; [done|]. split; [|split; [lia|done]].
      rewrite Hs in Hlast. rewrite last_app in Hlast.
      destruct (last (old' :: kept)) eqn:Hk; [exact Hlast|].
      apply last_None in Hk. discriminate.
Qed.

(** X1. In every reachable storage the snapshot list is not empty and ascends
    in [currentTs], [gcTs] is at or before the [currentTs] of the oldest
    snapshot, and the [currentTs] of the latest snapshot is at or before
    [resolvedTs]. *)
Theorem reachable_storage_invariant (st : schemaStorageImpl) :
  reachable st →
  History (snaps st) ∧
  ∃ oldest latest,
    head (snaps st) = Some oldest ∧ last (snaps st) = Some latest ∧
    (gcTs st ≤ currentTs oldest)%N ∧
    (currentTs oldest ≤ currentTs latest)%N ∧
    (currentTs latest ≤ resolvedTs st)%N.
Proof.
  intros Hst. destruct (reachable_History st Hst) as [_ Hl]. split; [done|].
  destruct (reachable_watermarks st Hst) as (oldest & latest & Hhead & Hlast & Hgc & Hres).
  exists oldest, latest. repeat (split; [done|]). split; [|done].
  rewrite head_lookup in Hhead. rewrite last_lookup in Hlast.
  eapply (History_lookup_le (snaps st) 0 (pred (length (snaps st)))); eauto. lia.
Qed.

(** X2. No operation moves a watermark back. [AdvanceResolvedTs] sets
    [resolvedTs] to the larger of its old value and the given one;
    [HandleDDLJob] never lowers [resolvedTs] and never touches [gcTs]; on a
    reachable storage [DoGC] never lowers [gcTs], leaves it at or before the
    timestamp it returns, and never touches [resolvedTs]. *)
Theorem watermarks_never_move_back :
  (∀ ts st, resolvedTs (AdvanceResolvedTs ts st) = N.max (resolvedTs st) ts ∧
            gcTs (AdvanceResolvedTs ts st) = gcTs st) ∧
  (∀ job st st',
     HandleDDLJob job st = Ok st' →
     (resolvedTs st ≤ resolvedTs st')%N ∧ gcTs st' = gcTs st) ∧
  (∀ ts st st' lastSchemaTs,
     reachable st → DoGC ts st = inr (st', lastSchemaTs) →
     (gcTs st ≤ gcTs st')%N ∧ (gcTs st' ≤ lastSchemaTs)%N ∧
     resolvedTs st' = resolvedTs st).
Proof.
  split; [|split].
  - intros ts st. split; [apply AdvanceResolvedTs_max|].
    by destruct (AdvanceResolvedTs_snaps ts st).
  - intros job st st' H.
    apply HandleDDLJob_Ok_cases in H as (bi & _ & [[_ ->]|[(_ & -> & _)|(_ & Hap)]]).
    + rewrite AdvanceResolvedTs_max.
      destruct (AdvanceResolvedTs_snaps (FinishedTS bi) st) as [_ ->]. split; [lia|done].
    + split; [lia|done].
    + destruct Hap as (base & snap & _ & _ & ->). rewrite AdvanceResolvedTs_max.
      destruct (AdvanceResolvedTs_snaps (FinishedTS bi) (set_snaps (snaps st ++ [snap]) st))
        as [_ ->].
      simpl. split; [lia|done].
  - intros ts st st' r Hst Hgc.
    destruct (reachable_History st Hst) as [Hne Hl].
    destruct (reachable_watermarks st Hst) as (oldest & latest & Hhead & _ & Hw & _).
    destruct (DoGC_history ts st Hne Hl)
      as (removed & old' & kept & Hs & _ & _ & _ & Hrun).
    rewrite Hgc in Hrun. injection Hrun as -> ->.
    rewrite Hs in Hhead, Hl.
    destruct removed as [|x removed]; simpl in *.
    + injection Hhead as <-. repeat split; lia.
    + injection Hhead as <-. split; [|split; [lia|done]].
      pose proof (History_lookup_le (x :: removed ++ old' :: kept) 0 (S (length removed))
                    x old' Hl ltac:(lia) eq_refl) as Hle.
      etrans; [exact Hw|]. apply Hle. simpl.
      by rewrite lookup_app_r, Nat.sub_diag.
Qed.

(** Inside the window the lookup returns. *)
Lemma getSnapshot_in_window (st : schemaStorageImpl) (ts : N) (oldest : schemaSnapshot) :
  reachable st → head (snaps st) = Some oldest →
  (currentTs oldest ≤ ts ≤ resolvedTs st)%N →
  ∃ s, getSnapshot st ts = inr s.
Proof.
  intros Hst Hhead' [Hlo Hhi]. destruct (reachable_History st Hst) as [Hne Hl].
  destruct (reachable_watermarks st Hst) as (oldest' & latest & Hhead & _ & Hw & _).
  rewrite Hhead' in Hhead. injection Hhead as <-.
  pose proof Hhead' as H0. rewrite head_lookup in H0.
  destruct (getSnapshot_index (snaps st) ts Hl) as (Hb & _ & Hhigh).
  unfold getSnapshot.
  assert ((ts <? gcTs st)%N = false) as -> by (apply N.ltb_ge; lia).
  assert ((resolvedTs st <? ts)%N = false) as -> by (apply N.ltb_ge; lia).
  destruct (Search _ _) as [|i] eqn:Hi.
  - specialize (Hhigh 0%nat oldest ltac:(lia) H0). lia.
  - destruct (lookup_lt_is_Some_2 (snaps st) i ltac:(lia)) as [snap Hsnap].
    rewrite Hsnap. eauto.
Qed.

(** X3. On a reachable storage the one-shot lookup returns a snapshot exactly
    for the timestamps from the [currentTs] of the oldest snapshot up to
    [resolvedTs]. *)
Theorem getSnapshot_window (st : schemaStorageImpl) (ts : N) :
  reachable st →
  (∃ s, getSnapshot st ts = inr s) ↔
  (∃ oldest, head (snaps st) = Some oldest ∧ (currentTs oldest ≤ ts ≤ resolvedTs st)%N).
Proof.
  intros Hst. destruct (reachable_History st Hst) as [Hne Hl].
  destruct (reachable_watermarks st Hst) as (oldest & latest & Hhead & _ & Hw & _).
  pose proof Hhead as H0. rewrite head_lookup in H0.
  split.
  - intros [s Hget]. exists oldest. split; [done|].
    apply getSnapshot_inr in Hget as (i & Hi & Hts & Hle & _); [|done].
    pose proof (History_lookup_le (snaps st) 0 i oldest s Hl ltac:(lia) H0 Hi). lia.
  - intros (oldest' & Hhead' & Hwin). by eapply getSnapshot_in_window.
Qed.

(** X4. On a reachable storage every snapshot of the history is found again at
    its own [currentTs]: the lookup returns a snapshot of the history with that
    same [currentTs]. *)
Theorem getSnapshot_at_own_ts (st : schemaStorageImpl) (s : schemaSnapshot) :
  reachable st → s ∈ snaps st →
  ∃ s', getSnapshot st (currentTs s) = inr s' ∧ s' ∈ snaps st ∧ currentTs s' = currentTs s.
Proof.
  intros Hst Hs. destruct (reachable_History st Hst) as [Hne Hl].
  destruct (reachable_watermarks st Hst)
    as (oldest & latest & Hhead & Hlast & Hw & Hres).
  rewrite head_lookup in Hhead. rewrite last_lookup in Hlast.
  apply list_elem_of_lookup in Hs as [a Ha].
  pose proof (lookup_lt_Some _ _ _ Ha) as Hlt.
  pose proof (History_lookup_le (snaps st) 0 a oldest s Hl ltac:(lia) Hhead Ha) as Hlo.
  pose proof (History_lookup_le (snaps st) a (pred (length (snaps st))) s latest Hl
                ltac:(lia) Ha Hlast) as Hhi.
  destruct (getSnapshot_in_window st (currentTs s) oldest Hst) as [s' Hget].
  { by rewrite head_lookup. }
  { lia. }
  exists s'. split; [done|].
  apply getSnapshot_inr in Hget as (i & Hi & _ & Hle & Hafter); [|done].
  split; [by eapply list_elem_of_lookup_2|].
  destruct (decide (i < a)%nat) as [Hia|Hia].
  - specialize (Hafter a s Hia Ha). lia.
  - pose proof (History_lookup_le (snaps st) a i s s' Hl ltac:(lia) Ha Hi). lia.
Qed.

(** ** What the search returns *)


Lemma atOrBefore_app (ts : N) (l1 l2 : list schemaSnapshot) :
  atOrBefore ts (l1 ++ l2) = (atOrBefore ts l1 + atOrBefore ts l2)%nat.
Proof. unfold atOrBefore. by rewrite filter_app, length_app. Qed.

Lemma atOrBefore_all (ts : N) (l : list schemaSnapshot) :
  Forall (λ s, (currentTs s ≤ ts)%N) l → atOrBefore ts l = length l.
Proof.
  unfold atOrBefore. induction 1 as [|x l Hx _ IH]; [done|].
  rewrite filter_cons_True by done. simpl. by rewrite IH.
Qed.

Lemma atOrBefore_none (ts : N) (l : list schemaSnapshot) :
  Forall (λ s, (ts < currentTs s)%N) l → atOrBefore ts l = 0%nat.
Proof.
  unfold atOrBefore. induction 1 as [|x l Hx _ IH]; [done|].
  rewrite filter_cons_False by lia. done.
Qed.

Lemma atOrBefore_le (ts : N) (l : list schemaSnapshot) : (atOrBefore ts l ≤ length l)%nat.
Proof. apply length_filter. Qed.

(** In a history the snapshots at or before [ts] are the first [atOrBefore ts] ones. *)
Lemma atOrBefore_prefix (ts : N) (l : list schemaSnapshot) :
  History l →
  ∀ a s, l !! a = Some s → ((a < atOrBefore ts l)%nat ↔ (currentTs s ≤ ts)%N).
Proof.
  induction l as [|x l IH]; intros Hl a s Ha; [done|].
  pose proof (History_cons_inv x l Hl) as [Hl' Hx].
  destruct (decide (currentTs x ≤ ts)%N) as [Hle|Hgt].
  - change (x :: l) with ([x] ++ l). rewrite atOrBefore_app.
    rewrite (atOrBefore_all ts [x]) by (by constructor). simpl.
    destruct a as [|a]; simpl in Ha.
    + injection Ha as <-. split; [done|lia].
    + rewrite <- (IH Hl' a s Ha). lia.
  - assert (Forall (λ s, (ts < currentTs s)%N) (x :: l)) as Hall.
    { constructor; [lia|]. eapply Forall_impl; [exact Hx|]. simpl. intros; lia. }
    rewrite (atOrBefore_none ts (x :: l) Hall).
    rewrite Forall_forall in Hall.
    specialize (Hall s (list_elem_of_lookup_2 _ _ _ Ha)). simpl in Hall. lia.
Qed.

Lemma Search_unique (f : nat → bool) (n k : nat) :
  (∀ a b, (a ≤ b)%nat → (b < n)%nat → f a = true → f b = true) →
  (k ≤ n)%nat →
  (∀ a, (a < k)%nat → f a = false) →
  (∀ a, (k ≤ a)%nat → (a < n)%nat → f a = true) →
  Search n f = k.
Proof.
  intros Hmono Hk Hlow Hhigh.
  destruct (Search_least f n Hmono) as (Hb & Hl & Hh).
  destruct (Nat.lt_trichotomy (Search n f) k) as [Hlt|[Heq|Hgt]]; [|done|].
  - specialize (Hlow _ Hlt). rewrite Hh in Hlow; [done|lia|lia].
  - specialize (Hl _ Hgt). rewrite Hhigh in Hl; [done|lia|lia].
Qed.

(** The index that [getSnapshot] searches for is the number of snapshots at or
    before [ts]. *)
Lemma Search_atOrBefore (ts : N) (l : list schemaSnapshot) :
  History l → Search (length l) (snapAfter l ts) = atOrBefore ts l.
Proof.
  intros Hl. apply Search_unique.
  - by apply snapAfter_mono.
  - apply atOrBefore_le.
  - intros a Ha. pose proof (atOrBefore_le ts l).
    destruct (lookup_lt_is_Some_2 l a ltac:(lia)) as [s Hs].
    unfold snapAfter. rewrite Hs. apply N.ltb_ge.
    by apply (atOrBefore_prefix ts l Hl a s Hs).
  - intros a Ha Hn. destruct (lookup_lt_is_Some_2 l a Hn) as [s Hs].
    unfold snapAfter. rewrite Hs. apply N.ltb_lt.
    pose proof (atOrBefore_prefix ts l Hl a s Hs). lia.
Qed.

(** The lookup, with the search replaced by the count. *)
Lemma getSnapshot_count (st : schemaStorageImpl) (ts : N) :
  History (snaps st) →
  getSnapshot st ts =
    if (ts <? gcTs st)%N then inl ErrSchemaStorageGCed
    else if (resolvedTs st <? ts)%N then inl ErrSchemaStorageUnresolved
    else match atOrBefore ts (snaps st) with
         | 0%nat => inl ErrSchemaSnapshotNotFound
         | S i => match snaps st !! i with
                  | Some snap => inr snap
                  | None => inl ErrSchemaSnapshotNotFound
                  end
         end.
Proof. intros Hl. unfold getSnapshot. by rewrite Search_atOrBefore. Qed.

(** ** Collection and lookups *)

Lemma gcScan_kept (ts : N) (oldest : schemaSnapshot) (kept : list schemaSnapshot) :
  Forall (λ s, (ts < currentTs s)%N) kept → gcScan ts (oldest :: kept) 0 0 = 0%nat.
Proof.
  intros Hkept. simpl. destruct (ts <? currentTs oldest)%N; [done|].
  destruct Hkept as [|k kept Hk _]; [done|]. simpl.
  apply N.ltb_lt in Hk. by rewrite Hk.
Qed.

(** X5. [DoGC] is idempotent on a non-empty history: running it again with the
    same timestamp returns the same timestamp and leaves the storage it left. *)
Theorem DoGC_idempotent (ts : N) (st st' : schemaStorageImpl) (lastSchemaTs : N) :
  snaps st ≠ [] → History (snaps st) →
  DoGC ts st = inr (st', lastSchemaTs) →
  DoGC ts st' = inr (st', lastSchemaTs).
Proof.
  intros Hne Hl Hgc.
  destruct (DoGC_history ts st Hne Hl)
    as (removed & oldest & kept & Hs & _ & Hkept & _ & Hrun).
  rewrite Hgc in Hrun. injection Hrun as -> ->.
  assert (∀ st0, snaps st0 = oldest :: kept → DoGC ts st0 = inr (st0, currentTs oldest))
    as Hagain.
  { intros st0 H0. unfold DoGC. rewrite H0, gcScan_kept by done. done. }
  apply Hagain. destruct removed; [done|]. done.
Qed.

(** X6. On a reachable storage [DoGC] does not change what the lookups at or
    after the returned timestamp return, and makes every lookup before it fail
    with [ErrSchemaStorageGCed] or [ErrSchemaSnapshotNotFound]. *)
Theorem DoGC_preserves_lookups (ts : N) (st st' : schemaStorageImpl) (lastSchemaTs : N) :
  reachable st →
  DoGC ts st = inr (st', lastSchemaTs) →
  (∀ t, (lastSchemaTs ≤ t)%N → getSnapshot st' t = getSnapshot st t) ∧
  (∀ t, (t < lastSchemaTs)%N →
        getSnapshot st' t = inl ErrSchemaStorageGCed ∨
        getSnapshot st' t = inl ErrSchemaSnapshotNotFound).
Proof.
  intros Hst Hgc.
  destruct (reachable_History st Hst) as [Hne Hl].
  destruct (reachable_watermarks st Hst)
    as (head0 & latest & Hhead & Hlast & Hw & Hres).
  destruct (DoGC_history ts st Hne Hl)
    as (removed & oldest & kept & Hs & _ & Hkept & _ & Hrun).
  rewrite Hgc in Hrun. injection Hrun as -> ->.
  assert (History (oldest :: kept)) as Hl'.
  { rewrite Hs in Hl. by apply History_app_inv_r in Hl. }
  assert (Forall (λ s, (currentTs s ≤ currentTs oldest)%N) removed) as Hrem.
  { apply Forall_forall. intros x Hx. apply list_elem_of_lookup in Hx as [a Ha].
    apply (History_lookup_le (snaps st) a (length removed) x oldest Hl).
    - apply lookup_lt_Some in Ha. lia.
    - rewrite Hs. by rewrite lookup_app_l by (by eapply lookup_lt_Some).
    - rewrite Hs. by rewrite lookup_app_r, Nat.sub_diag. }
  assert (gcTs st ≤ currentTs oldest)%N as Hw'.
  { etrans; [exact Hw|]. rewrite head_lookup in Hhead.
    apply (History_lookup_le (snaps st) 0 (length removed) head0 oldest Hl);
      [lia|done|]. rewrite Hs. by rewrite lookup_app_r, Nat.sub_diag. }
  split.
  - intros t Ht. destruct removed as [|x removed]; [done|].
    rewrite (getSnapshot_count st t Hl), getSnapshot_count by done. simpl.
    assert ((t <? currentTs oldest)%N = false) as -> by (apply N.ltb_ge; lia).
    assert ((t <? gcTs st)%N = false) as -> by (apply N.ltb_ge; lia).
    destruct (resolvedTs st <? t)%N; [done|].
    rewrite Hs, atOrBefore_app.
    rewrite (atOrBefore_all t (x :: removed)).
    2:{ eapply Forall_impl; [exact Hrem|]. simpl. intros; lia. }
    change (oldest :: kept) with ([oldest] ++ kept) at 1 3.
    rewrite atOrBefore_app, (atOrBefore_all t [oldest]) by (constructor; [lia|done]).
    change (length [oldest]) with 1%nat.
    replace (length (x :: removed) + (1 + atOrBefore t kept))%nat
      with (S (length (x :: removed) + atOrBefore t kept)) by lia.
    replace (1 + atOrBefore t kept)%nat with (S (atOrBefore t kept)) by lia.
    rewrite lookup_app_r by lia.
    replace (length (x :: removed) + atOrBefore t kept - length (x :: removed))%nat
      with (atOrBefore t kept) by lia.
    done.
  - intros t Ht.
    destruct removed as [|x removed].
    + rewrite (getSnapshot_count st t Hl).
      destruct (t <? gcTs st)%N; [by left|]. right.
      assert ((resolvedTs st <? t)%N = false) as ->.
      { apply N.ltb_ge. rewrite last_lookup in Hlast.
        pose proof (History_lookup_le (snaps st) 0 (pred (length (snaps st)))
                      oldest latest Hl ltac:(lia)) as Hle.
        rewrite Hs in Hle at 1. specialize (Hle eq_refl Hlast). lia. }
      rewrite Hs. simpl. rewrite atOrBefore_none; [done|].
      constructor; [done|]. pose proof (History_cons_inv _ _ Hl') as [_ Hall].
      eapply Forall_impl; [exact Hall|]. simpl. intros; lia.
    + left. unfold getSnapshot. simpl.
      by assert ((t <? currentTs oldest)%N = true) as -> by (by apply N.ltb_lt).
Qed.

(** ** Appending and lookups *)

(** An applied job on a reachable storage: what is appended and what the
    storage becomes. *)
Lemma HandleDDLJob_applied (job : Job) (bi : HistoryInfo) (lastSnap : schemaSnapshot)
    (st st' : schemaStorageImpl) :
  skipJob st job = false → BinlogInfo job = Some bi →
  last (snaps st) = Some lastSnap → (currentTs lastSnap < FinishedTS bi)%N →
  HandleDDLJob job st = Ok st' →
  ∃ snap,
    handleDDL job (Clone lastSnap) = Ok snap ∧
    st' = AdvanceResolvedTs (FinishedTS bi) (set_snaps (snaps st ++ [snap]) st) ∧
    (currentTs lastSnap ≤ currentTs snap ≤ FinishedTS bi)%N ∧
    (snap = lastSnap ∨ currentTs snap = FinishedTS bi).
Proof.
  intros Hskip Hbi Hlast Hlt Hddl.
  apply HandleDDLJob_Ok_cases in Hddl as (bi' & Hbi' & Hcases).
  rewrite Hbi in Hbi'. injection Hbi' as <-.
  destruct Hcases as [[Hs _]|[(_ & _ & ls & Hls & Hle)|(_ & base & snap & Hbase & Hap & ->)]].
  - congruence.
  - rewrite Hlast in Hls. injection Hls as <-. lia.
  - destruct Hbase as [[Hb _]|[Hnil _]]; [|by rewrite Hnil in Hlast].
    rewrite Hlast in Hb. injection Hb as <-.
    exists snap. rewrite Clone_eq. split; [done|]. split; [done|].
    apply handleDDL_Ok in Hap as [_ [->|(bi' & Hbi' & Hts)]].
    + split; [lia|by left].
    + rewrite Hbi in Hbi'. injection Hbi' as <-. split; [lia|by right].
Qed.

(** X7. After [HandleDDLJob] applied a job on a reachable storage, the lookup
    at the finished timestamp of the job returns the snapshot that the job
    produced from the clone of the latest snapshot, which is the new last
    snapshot of the history. *)
Theorem HandleDDLJob_then_getSnapshot (job : Job) (bi : HistoryInfo)
    (lastSnap : schemaSnapshot) (st st' : schemaStorageImpl) :
  reachable st →
  skipJob st job = false → BinlogInfo job = Some bi →
  last (snaps st) = Some lastSnap → (currentTs lastSnap < FinishedTS bi)%N →
  HandleDDLJob job st = Ok st' →
  ∃ snap,
    handleDDL job (Clone lastSnap) = Ok snap ∧
    snaps st' = snaps st ++ [snap] ∧
    getSnapshot st' (FinishedTS bi) = inr snap.
Proof.
  intros Hst Hskip Hbi Hlast Hlt Hddl.
  pose proof (reachable_ddl job st st' Hst Hddl) as Hst'.
  destruct (reachable_History st' Hst') as [_ Hl'].
  destruct (reachable_History st Hst) as [_ Hl].
  destruct (reachable_watermarks st Hst) as (oldest & latest & Hhead & Hlast' & Hw & _).
  rewrite Hlast in Hlast'. injection Hlast' as <-.
  destruct (HandleDDLJob_applied job bi lastSnap st st' Hskip Hbi Hlast Hlt Hddl)
    as (snap & Hap & -> & [Hlo Hhi] & _).
  exists snap. split; [done|].
  destruct (AdvanceResolvedTs_snaps (FinishedTS bi) (set_snaps (snaps st ++ [snap]) st))
    as [Hsn Hg].
  split; [done|].
  rewrite getSnapshot_count by done. rewrite Hsn, Hg, AdvanceResolvedTs_max. simpl.
  assert (currentTs oldest ≤ currentTs lastSnap)%N as Hol.
  { rewrite head_lookup in Hhead. rewrite last_lookup in Hlast.
    apply (History_lookup_le (snaps st) 0 (pred (length (snaps st))) _ _ Hl);
      [lia|done|done]. }
  assert ((FinishedTS bi <? gcTs st)%N = false) as -> by (apply N.ltb_ge; lia).
  assert ((N.max (resolvedTs st) (FinishedTS bi) <? FinishedTS bi)%N = false) as ->
    by (apply N.ltb_ge; lia).
  rewrite atOrBefore_all.
  - rewrite length_app, Nat.add_comm. simpl.
    by rewrite lookup_app_r, Nat.sub_diag.
  - apply Forall_app. split; [|by constructor].
    apply Forall_forall. intros x Hx. apply list_elem_of_lookup in Hx as [a Ha].
    rewrite last_lookup in Hlast.
    pose proof (History_lookup_le (snaps st) a (pred (length (snaps st))) x lastSnap Hl)
      as Hle.
    apply lookup_lt_Some in Ha as Hlen.
    specialize (Hle ltac:(lia) Ha Hlast). lia.
Qed.

(** X8. An applied job does not change the lookups that were already resolved
    and are before its finished timestamp: for every such timestamp the lookup
    returns after the call what it returned before. *)
Theorem HandleDDLJob_preserves_lookups (job : Job) (bi : HistoryInfo)
    (lastSnap : schemaSnapshot) (st st' : schemaStorageImpl) (t : N) :
  reachable st →
  skipJob st job = false → BinlogInfo job = Some bi →
  last (snaps st) = Some lastSnap → (currentTs lastSnap < FinishedTS bi)%N →
  HandleDDLJob job st = Ok st' →
  (t ≤ resolvedTs st)%N → (t < FinishedTS bi)%N →
  getSnapshot st' t = getSnapshot st t.
Proof.
  intros Hst Hskip Hbi Hlast Hlt Hddl Hres Ht.
  pose proof (reachable_ddl job st st' Hst Hddl) as Hst'.
  destruct (reachable_History st' Hst') as [_ Hl'].
  destruct (reachable_History st Hst) as [_ Hl].
  destruct (HandleDDLJob_applied job bi lastSnap st st' Hskip Hbi Hlast Hlt Hddl)
    as (snap & Hap & -> & [Hlo Hhi] & Hsnap).
  destruct (AdvanceResolvedTs_snaps (FinishedTS bi) (set_snaps (snaps st ++ [snap]) st))
    as [Hsn Hg].
  rewrite (getSnapshot_count st t Hl), getSnapshot_count by done.
  rewrite Hsn, Hg, AdvanceResolvedTs_max. simpl.
  destruct (t <? gcTs st)%N; [done|].
  assert ((resolvedTs st <? t)%N = false) as -> by (apply N.ltb_ge; lia).
  assert ((N.max (resolvedTs st) (FinishedTS bi) <? t)%N = false) as ->
    by (apply N.ltb_ge; lia).
  rewrite atOrBefore_app.
  pose proof (atOrBefore_le t (snaps st)) as Hcount.
  destruct (decide (currentTs snap ≤ t)%N) as [Hle|Hgt].
  - destruct Hsnap as [->|Hts]; [|lia].
    rewrite (atOrBefore_all t [lastSnap]) by (by constructor).
    rewrite (atOrBefore_all t (snaps st)).
    2:{ apply Forall_forall. intros x Hx. apply list_elem_of_lookup in Hx as [a Ha].
        rewrite last_lookup in Hlast. apply lookup_lt_Some in Ha as Hlen.
        pose proof (History_lookup_le (snaps st) a (pred (length (snaps st))) x lastSnap
                      Hl ltac:(lia) Ha Hlast). lia. }
    rewrite Nat.add_comm. simpl.
    rewrite lookup_app_r, Nat.sub_diag by done. simpl.
    rewrite last_lookup in Hlast.
    destruct (length (snaps st)) as [|n] eqn:Hn.
    + apply length_zero_iff_nil in Hn. by rewrite Hn in Hlast.
    + simpl in Hlast. by rewrite Hlast.
  - rewrite (atOrBefore_none t [snap]) by (constructor; [lia|done]).
    rewrite Nat.add_0_r.
    destruct (atOrBefore t (snaps st)) as [|i]; [done|].
    by rewrite lookup_app_l by lia.
Qed.

(** X9. A job of another kind that carries no table is not skipped over: when
    its schema is known and its finished timestamp is after the latest
    snapshot, [HandleDDLJob] appends a snapshot that is equal to the latest one,
    [currentTs] included, and advances [resolvedTs]. The history then holds two
    neighbours with the same [currentTs]. *)
Theorem HandleDDLJob_job_without_table (job : Job) (code : nat) (bi : HistoryInfo)
    (db : DBInfo) (lastSnap : schemaSnapshot) (st : schemaStorageImpl) :
  Type_ job = ActionOther code → BinlogInfo job = Some bi →
  HistoryInfo_TableInfo bi = None →
  skipJob st job = false →
  last (snaps st) = Some lastSnap → (currentTs lastSnap < FinishedTS bi)%N →
  schemas lastSnap !! Job_SchemaID job = Some db →
  HandleDDLJob job st =
    Ok (set_resolvedTs (N.max (resolvedTs st) (FinishedTS bi))
          (set_snaps (snaps st ++ [lastSnap]) st)).
Proof.
  intros Hty Hbi Hinfo Hskip Hlast Hlt Hdb.
  unfold HandleDDLJob. rewrite Hbi, Hskip, Hlast.
  apply N.leb_gt in Hlt. rewrite Hlt, Clone_eq.
  unfold handleDDL, FillSchemaName, SchemaByID. rewrite Hty, Hdb.
  unfold applyDDL. simpl. rewrite Hty, Hbi, Hinfo.
  f_equal. unfold AdvanceResolvedTs. simpl.
  destruct (FinishedTS bi <? resolvedTs st)%N eqn:Hr.
  - apply N.ltb_lt in Hr. rewrite N.max_l by lia. by destruct st.
  - apply N.ltb_ge in Hr. by rewrite N.max_r by lia.
Qed.

(** * Further properties of the snapshot *)

(** ** Invariant 5 under the DDL kinds *)

(** Invariant 5 passes from [s] to [s'] when every ineligible id of [s'] is
    indexed in [s'], or was ineligible in [s] and is still indexed where it was. *)
Lemma ineligibleKnown_step (s s' : schemaSnapshot) :
  (∀ k, k ∈ ineligibleTableID s' →
        (is_Some (tables s' !! k) ∨ is_Some (partitionTable s' !! k)) ∨
        (k ∈ ineligibleTableID s ∧
         (is_Some (tables s !! k) → is_Some (tables s' !! k)) ∧
         (is_Some (partitionTable s !! k) → is_Some (partitionTable s' !! k)))) →
  ineligibleKnown s → ineligibleKnown s'.
Proof.
  intros Hstep Hknown k Hk. destruct (Hstep k Hk) as [H|(Hin & Ht & Hp)]; [done|].
  destruct (Hknown k Hin); [left|right]; auto.
Qed.

Lemma ineligibleKnown_same (s s' : schemaSnapshot) :
  tables s' = tables s → partitionTable s' = partitionTable s →
  ineligibleTableID s' = ineligibleTableID s →
  ineligibleKnown s → ineligibleKnown s'.
Proof. unfold ineligibleKnown. by intros -> -> ->. Qed.

Lemma dropTable_ineligibleKnown (id : Z) (s s' : schemaSnapshot) :
  dropTable id s = Ok s' → ineligibleKnown s → ineligibleKnown s'.
Proof.
  intros H. apply dropTable_Ok in H as (t & _ & Htab & Hpart & Hin & _).
  apply ineligibleKnown_step. intros k Hk. right.
  rewrite Hin in Hk. rewrite Htab, Hpart.
  split; [set_solver|]. split.
  - rewrite lookup_delete_ne; [done|set_solver].
  - rewrite foldl_delete_lookup. rewrite decide_False; [done|set_solver].
Qed.

Lemma insert_table_ineligibleKnown (table : TableInfo) (s s' : schemaSnapshot) :
  tables s' = <[ID table := table]> (tables s) →
  partitionTable s' =
    foldl (λ m pid, <[pid := table]> m) (partitionTable s) (partitionsOf table) →
  ineligibleTableID s' =
    (if IsEligible table (forceReplicate s) then ineligibleTableID s
     else list_to_set (partitionsOf table) ∪ {[ID table]} ∪ ineligibleTableID s) →
  ineligibleKnown s → ineligibleKnown s'.
Proof.
  intros Htab Hpart Hin. apply ineligibleKnown_step. intros k Hk.
  rewrite Htab, Hpart. rewrite Hin in Hk.
  assert (∀ k, is_Some (tables s !! k) → is_Some (<[ID table:=table]> (tables s) !! k))
    as Ht.
  { intros k' Hk'. destruct (decide (k' = ID table)) as [->|Hne].
    - rewrite lookup_insert_eq. by eexists.
    - by rewrite lookup_insert_ne. }
  assert (∀ k, is_Some (partitionTable s !! k) →
               is_Some (foldl (λ m pid, <[pid := table]> m) (partitionTable s)
                          (partitionsOf table) !! k)) as Hp.
  { intros k' Hk'. rewrite foldl_insert_lookup. case_decide; [by eexists|done]. }
  destruct (IsEligible table (forceReplicate s)).
  - right. auto.
  - apply elem_of_union in Hk as [Hk|Hk]; [apply elem_of_union in Hk as [Hk|Hk]|].
    + left. right. rewrite foldl_insert_lookup.
      rewrite decide_True; [by eexists|]. by apply elem_of_list_to_set in Hk.
    + left. left. apply elem_of_singleton in Hk as ->. rewrite lookup_insert_eq.
      by eexists.
    + right. auto.
Qed.

Lemma createTable_ineligibleKnown (table : TableInfo) (s s' : schemaSnapshot) :
  createTable table s = Ok s' → ineligibleKnown s → ineligibleKnown s'.
Proof.
  intros H. apply createTable_Ok in H as (_ & _ & Htab & Hpart & Hin & _).
  by apply (insert_table_ineligibleKnown table).
Qed.

Lemma replaceTable_Ok_inv (table : TableInfo) (s s' : schemaSnapshot) :
  replaceTable table s = Ok s' → is_Some (tables s !! ID table).
Proof. unfold replaceTable. destruct (tables s !! ID table); [by eexists|done]. Qed.

Lemma replaceTable_ineligibleKnown (table : TableInfo) (s s' : schemaSnapshot) :
  replaceTable table s = Ok s' → ineligibleKnown s → ineligibleKnown s'.
Proof.
  intros H. pose proof (replaceTable_Ok_inv _ _ _ H) as Hex.
  destruct (replaceTable_Ok table s Hex) as (s2 & H2 & Htab & Hpart & Hin & _).
  rewrite H in H2. injection H2 as <-.
  by apply (insert_table_ineligibleKnown table).
Qed.

Lemma updatePartition_Ok_inv (tbl : TableInfo) (s s' : schemaSnapshot) :
  updatePartition tbl s = Ok s' →
  ∃ table oldPi newPi,
    tables s !! ID tbl = Some table ∧ GetPartitionInfo table = Some oldPi ∧
    GetPartitionInfo tbl = Some newPi.
Proof.
  unfold updatePartition. destruct (tables s !! ID tbl) as [table|]; [|done].
  destruct (GetPartitionInfo table) as [oldPi|] eqn:Hold; [|done].
  destruct (GetPartitionInfo tbl) as [newPi|] eqn:Hnew; [|done].
  intros _. by exists table, oldPi, newPi.
Qed.

Lemma updatePartition_ineligibleKnown (tbl : TableInfo) (s s' : schemaSnapshot) :
  updatePartition tbl s = Ok s' → ineligibleKnown s → ineligibleKnown s'.
Proof.
  intros H. destruct (updatePartition_Ok_inv _ _ _ H) as (table & oldPi & newPi & H1 & H2 & H3).
  destruct (updatePartition_Ok tbl table oldPi newPi s H1 H2 H3)
    as (s2 & Hup & Htab & Hpart & Hin & _).
  rewrite H in Hup. injection Hup as <-.
  apply ineligibleKnown_step. intros k Hk. rewrite Hin in Hk. rewrite Htab, Hpart.
  destruct (decide (k ∈ partitionIDs newPi)) as [Hnew|Hnew].
  { left. right. by eexists. }
  right. apply elem_of_difference in Hk as [Hk Hnot].
  assert (k ∉ partitionIDs oldPi) as Hold.
  { intros Ho. apply Hnot. apply elem_of_difference.
    split; [by apply elem_of_list_to_set|]. by rewrite elem_of_list_to_set. }
  assert (k ∈ ineligibleTableID s) as Hk'.
  { destruct (IsEligible tbl (forceReplicate s)); [done|].
    apply elem_of_union in Hk as [Hk|Hk]; [|done].
    by apply elem_of_list_to_set in Hk. }
  split; [done|]. split.
  - intros Hs. destruct (decide (k = ID tbl)) as [->|Hne].
    + rewrite lookup_insert_eq. by eexists.
    + by rewrite lookup_insert_ne.
  - by rewrite decide_False by done.
Qed.

Lemma dropTables_ineligibleKnown (ids : list Z) (s s' : schemaSnapshot) :
  forEach dropTable ids s = Ok s' → ineligibleKnown s → ineligibleKnown s'.
Proof.
  intros H Hs.
  apply (forEach_Ok_ind ineligibleKnown dropTable ids) with (s := s); [|done|done].
  intros x s1 s2 _ H1 H2. by eapply dropTable_ineligibleKnown.
Qed.

Lemma renameTables_create_ineligibleKnown (ids : list Z) (ts : N)
    (infos : list RawTableInfo) (i : nat) (s s' : schemaSnapshot) :
  renameTables_create ids ts i infos s = Ok s' → ineligibleKnown s → ineligibleKnown s'.
Proof.
  revert i s. induction infos as [|info infos IH]; intros i s; simpl.
  - by intros [= <-].
  - destruct (ids !! i); [|done]. destruct (SchemaByID s _); [|done].
    intros H Hs. apply bind_Ok_inv in H as (s1 & H1 & H2).
    eapply IH; [exact H2|]. by eapply createTable_ineligibleKnown.
Qed.

Lemma withWrapTableInfo_Ok (job : Job) k (s s' : schemaSnapshot) :
  withWrapTableInfo job k s = Ok s' →
  ∃ table, getWrapTableInfo job = Some table ∧ k table s = Ok s'.
Proof. unfold withWrapTableInfo. destruct (getWrapTableInfo job); [eauto|done]. Qed.

Lemma withDBInfo_Ok (job : Job) k (s s' : schemaSnapshot) :
  withDBInfo job k s = Ok s' →
  ∃ bi db, BinlogInfo job = Some bi ∧ HistoryInfo_DBInfo bi = Some db ∧ k db s = Ok s'.
Proof.
  unfold withDBInfo. destruct (BinlogInfo job) as [bi|]; [|done].
  destruct (HistoryInfo_DBInfo bi) as [db|] eqn:Hdb; [|done]. intros H. by exists bi, db.
Qed.

(** X10. Every DDL kind but DropSchema keeps invariant 5: when every
    ineligible id of a snapshot is a table or a partition of it and a job of
    another kind than DropSchema is applied with success, every ineligible id
    of the resulting snapshot is a table or a partition of it. *)
Theorem handleDDL_keeps_ineligibleKnown (job : Job) (s s' : schemaSnapshot) :
  Type_ job ≠ ActionDropSchema →
  ineligibleKnown s →
  handleDDL job s = Ok s' →
  ineligibleKnown s'.
Proof.
  intros Hkind Hs. unfold handleDDL.
  destruct (FillSchemaName s job) as [job'| |] eqn:Hfill; [|done|done].
  apply FillSchemaName_Ok in Hfill as [name ->].
  set (job' := withSchemaName job name).
  assert (∀ m, m >>> setCurrentTs job' = Ok s' →
               (∀ s1, m = Ok s1 → ineligibleKnown s1) → ineligibleKnown s') as Hfinish.
  { intros m H Hm. apply bind_Ok_inv in H as (s1 & H1 & H2).
    apply setCurrentTs_Ok in H2 as (bi & _ & ->).
    by apply (ineligibleKnown_same s1); [| | |apply Hm]. }
  unfold applyDDL. change (Type_ job') with (Type_ job).
  destruct (Type_ job) eqn:Hty; [|done|..]; intros H;
    try (apply Hfinish in H; [exact H|clear H; intros s1 H1]).
  - apply withDBInfo_Ok in H1 as (bi & db & _ & _ & H1).
    unfold createSchema in H1. destruct (schemas s !! _); [done|].
    injection H1 as <-. by apply (ineligibleKnown_same s).
  - apply withWrapTableInfo_Ok in H1 as (t & _ & H1).
    by eapply createTable_ineligibleKnown.
  - by eapply dropTable_ineligibleKnown.
  - apply bind_Ok_inv in H1 as (s2 & H2 & [= <-]).
    apply bind_Ok_inv in H2 as (s3 & H3 & H4).
    apply withWrapTableInfo_Ok in H4 as (t & _ & H4).
    apply (ineligibleKnown_same s2); [done|done|done|].
    eapply createTable_ineligibleKnown; [exact H4|].
    by eapply dropTable_ineligibleKnown.
  - apply withDBInfo_Ok in H1 as (bi & db & _ & _ & H1).
    unfold replaceSchema in H1. destruct (schemas s !! _); [|done].
    injection H1 as <-. by apply (ineligibleKnown_same s).
  - apply bind_Ok_inv in H1 as (s3 & H3 & H4).
    apply withWrapTableInfo_Ok in H4 as (t & _ & H4).
    eapply createTable_ineligibleKnown; [exact H4|].
    by eapply dropTable_ineligibleKnown.
  - unfold renameTables in H1. destruct (Args job'); [|done].
    destruct (BinlogInfo job'); [|done]. destruct (_ <? _)%nat; [done|].
    apply bind_Ok_inv in H1 as (s3 & H3 & H4).
    eapply renameTables_create_ineligibleKnown; [exact H4|].
    by eapply dropTables_ineligibleKnown.
  - apply withWrapTableInfo_Ok in H1 as (t & _ & H1).
    by eapply createTable_ineligibleKnown.
  - by eapply dropTable_ineligibleKnown.
  - apply withWrapTableInfo_Ok in H1 as (t & _ & H1).
    by eapply createTable_ineligibleKnown.
  - apply withWrapTableInfo_Ok in H1 as (t & _ & H1).
    by eapply updatePartition_ineligibleKnown.
  - apply withWrapTableInfo_Ok in H1 as (t & _ & H1).
    by eapply updatePartition_ineligibleKnown.
  - apply withWrapTableInfo_Ok in H1 as (t & _ & H1).
    by eapply updatePartition_ineligibleKnown.
  - destruct (BinlogInfo job') as [bi|]; [|by injection H as <-].
    destruct (HistoryInfo_TableInfo bi); [|by injection H as <-].
    apply Hfinish in H; [done|]. intros s1 H1.
    apply withWrapTableInfo_Ok in H1 as (t & _ & H1).
    by eapply replaceTable_ineligibleKnown.
Qed.

(** ** Dropping a schema *)

Lemma dropSchema_table_Ok (id : Z) (s s' : schemaSnapshot) :
  dropSchema_table id s = Ok s' →
  ∃ table,
    tables s !! id = Some table ∧
    tables s' = delete id (tables s) ∧
    partitionTable s' = foldl (λ m pid, delete pid m) (partitionTable s) (partitionsOf table) ∧
    tableNameToID s' = delete (TableInfo_TableName table) (tableNameToID s) ∧
    ineligibleTableID s' = ineligibleTableID s ∧
    truncateTableID s' = truncateTableID s ∧
    schemas s' = schemas s ∧
    tableInSchema s' = tableInSchema s ∧
    schemaNameToID s' = schemaNameToID s ∧
    scalars s' = scalars s.
Proof.
  unfold dropSchema_table, partitionsOf, partitionIDs.
  destruct (tables s !! id) as [table|]; [|done].
  intros [= <-]. exists table. split; [done|]. simpl.
  destruct (GetPartitionInfo table) as [pi|]; [|done].
  assert (∀ defs s0,
    let s1 := foldl (λ s partition,
                set_partitionTable (delete (PartitionDefinition_ID partition)) s) s0 defs in
    partitionTable s1 =
      foldl (λ m pid, delete pid m) (partitionTable s0) (PartitionDefinition_ID <$> defs) ∧
    tables s1 = tables s0 ∧ tableNameToID s1 = tableNameToID s0 ∧
    ineligibleTableID s1 = ineligibleTableID s0 ∧ truncateTableID s1 = truncateTableID s0 ∧
    schemas s1 = schemas s0 ∧ tableInSchema s1 = tableInSchema s0 ∧
    schemaNameToID s1 = schemaNameToID s0 ∧ currentTs s1 = currentTs s0 ∧
    forceReplicate s1 = forceReplicate s0) as Hloop.
  { induction defs as [|p defs IH]; intros s0; simpl; [done|].
    destruct (IH (set_partitionTable (delete (PartitionDefinition_ID p)) s0))
      as (-> & -> & -> & -> & -> & -> & -> & -> & -> & ->). done. }
  unfold scalars. simpl.
  destruct (Hloop (Definitions pi) s) as (-> & -> & -> & -> & -> & -> & -> & -> & -> & ->).
  done.
Qed.

Lemma dropSchema_table_not_Err (id : Z) (e : cerror) (s s' : schemaSnapshot) :
  dropSchema_table id s ≠ Err e s'.
Proof. unfold dropSchema_table. by destruct (tables s !! id). Qed.

Lemma forEach_not_Err {S A : Type} (step : A → S → exec S) (l : list A) :
  (∀ x s e s', step x s ≠ Err e s') →
  ∀ s e s', forEach step l s ≠ Err e s'.
Proof.
  intros Hstep. induction l as [|x l IH]; intros s e s'; simpl; [done|].
  destruct (step x s) as [s1|e1 s1|p] eqn:Hx; simpl; [apply IH| |done].
  by destruct (Hstep x s e1 s1).
Qed.

Lemma dropSchema_tables_Ok (ids : list Z) (s s' : schemaSnapshot) :
  forEach dropSchema_table ids s = Ok s' →
  NoDup ids ∧
  (∀ tid, tid ∈ ids → is_Some (tables s !! tid)) ∧
  tables s' = foldl (λ m id, delete id m) (tables s) ids ∧
  (∀ pid, partitionTable s' !! pid = None ∨
          partitionTable s' !! pid = partitionTable s !! pid) ∧
  (∀ tid t pid, tid ∈ ids → tables s !! tid = Some t → pid ∈ partitionsOf t →
                partitionTable s' !! pid = None) ∧
  (∀ n, tableNameToID s' !! n = None ∨ tableNameToID s' !! n = tableNameToID s !! n) ∧
  (∀ tid t, tid ∈ ids → tables s !! tid = Some t →
            tableNameToID s' !! TableInfo_TableName t = None) ∧
  ineligibleTableID s' = ineligibleTableID s ∧
  truncateTableID s' = truncateTableID s ∧
  schemas s' = schemas s ∧
  tableInSchema s' = tableInSchema s ∧
  schemaNameToID s' = schemaNameToID s ∧
  scalars s' = scalars s.
Proof.
  revert s. induction ids as [|id ids IH]; intros s; simpl.
  - intros [= <-]. split; [constructor|]. split; [set_solver|]. split; [done|].
    split; [by right|]. split; [set_solver|]. split; [by right|]. split; [set_solver|done].
  - intros H. apply bind_Ok_inv in H as (s1 & H1 & H2).
    apply dropSchema_table_Ok in H1
      as (t & Ht & Htab & Hpart & Hname & Hin & Htr & Hsch & Htis & Hsn & Hsc).
    apply IH in H2
      as (Hnd & Hex & Htab' & Hpart' & Hgone & Hname' & Hngone & Hin' & Htr' & Hsch' &
          Htis' & Hsn' & Hsc').
    assert (id ∉ ids) as Hfresh.
    { intros Hi. destruct (Hex id Hi) as [x Hx]. by rewrite Htab, lookup_delete_eq in Hx. }
    assert (∀ tid, tid ∈ ids → tables s1 !! tid = tables s !! tid) as Hsame.
    { intros tid Hi. rewrite Htab. apply lookup_delete_ne. by intros ->. }
    split; [by constructor|]. split.
    { intros tid Hi. apply elem_of_cons in Hi as [->|Hi]; [by eexists|].
      rewrite <- Hsame by done. by apply Hex. }
    split; [by rewrite Htab', Htab|]. split.
    { intros pid. destruct (Hpart' pid) as [Hp|Hp]; [by left|]. rewrite Hp, Hpart.
      rewrite foldl_delete_lookup. case_decide; [by left|by right]. }
    split.
    { intros tid t' pid Hi Ht' Hpid. apply elem_of_cons in Hi as [->|Hi].
      - assert (t' = t) as -> by congruence.
        destruct (Hpart' pid) as [Hp|Hp]; [done|]. rewrite Hp, Hpart.
        rewrite foldl_delete_lookup. by rewrite decide_True.
      - apply (Hgone tid t' pid Hi); [|done]. by rewrite Hsame. }
    split.
    { intros n. destruct (Hname' n) as [Hn|Hn]; [by left|]. rewrite Hn, Hname.
      destruct (decide (n = TableInfo_TableName t)) as [->|Hne].
      - left. apply lookup_delete_eq.
      - right. by apply lookup_delete_ne. }
    split.
    { intros tid t' Hi Ht'. apply elem_of_cons in Hi as [->|Hi].
      - assert (t' = t) as -> by congruence.
        destruct (Hname' (TableInfo_TableName t)) as [Hn|Hn]; [done|].
        rewrite Hn, Hname. apply lookup_delete_eq.
      - apply (Hngone tid t' Hi). by rewrite Hsame. }
    rewrite Hin', Htr', Hsch', Htis', Hsn', Hsc'. done.
Qed.

(** X11. What a successful [dropSchema] does: the schema was known; its
    membership list has no duplicate and names tables only; the schema, its
    membership list and its name are removed; the tables are those of before
    without the listed ones; the partitions and the names of the listed
    tables are gone from the partition index and the name index, which are
    otherwise as before; and the ineligible ids, the truncated ids and the
    two scalars are exactly as before, whatever the schema held. *)
Theorem dropSchema_effect (id : Z) (s s' : schemaSnapshot) :
  dropSchema id s = Ok s' →
  ∃ db,
    schemas s !! id = Some db ∧
    let ids := default [] (tableInSchema s !! id) in
    NoDup ids ∧
    (∀ tid, tid ∈ ids → is_Some (tables s !! tid)) ∧
    schemas s' = delete id (schemas s) ∧
    tableInSchema s' = delete id (tableInSchema s) ∧
    schemaNameToID s' = delete (O (DBInfo_Name db)) (schemaNameToID s) ∧
    (∀ k, tables s' !! k = if decide (k ∈ ids) then None else tables s !! k) ∧
    (∀ pid, partitionTable s' !! pid = None ∨
            partitionTable s' !! pid = partitionTable s !! pid) ∧
    (∀ n, tableNameToID s' !! n = None ∨ tableNameToID s' !! n = tableNameToID s !! n) ∧
    (∀ tid t, tid ∈ ids → tables s !! tid = Some t →
       tableNameToID s' !! TableInfo_TableName t = None ∧
       ∀ pid, pid ∈ partitionsOf t → partitionTable s' !! pid = None) ∧
    ineligibleTableID s' = ineligibleTableID s ∧
    truncateTableID s' = truncateTableID s ∧
    scalars s' = scalars s.
Proof.
  unfold dropSchema. destruct (schemas s !! id) as [db|] eqn:Hdb; [|done].
  intros H. apply bind_Ok_inv in H as (s1 & H1 & [= <-]).
  apply dropSchema_tables_Ok in H1
    as (Hnd & Hex & Htab & Hpart & Hgone & Hname & Hngone & Hin & Htr & Hsch & Htis &
        Hsn & Hsc).
  exists db. split; [done|]. simpl.
  split; [done|]. split; [done|]. split; [by rewrite Hsch|]. split; [by rewrite Htis|].
  split; [by rewrite Hsn|]. split; [intros k; by rewrite Htab, foldl_delete_lookup|].
  split; [done|]. split; [done|]. split; [|done].
  intros tid t Hi Ht. split; [by eapply Hngone|]. intros pid Hpid. by eapply Hgone.
Qed.

(** ** Failing operations write nothing *)

Lemma dropSchema_Err (id : Z) (e : cerror) (s s' : schemaSnapshot) :
  dropSchema id s = Err e s' →
  s' = s ∧ e = ErrSnapshotSchemaNotFound ∧ schemas s !! id = None.
Proof.
  unfold dropSchema. destruct (schemas s !! id) as [db|]; [|by intros [= <- <-]].
  destruct (forEach dropSchema_table _ s) as [s1|e1 s1|p] eqn:Hloop; simpl; [done| |done].
  apply forEach_not_Err in Hloop; [done|]. intros x s0 e0 s0'.
  apply dropSchema_table_not_Err.
Qed.

(** X12. The seven operations on a snapshot check before they write: when
    one of them returns an error, the snapshot is the one it was given, and
    the error tells which key was missing or taken. A schema operation fails
    on the presence or absence of the schema id only; [dropTable] and
    [createTable] also fail with SchemaNotFound when the membership list of
    the table's schema is missing; [updatePartition] reports a table that is
    not partitioned as TableNotFound. *)
Theorem failing_operation_writes_nothing (s s' : schemaSnapshot) (e : cerror) :
  (∀ db, createSchema db s = Err e s' →
     s' = s ∧ e = ErrSnapshotSchemaExists ∧ is_Some (schemas s !! DBInfo_ID db)) ∧
  (∀ db, replaceSchema db s = Err e s' →
     s' = s ∧ e = ErrSnapshotSchemaNotFound ∧ schemas s !! DBInfo_ID db = None) ∧
  (∀ id, dropSchema id s = Err e s' →
     s' = s ∧ e = ErrSnapshotSchemaNotFound ∧ schemas s !! id = None) ∧
  (∀ id, dropTable id s = Err e s' →
     s' = s ∧
     (e = ErrSnapshotTableNotFound ∧ tables s !! id = None ∨
      e = ErrSnapshotSchemaNotFound ∧
      ∃ t, tables s !! id = Some t ∧ tableInSchema s !! SchemaID t = None)) ∧
  (∀ table, createTable table s = Err e s' →
     s' = s ∧
     (e = ErrSnapshotSchemaNotFound ∧
      (schemas s !! SchemaID table = None ∨ tableInSchema s !! SchemaID table = None) ∨
      e = ErrSnapshotTableExists ∧ is_Some (tables s !! ID table))) ∧
  (∀ table, replaceTable table s = Err e s' →
     s' = s ∧ e = ErrSnapshotTableNotFound ∧ tables s !! ID table = None) ∧
  (∀ tbl, updatePartition tbl s = Err e s' →
     s' = s ∧ e = ErrSnapshotTableNotFound ∧
     (tables s !! ID tbl = None ∨
      (∃ t, tables s !! ID tbl = Some t ∧ GetPartitionInfo t = None) ∨
      GetPartitionInfo tbl = None)).
Proof.
  split; [|split; [|split; [|split; [|split; [|split]]]]].
  - intros db. unfold createSchema.
    destruct (schemas s !! DBInfo_ID db) eqn:H; [|done]. intros [= <- <-]. eauto.
  - intros db. unfold replaceSchema.
    destruct (schemas s !! DBInfo_ID db) eqn:H; [done|]. by intros [= <- <-].
  - intros id. apply dropSchema_Err.
  - intros id. unfold dropTable.
    destruct (tables s !! id) as [t|] eqn:Ht; [|intros [= <- <-]; eauto].
    destruct (tableInSchema s !! SchemaID t) eqn:Hl; [done|].
    intros [= <- <-]. split; [done|]. right. eauto.
  - intros table. unfold createTable.
    destruct (schemas s !! SchemaID table) eqn:Hs; [|intros [= <- <-]; eauto].
    destruct (tableInSchema s !! SchemaID table) eqn:Hl; [|intros [= <- <-]; eauto].
    destruct (tables s !! ID table) eqn:Ht; [|done].
    intros [= <- <-]. split; [done|]. right. eauto.
  - intros table. unfold replaceTable.
    destruct (tables s !! ID table) eqn:Ht; [done|]. by intros [= <- <-].
  - intros tbl. unfold updatePartition.
    destruct (tables s !! ID tbl) as [t|] eqn:Ht; [|intros [= <- <-]; eauto].
    destruct (GetPartitionInfo t) eqn:Hold; [|intros [= <- <-]; eauto 10].
    destruct (GetPartitionInfo tbl) eqn:Hnew; [done|]. intros [= <- <-]. eauto 10.
Qed.

(** ** Tables: creation, removal and the lookups *)

Lemma createTable_tableInSchema (table : TableInfo) (s s' : schemaSnapshot) :
  createTable table s = Ok s' →
  ∃ l, tableInSchema s !! SchemaID table = Some l ∧
       tableInSchema s' = <[SchemaID table := l ++ [ID table]]> (tableInSchema s).
Proof.
  unfold createTable.
  destruct (schemas s !! SchemaID table) as [db|]; [|done].
  destruct (tableInSchema s !! SchemaID table) as [l|]; [|done].
  destruct (tables s !! ID table); [done|].
  intros [= <-]. exists l. split; [done|]. simpl.
  destruct (GetPartitionInfo table) as [pi|].
  - match goal with
    | |- context [foldl (addPartition table) ?s0 ?defs] =>
        destruct (addPartition_others table defs s0) as (_ & _ & _ & _ & -> & _)
    end.
    by destruct (IsEligible table (forceReplicate s)).
  - by destruct (IsEligible table (forceReplicate s)).
Qed.

Lemma removeFirst_None (id : Z) (l : list Z) : removeFirst id l = None ↔ id ∉ l.
Proof.
  induction l as [|x l IH]; simpl; [set_solver|].
  case_decide as Hx; [set_solver|].
  destruct (removeFirst id l) as [r|]; simpl.
  - split; [done|]. intros Hn. destruct IH as [_ IH].
    assert (Some r = None) as Hr by (apply IH; set_solver). done.
  - split; [|done]. intros _. destruct IH as [IH _]. set_solver.
Qed.

Lemma removeFirst_Some (id : Z) (l l' : list Z) :
  removeFirst id l = Some l' →
  ∃ l1 l2, l = l1 ++ (id :: l2) ∧ (id ∉ l1) ∧ l' = l1 ++ l2.
Proof.
  revert l'. induction l as [|x l IH]; intros l'; simpl; [done|].
  case_decide as Hx.
  - intros [= <-]. subst x. exists [], l. set_solver.
  - destruct (removeFirst id l) as [r|]; [|done]. simpl. intros [= <-].
    destruct (IH r eq_refl) as (l1 & l2 & -> & Hn & ->).
    exists (x :: l1), l2. set_solver.
Qed.

Lemma removeFirst_snoc (id : Z) (l : list Z) :
  id ∉ l → removeFirst id (l ++ [id]) = Some l.
Proof.
  induction l as [|x l IH]; simpl; intros Hn.
  - by rewrite decide_True.
  - rewrite decide_False by set_solver. rewrite IH by set_solver. done.
Qed.

Lemma dropTable_tableInSchema (id : Z) (t : TableInfo) (s s' : schemaSnapshot) :
  dropTable id s = Ok s' → tables s !! id = Some t →
  ∃ l, tableInSchema s !! SchemaID t = Some l ∧
       tableInSchema s' =
         match removeFirst id l with
         | Some shorter => <[SchemaID t := shorter]> (tableInSchema s)
         | None => tableInSchema s
         end.
Proof.
  unfold dropTable. intros H Ht. rewrite Ht in H.
  destruct (tableInSchema s !! SchemaID t) as [l|]; [|done].
  injection H as <-. exists l. split; [done|]. simpl.
  destruct (GetPartitionInfo t) as [pi|].
  - match goal with
    | |- context [foldl dropTable_partition ?s0 ?defs] =>
        destruct (dropTable_partition_others defs s0) as (_ & _ & _ & _ & -> & _)
    end.
    simpl. by destruct (removeFirst id l).
  - simpl. by destruct (removeFirst id l).
Qed.

Lemma dropTable_succeeds (id : Z) (t : TableInfo) (s : schemaSnapshot) :
  tables s !! id = Some t → is_Some (tableInSchema s !! SchemaID t) →
  ∃ s', dropTable id s = Ok s'.
Proof.
  intros Ht [l Hl]. unfold dropTable. rewrite Ht, Hl. by eexists.
Qed.

(** X13. After a table is created it is found by every lookup: by its id, by
    its name (to the id and to the record), by physical id, and its name by
    id; each of its partition ids is indexed to it, and resolves to it and to
    its name wherever that id is not also the id of a table; its id is the
    last of its schema's membership list; it and its partitions are
    ineligible when the table is, and the ineligible set is as before when
    the table is eligible; the other tables and the truncated ids are as
    before. *)
Theorem createTable_lookups (table : TableInfo) (s s' : schemaSnapshot) :
  createTable table s = Ok s' →
  let n := TableInfo_TableName table in
  TableByID s (ID table) = None ∧
  TableByID s' (ID table) = Some table ∧
  GetTableIDByName s' (Schema n) (Table n) = Some (ID table) ∧
  GetTableByName s' (Schema n) (Table n) = Some table ∧
  PhysicalTableByID s' (ID table) = Some table ∧
  GetTableNameByID s' (ID table) = inr (Some n) ∧
  (∀ pid, pid ∈ partitionsOf table →
     partitionTable s' !! pid = Some table ∧
     (tables s' !! pid = None →
      PhysicalTableByID s' pid = Some table ∧ GetTableNameByID s' pid = inr (Some n))) ∧
  (∃ l, tableInSchema s !! SchemaID table = Some l ∧
        tableInSchema s' !! SchemaID table = Some (l ++ [ID table])) ∧
  (IsEligible table (forceReplicate s) = false →
     IsIneligibleTableID s' (ID table) = true ∧
     ∀ pid, pid ∈ partitionsOf table → IsIneligibleTableID s' pid = true) ∧
  (IsEligible table (forceReplicate s) = true →
     ∀ id, IsIneligibleTableID s' id = IsIneligibleTableID s id) ∧
  (∀ id, id ≠ ID table → TableByID s' id = TableByID s id) ∧
  (∀ id, IsTruncateTableID s' id = IsTruncateTableID s id).
Proof.
  intros H n. destruct (createTable_tableInSchema _ _ _ H) as (l & Hl & Hl').
  apply createTable_Ok in H as (Hfree & _ & Htab & Hpart & Hin & Hname & Htr & _).
  assert (tables s' !! ID table = Some table) as Hid.
  { rewrite Htab. apply lookup_insert_eq. }
  assert (tableNameToID s' !! n = Some (ID table)) as Hn.
  { rewrite Hname. apply lookup_insert_eq. }
  unfold TableByID, GetTableByName, GetTableIDByName, PhysicalTableByID, GetTableNameByID,
    IsIneligibleTableID, IsTruncateTableID.
  assert ({| Schema := Schema n; Table := Table n |} = n) as -> by by destruct n.
  rewrite Hn, Hid. split; [done|]. split; [done|]. split; [done|]. split; [done|].
  split; [done|]. split; [done|]. split.
  { intros pid Hpid.
    assert (partitionTable s' !! pid = Some table) as Hp.
    { rewrite Hpart, foldl_insert_lookup. by rewrite decide_True. }
    split; [done|]. intros ->. by rewrite Hp, Hid. }
  split.
  { exists l. split; [done|]. rewrite Hl'. apply lookup_insert_eq. }
  split.
  { intros He. rewrite Hin, He. split.
    - apply bool_decide_eq_true. set_solver.
    - intros pid Hpid. apply bool_decide_eq_true. set_solver. }
  split.
  { intros He id. by rewrite Hin, He. }
  split.
  { intros id Hne. rewrite Htab. by apply lookup_insert_ne. }
  intros id. by rewrite Htr.
Qed.

(** X14. After a table is dropped no lookup finds it: its id, its name and
    its partition ids are gone from the table map, the name index and the
    partition index, and none of these ids is ineligible any more; a physical
    lookup of its id only finds what the partition index held for it under
    another table; of its schema's membership list exactly the first
    occurrence of the id is removed; the other tables, the other partition
    ids and the truncated ids are as before. *)
Theorem dropTable_lookups (id : Z) (s s' : schemaSnapshot) :
  dropTable id s = Ok s' →
  ∃ t, TableByID s id = Some t ∧
    let n := TableInfo_TableName t in
    TableByID s' id = None ∧
    GetTableIDByName s' (Schema n) (Table n) = None ∧
    GetTableByName s' (Schema n) (Table n) = None ∧
    IsIneligibleTableID s' id = false ∧
    PhysicalTableByID s' id =
      (if decide (id ∈ partitionsOf t) then None else partitionTable s !! id) ∧
    (∀ pid, pid ∈ partitionsOf t →
       partitionTable s' !! pid = None ∧ IsIneligibleTableID s' pid = false) ∧
    (∀ pid, pid ∉ partitionsOf t → partitionTable s' !! pid = partitionTable s !! pid) ∧
    (∃ l, tableInSchema s !! SchemaID t = Some l ∧
       ((id ∉ l) ∧ tableInSchema s' = tableInSchema s ∨
        ∃ l1 l2, l = l1 ++ (id :: l2) ∧ (id ∉ l1) ∧
                 tableInSchema s' = <[SchemaID t := l1 ++ l2]> (tableInSchema s))) ∧
    (∀ k, k ≠ id → TableByID s' k = TableByID s k) ∧
    (∀ k, IsTruncateTableID s' k = IsTruncateTableID s k).
Proof.
  intros H. pose proof H as H0.
  apply dropTable_Ok in H as (t & Ht & Htab & Hpart & Hin & Hname & Htr & _).
  destruct (dropTable_tableInSchema _ _ _ _ H0 Ht) as (l & Hl & Hl').
  exists t. split; [done|]. intros n.
  unfold TableByID, GetTableByName, GetTableIDByName, PhysicalTableByID,
    IsIneligibleTableID, IsTruncateTableID.
  assert ({| Schema := Schema n; Table := Table n |} = n) as -> by by destruct n.
  assert (tables s' !! id = None) as Hid by (rewrite Htab; apply lookup_delete_eq).
  assert (tableNameToID s' !! n = None) as Hn by (rewrite Hname; apply lookup_delete_eq).
  rewrite Hid, Hn. split; [done|]. split; [done|]. split; [done|]. split.
  { apply bool_decide_eq_false. rewrite Hin. set_solver. }
  split; [by rewrite Hpart, foldl_delete_lookup|]. split.
  { intros pid Hpid. split.
    - rewrite Hpart, foldl_delete_lookup. by rewrite decide_True.
    - apply bool_decide_eq_false. rewrite Hin. set_solver. }
  split.
  { intros pid Hpid. rewrite Hpart, foldl_delete_lookup. by rewrite decide_False. }
  split.
  { exists l. split; [done|]. destruct (removeFirst id l) as [r|] eqn:Hr.
    - right. apply removeFirst_Some in Hr as (l1 & l2 & -> & Hn1 & ->). by exists l1, l2.
    - left. by apply removeFirst_None in Hr. }
  split.
  { intros k Hne. rewrite Htab. by apply lookup_delete_ne. }
  intros k. by rewrite Htr.
Qed.

(** X15. Creating a table and dropping it again: the drop succeeds, and the
    table map, the schemas, the truncated ids and the two scalars are those
    of before the creation; the name index and the partition index are those
    of before without the name and the partition ids of the table, and the
    ineligible set is that of before without the ids of the table (so an
    entry that the creation shadowed is not restored); the membership list of
    the schema is that of before when it did not already hold the id. *)
Theorem createTable_then_dropTable (table : TableInfo) (s s1 : schemaSnapshot) :
  createTable table s = Ok s1 →
  ∃ s2,
    dropTable (ID table) s1 = Ok s2 ∧
    tables s2 = tables s ∧
    schemas s2 = schemas s ∧
    truncateTableID s2 = truncateTableID s ∧
    tableNameToID s2 = delete (TableInfo_TableName table) (tableNameToID s) ∧
    (∀ pid, partitionTable s2 !! pid =
              if decide (pid ∈ partitionsOf table) then None else partitionTable s !! pid) ∧
    ineligibleTableID s2 =
      ineligibleTableID s ∖ list_to_set (partitionsOf table) ∖ {[ID table]} ∧
    (∀ l, tableInSchema s !! SchemaID table = Some l → ID table ∉ l →
          tableInSchema s2 = tableInSchema s).
Proof.
  intros H. destruct (createTable_tableInSchema _ _ _ H) as (l & Hl & Hl').
  apply createTable_Ok in H as (Hfree & _ & Htab & Hpart & Hin & Hname & Htr & Hsch & _).
  assert (tables s1 !! ID table = Some table) as Hid.
  { rewrite Htab. apply lookup_insert_eq. }
  destruct (dropTable_succeeds (ID table) table s1 Hid) as [s2 H2].
  { rewrite Hl', lookup_insert_eq. by eexists. }
  exists s2. split; [done|].
  destruct (dropTable_tableInSchema _ _ _ _ H2 Hid) as (l2 & Hl2 & Hl2').
  apply dropTable_Ok in H2 as (t & Ht & Htab2 & Hpart2 & Hin2 & Hname2 & Htr2 & Hsch2 & _).
  assert (t = table) as -> by congruence.
  split. { rewrite Htab2, Htab. rewrite delete_insert_eq. by apply delete_id. }
  split; [congruence|]. split; [congruence|]. split.
  { rewrite Hname2, Hname. apply delete_insert_eq. }
  split.
  { intros pid. rewrite Hpart2, Hpart, foldl_delete_lookup, foldl_insert_lookup.
    by case_decide. }
  split.
  { rewrite Hin2, Hin. destruct (IsEligible table (forceReplicate s)); set_solver. }
  intros l0 Hl0 Hfresh. assert (l0 = l) as -> by congruence.
  rewrite Hl', lookup_insert_eq in Hl2. injection Hl2 as <-.
  rewrite removeFirst_snoc in Hl2' by done. rewrite Hl2', Hl'.
  rewrite insert_insert_eq. by apply insert_id.
Qed.

(** ** Jobs that drop a table and create its successor *)

Lemma getWrapTableInfo_Some (job : Job) (t : TableInfo) :
  getWrapTableInfo job = Some t →
  ∃ bi info,
    BinlogInfo job = Some bi ∧ HistoryInfo_TableInfo bi = Some info ∧
    t = WrapTableInfo (Job_SchemaID job) (SchemaName job) (FinishedTS bi) info.
Proof.
  unfold getWrapTableInfo. destruct (BinlogInfo job) as [bi|]; [|done].
  destruct (HistoryInfo_TableInfo bi) as [info|] eqn:Hinfo; [|done].
  intros [= <-]. by exists bi, info.
Qed.

(** Every kind but RenameTables, CreateSchema and DropSchema starts by
    reading the name of the schema of the job. *)
Lemma handleDDL_with_schema (job : Job) (s : schemaSnapshot) :
  Type_ job ≠ ActionRenameTables → Type_ job ≠ ActionCreateSchema →
  Type_ job ≠ ActionDropSchema →
  handleDDL job s =
    match schemas s !! Job_SchemaID job with
    | None => Err ErrSnapshotSchemaNotFound s
    | Some db => applyDDL (withSchemaName job (O (DBInfo_Name db))) s
    end.
Proof.
  intros H1 H2 H3. unfold handleDDL, FillSchemaName, SchemaByID.
  destruct (Type_ job); try done; by destruct (schemas s !! Job_SchemaID job).
Qed.

Lemma dropTable_createTable_Ok (id : Z) (new : TableInfo) (s s' : schemaSnapshot) :
  dropTable id s >>> createTable new = Ok s' →
  ∃ old,
    tables s !! id = Some old ∧
    (ID new = id ∨ tables s !! ID new = None) ∧
    tables s' = <[ID new := new]> (delete id (tables s)) ∧
    tableNameToID s' =
      <[TableInfo_TableName new := ID new]>
        (delete (TableInfo_TableName old) (tableNameToID s)) ∧
    truncateTableID s' = truncateTableID s ∧
    schemas s' = schemas s.
Proof.
  intros H. apply bind_Ok_inv in H as (s1 & H1 & H2).
  apply dropTable_Ok in H1 as (old & Hold & Htab & _ & _ & Hname & Htr & Hsch & _).
  apply createTable_Ok in H2 as (Hfree & _ & Htab' & _ & _ & Hname' & Htr' & Hsch' & _).
  exists old. split; [done|]. split.
  { destruct (decide (ID new = id)) as [|Hne]; [by left|right].
    by rewrite Htab, lookup_delete_ne in Hfree. }
  rewrite Htab', Htab, Hname', Hname, Htr', Htr, Hsch', Hsch. done.
Qed.

Lemma handleDDL_drop_create (job : Job) (s s' : schemaSnapshot) :
  Type_ job = ActionRenameTable ∨ Type_ job = ActionTruncateTable →
  handleDDL job s = Ok s' →
  ∃ db bi info s1,
    schemas s !! Job_SchemaID job = Some db ∧
    BinlogInfo job = Some bi ∧
    HistoryInfo_TableInfo bi = Some info ∧
    dropTable (TableID job) s >>>
      createTable (WrapTableInfo (Job_SchemaID job) (O (DBInfo_Name db)) (FinishedTS bi) info)
      = Ok s1 ∧
    currentTs s' = FinishedTS bi ∧
    tables s' = tables s1 ∧
    tableNameToID s' = tableNameToID s1 ∧
    truncateTableID s' =
      match Type_ job with
      | ActionTruncateTable => {[TableID job]} ∪ truncateTableID s1
      | _ => truncateTableID s1
      end.
Proof.
  intros Hty H.
  rewrite handleDDL_with_schema in H by (destruct Hty as [-> | ->]; done).
  destruct (schemas s !! Job_SchemaID job) as [db|] eqn:Hdb; [|done].
  unfold applyDDL in H.
  change (Type_ (withSchemaName job (O (DBInfo_Name db)))) with (Type_ job) in H.
  change (TableID (withSchemaName job (O (DBInfo_Name db)))) with (TableID job) in H.
  destruct Hty as [Hty|Hty]; rewrite Hty in H |- *.
  - apply bind_Ok_inv in H as (s2 & H2 & H3).
    apply setCurrentTs_Ok in H3 as (bi & Hbi & ->).
    apply bind_Ok_inv in H2 as (s3 & H3 & H4).
    apply withWrapTableInfo_Ok in H4 as (t & Ht & H4).
    apply getWrapTableInfo_Some in Ht as (bi' & info & Hbi' & Hinfo & ->).
    cbn [BinlogInfo Job_SchemaID SchemaName withSchemaName] in Hbi, Hbi', H4.
    assert (bi' = bi) as -> by congruence.
    exists db, bi, info, s2. split; [done|]. split; [done|]. split; [done|].
    split; [|done].
    rewrite H3. exact H4.
  - apply bind_Ok_inv in H as (s2 & H2 & H3).
    apply setCurrentTs_Ok in H3 as (bi & Hbi & ->).
    apply bind_Ok_inv in H2 as (s3 & H3 & [= <-]).
    apply bind_Ok_inv in H3 as (s4 & H4 & H5).
    apply withWrapTableInfo_Ok in H5 as (t & Ht & H5).
    apply getWrapTableInfo_Some in Ht as (bi' & info & Hbi' & Hinfo & ->).
    cbn [BinlogInfo Job_SchemaID SchemaName withSchemaName] in Hbi, Hbi', H4.
    assert (bi' = bi) as -> by congruence.
    exists db, bi, info, s3. split; [done|]. split; [done|]. split; [done|].
    split; [|done].
    rewrite H4. exact H5.
Qed.

(** X16. A RenameTable job that succeeds: the schema of the job and the old
    table id were known and the job carried a table; afterwards the snapshot
    is stamped with the finished timestamp; the table of the job is found
    under its id, wrapped with the schema id of the job, the name of that
    schema and the finished timestamp as its version, and by its new name;
    the old name resolves to nothing unless it is the new name; when the id
    changed, the old id is no table any more and the new id was free; every
    other table is as before; nothing is marked truncated. *)
Theorem handleDDL_RenameTable (job : Job) (s s' : schemaSnapshot) :
  Type_ job = ActionRenameTable →
  handleDDL job s = Ok s' →
  ∃ db bi info old,
    SchemaByID s (Job_SchemaID job) = Some db ∧
    BinlogInfo job = Some bi ∧
    HistoryInfo_TableInfo bi = Some info ∧
    TableByID s (TableID job) = Some old ∧
    let new := WrapTableInfo (Job_SchemaID job) (O (DBInfo_Name db)) (FinishedTS bi) info in
    let oldName := TableInfo_TableName old in
    currentTs s' = FinishedTS bi ∧
    TableByID s' (RawTableInfo_ID info) = Some new ∧
    GetTableIDByName s' (O (DBInfo_Name db)) (O (RawTableInfo_Name info)) =
      Some (RawTableInfo_ID info) ∧
    (oldName ≠ TableInfo_TableName new →
       GetTableIDByName s' (Schema oldName) (Table oldName) = None) ∧
    (RawTableInfo_ID info ≠ TableID job →
       TableByID s' (TableID job) = None ∧ TableByID s (RawTableInfo_ID info) = None) ∧
    (∀ k, k ≠ TableID job → k ≠ RawTableInfo_ID info → TableByID s' k = TableByID s k) ∧
    (∀ k, IsTruncateTableID s' k = IsTruncateTableID s k).
Proof.
  intros Hty H.
  apply handleDDL_drop_create in H
    as (db & bi & info & s1 & Hdb & Hbi & Hinfo & H1 & Hts & Htab & Hname & Htr);
    [|by left].
  rewrite Hty in Htr.
  apply dropTable_createTable_Ok in H1 as (old & Hold & Hfree & Htab1 & Hname1 & Htr1 & _).
  exists db, bi, info, old. split; [done|]. split; [done|]. split; [done|].
  split; [done|]. intros new oldName.
  unfold TableByID, GetTableIDByName, IsTruncateTableID.
  rewrite Htab, Htab1, Hname, Hname1, Htr, Htr1.
  change (ID new) with (RawTableInfo_ID info).
  split; [done|]. split; [apply lookup_insert_eq|]. split; [apply lookup_insert_eq|].
  split.
  { intros Hne.
    assert ({| Schema := Schema oldName; Table := Table oldName |} = oldName) as ->
      by by destruct oldName.
    rewrite lookup_insert_ne by done. apply lookup_delete_eq. }
  split.
  { intros Hne. split.
    - rewrite lookup_insert_ne by done. apply lookup_delete_eq.
    - by destruct Hfree as [Hfree|Hfree]. }
  split; [|done].
  intros k Hk1 Hk2. rewrite lookup_insert_ne by done. by apply lookup_delete_ne.
Qed.

(** X17. A TruncateTable job that succeeds: the schema of the job and the
    old table id were known and the job carried a table; afterwards the
    snapshot is stamped with the finished timestamp, the old id is marked
    truncated and nothing else is newly marked, the table of the job is found
    under its id and by its name, and the old id is no table any more unless
    the job kept the id. *)
Theorem handleDDL_TruncateTable (job : Job) (s s' : schemaSnapshot) :
  Type_ job = ActionTruncateTable →
  handleDDL job s = Ok s' →
  ∃ db bi info old,
    SchemaByID s (Job_SchemaID job) = Some db ∧
    BinlogInfo job = Some bi ∧
    HistoryInfo_TableInfo bi = Some info ∧
    TableByID s (TableID job) = Some old ∧
    let new := WrapTableInfo (Job_SchemaID job) (O (DBInfo_Name db)) (FinishedTS bi) info in
    currentTs s' = FinishedTS bi ∧
    IsTruncateTableID s' (TableID job) = true ∧
    (∀ k, k ≠ TableID job → IsTruncateTableID s' k = IsTruncateTableID s k) ∧
    TableByID s' (RawTableInfo_ID info) = Some new ∧
    GetTableByName s' (O (DBInfo_Name db)) (O (RawTableInfo_Name info)) = Some new ∧
    (RawTableInfo_ID info ≠ TableID job →
       TableByID s' (TableID job) = None ∧ TableByID s (RawTableInfo_ID info) = None) ∧
    (∀ k, k ≠ TableID job → k ≠ RawTableInfo_ID info → TableByID s' k = TableByID s k).
Proof.
  intros Hty H.
  apply handleDDL_drop_create in H
    as (db & bi & info & s1 & Hdb & Hbi & Hinfo & H1 & Hts & Htab & Hname & Htr);
    [|by right].
  rewrite Hty in Htr.
  apply dropTable_createTable_Ok in H1 as (old & Hold & Hfree & Htab1 & Hname1 & Htr1 & _).
  exists db, bi, info, old. split; [done|]. split; [done|]. split; [done|].
  split; [done|]. intros new.
  unfold GetTableByName, TableByID, GetTableIDByName, IsTruncateTableID.
  rewrite Htab, Htab1, Hname, Hname1, Htr, Htr1.
  change (ID new) with (RawTableInfo_ID info).
  split; [done|]. split; [apply bool_decide_eq_true; set_solver|]. split.
  { intros k Hk. apply bool_decide_ext. set_solver. }
  split; [apply lookup_insert_eq|]. split.
  { match goal with
    | |- match ?m !! ?key with _ => _ end = _ =>
        replace (m !! key) with (Some (RawTableInfo_ID info))
    end.
    - apply lookup_insert_eq.
    - symmetry. apply lookup_insert_eq. }
  split.
  { intros Hne. split.
    - rewrite lookup_insert_ne by done. apply lookup_delete_eq.
    - by destruct Hfree as [Hfree|Hfree]. }
  intros k Hk1 Hk2. rewrite lookup_insert_ne by done. by apply lookup_delete_ne.
Qed.

(** ** The snapshot read from the catalog *)


Lemma fromMeta_table_Ok (db : DBInfo) (ts : N) (force : bool) (sid : Z)
    (snap : schemaSnapshot) (info : RawTableInfo) :
  let t := WrapTableInfo (DBInfo_ID db) (O (DBInfo_Name db)) ts info in
  let snap' := fromMeta_table db ts force sid snap info in
  tables snap' = <[ID t := t]> (tables snap) ∧
  partitionTable snap' =
    foldl (λ m pid, <[pid := t]> m) (partitionTable snap) (partitionsOf t) ∧
  ineligibleTableID snap' =
    (if IsEligible t force then ineligibleTableID snap
     else list_to_set (partitionsOf t) ∪ {[ID t]} ∪ ineligibleTableID snap) ∧
  tableInSchema snap' =
    <[sid := default [] (tableInSchema snap !! sid) ++ [ID t]]> (tableInSchema snap) ∧
  schemas snap' = schemas snap ∧
  truncateTableID snap' = truncateTableID snap ∧
  forceReplicate snap' = forceReplicate snap.
Proof.
  intros t snap'. subst snap'. unfold fromMeta_table. cbn zeta. fold t.
  unfold partitionsOf, partitionIDs.
  assert (∀ defs s0,
    let s1 :=
      foldl (λ snap partition,
               if IsEligible t force
               then set_partitionTable <[PartitionDefinition_ID partition := t]> snap
               else set_ineligibleTableID (λ m, {[PartitionDefinition_ID partition]} ∪ m)
                      (set_partitionTable <[PartitionDefinition_ID partition := t]> snap))
            s0 defs in
    partitionTable s1 =
      foldl (λ m pid, <[pid := t]> m) (partitionTable s0) (PartitionDefinition_ID <$> defs) ∧
    ineligibleTableID s1 =
      (if IsEligible t force then ineligibleTableID s0
       else list_to_set (PartitionDefinition_ID <$> defs) ∪ ineligibleTableID s0) ∧
    tables s1 = tables s0 ∧ tableInSchema s1 = tableInSchema s0 ∧
    schemas s1 = schemas s0 ∧ truncateTableID s1 = truncateTableID s0 ∧
    forceReplicate s1 = forceReplicate s0) as Hloop.
  { induction defs as [|p defs IH]; intros s0; cbn [foldl fmap list_fmap]; cbn zeta.
    - destruct (IsEligible t force); [done|]. repeat split; try done. set_solver.
    - match goal with
      | |- context [foldl _ ?s1 defs] =>
          destruct (IH s1) as (E1 & E2 & E3 & E4 & E5 & E6 & E7)
      end.
      rewrite E1, E2, E3, E4, E5, E6, E7.
      destruct (IsEligible t force); simpl; [done|]. repeat split; try done. set_solver. }
  destruct (GetPartitionInfo t) as [pi|].
  - match goal with
    | |- context [foldl _ ?s1 (Definitions pi)] =>
        destruct (Hloop (Definitions pi) s1) as (E1 & E2 & E3 & E4 & E5 & E6 & E7)
    end.
    rewrite E1, E2, E3, E4, E5, E6, E7.
    destruct (IsEligible t force); simpl; repeat split; try done. set_solver.
  - destruct (IsEligible t force); simpl; repeat split; try done. set_solver.
Qed.

Lemma fromMeta_table_loaded (sch : gmap Z DBInfo) (db : DBInfo) (ts : N) (force : bool)
    (sid : Z) (snap : schemaSnapshot) (info : RawTableInfo) :
  sch !! sid = Some db → DBInfo_ID db = sid →
  loaded sch ts force snap →
  loaded sch ts force (fromMeta_table db ts force sid snap info).
Proof.
  intros Hdb Hid (Hsch & Hforce & Htr & Hknown & Htabs & Hlists).
  destruct (fromMeta_table_Ok db ts force sid snap info)
    as (Htab & Hpart & Hin & Hlist & Hsch' & Htr' & Hforce').
  split; [congruence|]. split; [congruence|]. split; [congruence|]. split.
  { eapply insert_table_ineligibleKnown; [exact Htab|exact Hpart| |exact Hknown].
    by rewrite Hforce. }
  split.
  - intros id t. rewrite Htab. intros Ht.
    destruct (decide (id = RawTableInfo_ID info)) as [->|Hne].
    + rewrite lookup_insert_eq in Ht. injection Ht as <-.
      split; [done|]. split; [done|]. exists db. split; [|done]. simpl. by rewrite Hid.
    + rewrite lookup_insert_ne in Ht by (by intros <-). by apply Htabs.
  - intros id. rewrite Hlist. destruct (decide (id = sid)) as [->|Hne].
    + intros _. by eexists.
    + rewrite lookup_insert_ne by done. apply Hlists.
Qed.

Lemma fromMeta_schema_loaded (meta : Meta) (sch : gmap Z DBInfo) (ts : N) (force : bool)
    (sid : Z) (db : DBInfo) (snap snap' : schemaSnapshot) :
  sch !! sid = Some db → DBInfo_ID db = sid →
  loaded sch ts force snap →
  fromMeta_schema meta ts force (sid, db) snap = Ok snap' →
  loaded sch ts force snap' ∧
  is_Some (tableInSchema snap' !! sid) ∧
  (∀ id, is_Some (tableInSchema snap !! id) → is_Some (tableInSchema snap' !! id)).
Proof.
  intros Hdb Hid Hl. unfold fromMeta_schema.
  destruct (ListTables meta sid) as [infos|]; [|done]. intros [= <-].
  set (s0 := set_tableInSchema <[sid := []]> snap).
  assert (loaded sch ts force s0) as Hl0.
  { destruct Hl as (Hsch & Hforce & Htr & Hknown & Htabs & Hlists).
    split; [done|]. split; [done|]. split; [done|]. split; [done|]. split; [done|].
    intros id. simpl. destruct (decide (id = sid)) as [->|Hne].
    - intros _. by eexists.
    - rewrite lookup_insert_ne by done. apply Hlists. }
  assert (is_Some (tableInSchema s0 !! sid)) as Hs0.
  { simpl. rewrite lookup_insert_eq. by eexists. }
  assert (∀ id, is_Some (tableInSchema snap !! id) → is_Some (tableInSchema s0 !! id))
    as Hmono0.
  { intros id Hi. simpl. destruct (decide (id = sid)) as [->|Hne]; [done|].
    by rewrite lookup_insert_ne. }
  clearbody s0. clear Hl. revert s0 Hl0 Hs0 Hmono0.
  induction infos as [|info infos IH]; intros s0 Hl0 Hs0 Hmono0; simpl; [done|].
  apply IH.
  - by apply fromMeta_table_loaded.
  - destruct (fromMeta_table_Ok db ts force sid s0 info) as (_ & _ & _ & -> & _).
    rewrite lookup_insert_eq. by eexists.
  - intros id Hi. destruct (fromMeta_table_Ok db ts force sid s0 info) as (_ & _ & _ & -> & _).
    destruct (decide (id = sid)) as [->|Hne].
    + rewrite lookup_insert_eq. by eexists.
    + rewrite lookup_insert_ne by done. by apply Hmono0.
Qed.

Lemma fromMeta_schemas_loaded (meta : Meta) (sch : gmap Z DBInfo) (ts : N) (force : bool)
    (l : list (Z * DBInfo)) (snap snap' : schemaSnapshot) :
  (∀ sid db, (sid, db) ∈ l → sch !! sid = Some db ∧ DBInfo_ID db = sid) →
  loaded sch ts force snap →
  forEach (fromMeta_schema meta ts force) l snap = Ok snap' →
  loaded sch ts force snap' ∧
  (∀ sid db, (sid, db) ∈ l → is_Some (tableInSchema snap' !! sid)) ∧
  (∀ id, is_Some (tableInSchema snap !! id) → is_Some (tableInSchema snap' !! id)).
Proof.
  revert snap. induction l as [|[sid db] l IH]; intros snap Hl Hs; simpl.
  - intros [= <-]. split; [done|]. split; [|done]. intros sid db Hi. by apply elem_of_nil in Hi.
  - intros H. apply bind_Ok_inv in H as (s1 & H1 & H2).
    destruct (Hl sid db) as [Hdb Hid]; [by left|].
    destruct (fromMeta_schema_loaded _ _ _ _ _ _ _ _ Hdb Hid Hs H1) as (Hs1 & Hsid & Hmono).
    destruct (IH s1) as (Hs' & Hall & Hmono'); [|done|done|].
    { intros sid' db' Hi. apply Hl. by right. }
    split; [done|]. split.
    + intros sid' db' Hi. apply elem_of_cons in Hi as [[= -> ->]|Hi].
      * by apply Hmono'.
      * by eapply Hall.
    + intros id Hi. by apply Hmono', Hmono.
Qed.

Lemma fromMeta_schemas_result (meta : Meta) (ts : N) (force : bool)
    (l : list (Z * DBInfo)) (snap : schemaSnapshot) :
  (∃ snap', forEach (fromMeta_schema meta ts force) l snap = Ok snap' ∧
            ∀ sid db, (sid, db) ∈ l → is_Some (ListTables meta sid)) ∨
  (∃ snap' sid db, forEach (fromMeta_schema meta ts force) l snap =
                     Err ErrMetaListDatabases snap' ∧
                   (sid, db) ∈ l ∧ ListTables meta sid = None).
Proof.
  revert snap. induction l as [|[sid db] l IH]; intros snap; simpl.
  - left. eexists. split; [done|]. intros sid db Hi. by apply elem_of_nil in Hi.
  - unfold fromMeta_schema at 1. destruct (ListTables meta sid) as [infos|] eqn:Hlist; simpl.
    + match goal with
      | |- context [forEach _ l ?s1] => destruct (IH s1) as [(s' & H & Hall)|(s' & k & d & H & Hi & Hk)]
      end.
      * left. exists s'. split; [done|]. intros sid' db' Hi.
        apply elem_of_cons in Hi as [[= -> ->]|Hi]; [by eexists|by eapply Hall].
      * right. exists s', k, d. split; [done|]. split; [by right|done].
    + right. exists snap, sid, db. split; [done|]. split; [by left|done].
Qed.

(** The first loop of [newSchemaSnapshotFromMeta]. *)
Lemma fromMeta_databases (dbs : list DBInfo) (s0 : schemaSnapshot) :
  let s1 :=
    foldl (λ snap dbinfo,
             let snap := set_schemas <[DBInfo_ID dbinfo := dbinfo]> snap in
             set_schemaNameToID <[O (DBInfo_Name dbinfo) := DBInfo_ID dbinfo]> snap)
          s0 dbs in
  (∀ id db, schemas s1 !! id = Some db →
     (DBInfo_ID db = id ∧ db ∈ dbs) ∨ schemas s0 !! id = Some db) ∧
  (∀ db, db ∈ dbs → is_Some (schemas s1 !! DBInfo_ID db)) ∧
  (∀ id, is_Some (schemas s0 !! id) → is_Some (schemas s1 !! id)) ∧
  tables s1 = tables s0 ∧ partitionTable s1 = partitionTable s0 ∧
  tableInSchema s1 = tableInSchema s0 ∧ truncateTableID s1 = truncateTableID s0 ∧
  ineligibleTableID s1 = ineligibleTableID s0 ∧ forceReplicate s1 = forceReplicate s0.
Proof.
  revert s0. induction dbs as [|d dbs IH]; intros s0; cbn [foldl]; cbn zeta.
  - split; [by right|]. split; [|done]. intros db Hi. by apply elem_of_nil in Hi.
  - cbn zeta in IH.
    match goal with
    | |- context [foldl _ ?s1 dbs] =>
        destruct (IH s1) as (Hback & Hall & Hmono & E1 & E2 & E3 & E4 & E5 & E6)
    end.
    rewrite E1, E2, E3, E4, E5, E6.
    simpl in Hback, Hmono. split.
    { intros id db Hs. destruct (Hback id db Hs) as [[Hid Hi]|Hold].
      - left. split; [done|]. by right.
      - destruct (decide (id = DBInfo_ID d)) as [->|Hne].
        + rewrite lookup_insert_eq in Hold. injection Hold as <-. left. split; [done|]. by left.
        + rewrite lookup_insert_ne in Hold by (by intros <-). by right. }
    split.
    { intros db Hi. apply elem_of_cons in Hi as [->|Hi]; [|by apply Hall].
      apply Hmono. rewrite lookup_insert_eq. by eexists. }
    split; [|done].
    intros id Hi. apply Hmono. destruct (decide (id = DBInfo_ID d)) as [->|Hne].
    + rewrite lookup_insert_eq. by eexists.
    + by rewrite lookup_insert_ne by (by intros <-).
Qed.

(** What the two loops of [newSchemaSnapshotFromMeta] leave behind. *)
Lemma newSchemaSnapshotFromMeta_inr (meta : Meta) (ts : N) (force : bool)
    (s : schemaSnapshot) :
  newSchemaSnapshotFromMeta meta ts force = inr s →
  ∃ dbs s2,
    ListDatabases meta = Some dbs ∧
    s = set_currentTs ts s2 ∧
    loaded (schemas s2) ts force s2 ∧
    (∀ db, db ∈ dbs → is_Some (schemas s2 !! DBInfo_ID db)) ∧
    (∀ id db, schemas s2 !! id = Some db → DBInfo_ID db = id ∧ db ∈ dbs) ∧
    (∀ id, is_Some (schemas s2 !! id) → is_Some (tableInSchema s2 !! id)).
Proof.
  unfold newSchemaSnapshotFromMeta.
  destruct (ListDatabases meta) as [dbs|]; [|done].
  destruct (fromMeta_databases dbs (newEmptySchemaSnapshot force))
    as (Hback & Hall & _ & Htab & Hpart & Hlist & Htr & Hin & Hforce).
  set (s1 := foldl _ (newEmptySchemaSnapshot force) dbs) in *.
  destruct (forEach _ _ s1) as [s2|e s2|p] eqn:Hloop; [|done|done].
  intros [= <-].
  assert (loaded (schemas s1) ts force s1) as Hl1.
  { split; [done|]. split; [done|]. split; [done|]. split.
    - unfold ineligibleKnown. rewrite Hin. simpl. apply set_Forall_empty.
    - split.
      + intros id t. by rewrite Htab.
      + intros id. rewrite Hlist. simpl. rewrite lookup_empty. by intros [? ?]. }
  apply (fromMeta_schemas_loaded meta (schemas s1)) in Hloop as (Hl2 & Hlists & _);
    [|intros sid db Hi; apply elem_of_map_to_list in Hi; split; [done|]|done].
  2: { destruct (Hback sid db Hi) as [[Hid _]|Hold]; [done|]. done. }
  pose proof Hl2 as (Hsch & _).
  exists dbs, s2. split; [done|]. split; [done|]. rewrite Hsch.
  split; [done|]. split; [done|]. split.
  { intros id db Hs. destruct (Hback id db Hs) as [?|Hold]; [done|]. done. }
  intros id [db Hdb]. apply (Hlists id db). by apply elem_of_map_to_list.
Qed.

(** X18. The snapshot that [newSchemaSnapshotFromMeta] returns: it is
    stamped with the timestamp and the replication flag of the call; its
    schemas are the listed databases, each under its own id; every schema has
    a membership list and there is no list without a schema; every table is
    stored under its own id, carries the timestamp as its version, and names
    a schema of the snapshot by id and by name; nothing is marked truncated;
    and every ineligible id is a table or a partition. *)
Theorem newSchemaSnapshotFromMeta_snapshot (meta : Meta) (ts : N) (force : bool)
    (s : schemaSnapshot) :
  newSchemaSnapshotFromMeta meta ts force = inr s →
  currentTs s = ts ∧
  forceReplicate s = force ∧
  (∃ dbs, ListDatabases meta = Some dbs ∧
     (∀ db, db ∈ dbs → is_Some (SchemaByID s (DBInfo_ID db))) ∧
     (∀ id db, SchemaByID s id = Some db → DBInfo_ID db = id ∧ db ∈ dbs)) ∧
  (∀ id, is_Some (tableInSchema s !! id) ↔ is_Some (SchemaByID s id)) ∧
  (∀ id t, TableByID s id = Some t →
     ID t = id ∧ TableInfoVersion t = ts ∧
     ∃ db, SchemaByID s (SchemaID t) = Some db ∧
           Schema (TableInfo_TableName t) = O (DBInfo_Name db)) ∧
  (∀ id, IsTruncateTableID s id = false) ∧
  ineligibleKnown s.
Proof.
  intros H.
  apply newSchemaSnapshotFromMeta_inr in H
    as (dbs & s2 & Hdbs & -> & Hl2 & Hall & Hback & Hlists).
  destruct Hl2 as (_ & Hforce2 & Htr2 & Hknown & Htabs & Hkeys).
  unfold SchemaByID, TableByID, IsTruncateTableID. simpl.
  split; [done|]. split; [done|]. split; [by exists dbs|].
  split; [intros id; by split; [apply Hkeys|apply Hlists]|].
  split; [done|]. split; [|done].
  intros id. apply bool_decide_eq_false. rewrite Htr2. set_solver.
Qed.

(** X19. [newSchemaSnapshotFromMeta] fails exactly when the catalog cannot
    list the databases or cannot list the tables of one of the listed
    databases; in every other case it returns a snapshot. One failed table
    listing fails the whole construction, whatever the order in which the
    schemas are visited. *)
Theorem newSchemaSnapshotFromMeta_failure (meta : Meta) (ts : N) (force : bool) :
  ((∃ e, newSchemaSnapshotFromMeta meta ts force = inl e) ↔
   (ListDatabases meta = None ∨
    ∃ dbs db, ListDatabases meta = Some dbs ∧ db ∈ dbs ∧
              ListTables meta (DBInfo_ID db) = None)) ∧
  ((∃ s, newSchemaSnapshotFromMeta meta ts force = inr s) ↔
   (∃ dbs, ListDatabases meta = Some dbs ∧
           ∀ db, db ∈ dbs → is_Some (ListTables meta (DBInfo_ID db)))).
Proof.
  unfold newSchemaSnapshotFromMeta.
  destruct (ListDatabases meta) as [dbs|].
  2: { split; split.
       - intros _. by left.
       - intros _. by eexists.
       - by intros [s ?].
       - by intros (dbs & ? & _). }
  destruct (fromMeta_databases dbs (newEmptySchemaSnapshot force))
    as (Hback & Hall & _).
  set (s1 := foldl _ (newEmptySchemaSnapshot force) dbs) in *.
  destruct (fromMeta_schemas_result meta ts force (map_to_list (schemas s1)) s1)
    as [(s' & -> & Hok)|(s' & sid & db & -> & Hi & Hnone)].
  - assert (∀ db, db ∈ dbs → is_Some (ListTables meta (DBInfo_ID db))) as Hlisted.
    { intros db Hdb. destruct (Hall db Hdb) as [db' Hdb'].
      apply elem_of_map_to_list in Hdb'. by apply Hok in Hdb'. }
    split; split.
    + by intros [e ?].
    + intros [?|(dbs' & db & [= <-] & Hdb & Hnone)]; [done|].
      destruct (Hlisted db Hdb) as [l Hl]. congruence.
    + intros _. by exists dbs.
    + intros _. by eexists.
  - apply elem_of_map_to_list in Hi.
    destruct (Hback sid db Hi) as [[Hid Hdb]|Hold]; [|done].
    split; split.
    + intros _. right. exists dbs, db. by rewrite Hid.
    + intros _. by eexists.
    + by intros [s ?].
    + intros (dbs' & [= <-] & Hlisted).
      destruct (Hlisted db Hdb) as [l Hl]. rewrite Hid in Hl. congruence.
Qed.

(** ** [PreTableInfo] and the job it announces *)

Lemma handleDDL_applyDDL (job : Job) (s s' : schemaSnapshot) :
  Type_ job ≠ ActionRenameTables → Type_ job ≠ ActionCreateSchema →
  Type_ job ≠ ActionDropSchema →
  handleDDL job s = Ok s' →
  ∃ db, schemas s !! Job_SchemaID job = Some db ∧
        applyDDL (withSchemaName job (O (DBInfo_Name db))) s = Ok s'.
Proof.
  intros H1 H2 H3 H. rewrite handleDDL_with_schema in H by done.
  destruct (schemas s !! Job_SchemaID job) as [db|]; [|done]. by exists db.
Qed.

Lemma wrapped_job_table (job : Job) (name : string) (t : TableInfo) :
  getWrapTableInfo (withSchemaName job name) = Some t →
  ∃ bi info, BinlogInfo job = Some bi ∧ HistoryInfo_TableInfo bi = Some info ∧
             Raw t = info ∧ ID t = RawTableInfo_ID info.
Proof.
  intros H. apply getWrapTableInfo_Some in H as (bi & info & Hbi & Hinfo & ->).
  by exists bi, info.
Qed.

(** X20. [PreTableInfo] agrees with [handleDDL]: whenever the job applies
    to the snapshot, [PreTableInfo] on that snapshot returns without error;
    and when it returns a table, that table is the one the snapshot holds
    under the table id of the job or under the id of the table the job
    carries, and after the job that id holds nothing or the table the job
    carries. So a job for which [PreTableInfo] reports a missing table does
    not apply. *)
Theorem PreTableInfo_agrees_with_handleDDL (job : Job) (s s' : schemaSnapshot) :
  handleDDL job s = Ok s' →
  ∃ r, PreTableInfo s job = inr r ∧
    ∀ t, r = Some t →
      ∃ id, TableByID s id = Some t ∧
        (TableByID s' id = None ∨
         ∃ bi info new,
           BinlogInfo job = Some bi ∧ HistoryInfo_TableInfo bi = Some info ∧
           TableByID s' id = Some new ∧ Raw new = info ∧ id = RawTableInfo_ID info).
Proof.
  intros H.
  set (post := λ id : Z,
         tables s' !! id = None ∨
         ∃ bi info new,
           BinlogInfo job = Some bi ∧ HistoryInfo_TableInfo bi = Some info ∧
           tables s' !! id = Some new ∧ Raw new = info ∧ id = RawTableInfo_ID info).
  change (∃ r, PreTableInfo s job = inr r ∧
            ∀ t, r = Some t → ∃ id, tables s !! id = Some t ∧ post id).
  unfold PreTableInfo, TableByID.
  assert (∀ name new (m : gmap Z TableInfo),
            getWrapTableInfo (withSchemaName job name) = Some new →
            m !! ID new = Some new →
            m !! ID new = None ∨
            ∃ bi info new',
              BinlogInfo job = Some bi ∧ HistoryInfo_TableInfo bi = Some info ∧
              m !! ID new = Some new' ∧ Raw new' = info ∧ ID new = RawTableInfo_ID info)
    as Hnew.
  { intros name new m Hw Hm. right.
    apply wrapped_job_table in Hw as (bi & info & Hbi & Hinfo & Hraw & Hid).
    by exists bi, info, new. }
  destruct (Type_ job) eqn:Hty.
  1-3, 6, 8-9, 11: by eexists; split; [done|]; intros t [=].
  - apply handleDDL_applyDDL in H as (db & _ & H); [|by rewrite Hty..].
    unfold applyDDL in H. cbn [Type_ TableID withSchemaName] in H. rewrite Hty in H.
    apply bind_Ok_inv in H as (s1 & H1 & H2).
    apply setCurrentTs_Ok in H2 as (bi & _ & ->).
    apply dropTable_Ok in H1 as (t & Ht & Htab & _).
    rewrite Ht. eexists. split; [done|]. intros ? [= <-].
    exists (TableID job). split; [done|]. left. simpl. rewrite Htab. apply lookup_delete_eq.
  - apply handleDDL_applyDDL in H as (db & _ & H); [|by rewrite Hty..].
    unfold applyDDL in H. cbn [Type_ TableID withSchemaName] in H. rewrite Hty in H.
    apply bind_Ok_inv in H as (s1 & H1 & H2).
    apply setCurrentTs_Ok in H2 as (bi & _ & ->).
    apply bind_Ok_inv in H1 as (s2 & H2 & [= <-]).
    apply bind_Ok_inv in H2 as (s3 & H3 & H4).
    apply withWrapTableInfo_Ok in H4 as (new & Hw & H4).
    apply dropTable_Ok in H3 as (t & Ht & Htab & _).
    apply createTable_Ok in H4 as (_ & _ & Htab' & _).
    rewrite Ht. eexists. split; [done|]. intros ? [= <-].
    exists (TableID job). split; [done|].
    destruct (decide (ID new = TableID job)) as [Heq|Hne].
    + unfold post. rewrite <- Heq. apply (Hnew _ new _ Hw). simpl. rewrite Htab'.
      apply lookup_insert_eq.
    + left. simpl. rewrite Htab', lookup_insert_ne, Htab by done. apply lookup_delete_eq.
  - apply handleDDL_applyDDL in H as (db & _ & H); [|by rewrite Hty..].
    unfold applyDDL in H. cbn [Type_ TableID withSchemaName] in H. rewrite Hty in H.
    apply bind_Ok_inv in H as (s1 & H1 & H2).
    apply setCurrentTs_Ok in H2 as (bi & _ & ->).
    apply bind_Ok_inv in H1 as (s3 & H3 & H4).
    apply withWrapTableInfo_Ok in H4 as (new & Hw & H4).
    apply dropTable_Ok in H3 as (t & Ht & Htab & _).
    apply createTable_Ok in H4 as (_ & _ & Htab' & _).
    rewrite Ht. eexists. split; [done|]. intros ? [= <-].
    exists (TableID job). split; [done|].
    destruct (decide (ID new = TableID job)) as [Heq|Hne].
    + unfold post. rewrite <- Heq. apply (Hnew _ new _ Hw). simpl. rewrite Htab'.
      apply lookup_insert_eq.
    + left. simpl. rewrite Htab', lookup_insert_ne, Htab by done. apply lookup_delete_eq.
  - apply handleDDL_applyDDL in H as (db & _ & H); [|by rewrite Hty..].
    unfold applyDDL in H. cbn [Type_ TableID withSchemaName] in H. rewrite Hty in H.
    apply bind_Ok_inv in H as (s1 & H1 & H2).
    apply setCurrentTs_Ok in H2 as (bi & _ & ->).
    apply dropTable_Ok in H1 as (t & Ht & Htab & _).
    rewrite Ht. eexists. split; [done|]. intros ? [= <-].
    exists (TableID job). split; [done|]. left. simpl. rewrite Htab. apply lookup_delete_eq.
  - apply handleDDL_applyDDL in H as (db & _ & H); [|by rewrite Hty..].
    unfold applyDDL in H. cbn [Type_ TableID withSchemaName] in H. rewrite Hty in H.
    apply bind_Ok_inv in H as (s1 & H1 & H2).
    apply setCurrentTs_Ok in H2 as (bi0 & _ & ->).
    apply withWrapTableInfo_Ok in H1 as (new & Hw & H1).
    destruct (wrapped_job_table _ _ _ Hw) as (bi & info & Hbi & Hinfo & Hraw & Hid).
    rewrite Hbi, Hinfo, <- Hid.
    destruct (updatePartition_Ok_inv _ _ _ H1) as (t & oldPi & newPi & Ht & Hold & Hnewp).
    destruct (updatePartition_Ok new t oldPi newPi s Ht Hold Hnewp) as (s2 & H2 & Htab & _).
    rewrite H1 in H2. injection H2 as <-.
    rewrite Ht. eexists. split; [done|]. intros ? [= <-].
    exists (ID new). split; [done|]. unfold post. apply (Hnew _ new _ Hw).
    simpl. rewrite Htab. apply lookup_insert_eq.
  - apply handleDDL_applyDDL in H as (db & _ & H); [|by rewrite Hty..].
    unfold applyDDL in H. cbn [Type_ TableID withSchemaName] in H. rewrite Hty in H.
    apply bind_Ok_inv in H as (s1 & H1 & H2).
    apply setCurrentTs_Ok in H2 as (bi0 & _ & ->).
    apply withWrapTableInfo_Ok in H1 as (new & Hw & H1).
    destruct (wrapped_job_table _ _ _ Hw) as (bi & info & Hbi & Hinfo & Hraw & Hid).
    rewrite Hbi, Hinfo, <- Hid.
    destruct (updatePartition_Ok_inv _ _ _ H1) as (t & oldPi & newPi & Ht & Hold & Hnewp).
    destruct (updatePartition_Ok new t oldPi newPi s Ht Hold Hnewp) as (s2 & H2 & Htab & _).
    rewrite H1 in H2. injection H2 as <-.
    rewrite Ht. eexists. split; [done|]. intros ? [= <-].
    exists (ID new). split; [done|]. unfold post. apply (Hnew _ new _ Hw).
    simpl. rewrite Htab. apply lookup_insert_eq.
  - apply handleDDL_applyDDL in H as (db & _ & H); [|by rewrite Hty..].
    unfold applyDDL in H. cbn [Type_ TableID withSchemaName] in H. rewrite Hty in H.
    apply bind_Ok_inv in H as (s1 & H1 & H2).
    apply setCurrentTs_Ok in H2 as (bi0 & _ & ->).
    apply withWrapTableInfo_Ok in H1 as (new & Hw & H1).
    destruct (wrapped_job_table _ _ _ Hw) as (bi & info & Hbi & Hinfo & Hraw & Hid).
    rewrite Hbi, Hinfo, <- Hid.
    destruct (updatePartition_Ok_inv _ _ _ H1) as (t & oldPi & newPi & Ht & Hold & Hnewp).
    destruct (updatePartition_Ok new t oldPi newPi s Ht Hold Hnewp) as (s2 & H2 & Htab & _).
    rewrite H1 in H2. injection H2 as <-.
    rewrite Ht. eexists. split; [done|]. intros ? [= <-].
    exists (ID new). split; [done|]. unfold post. apply (Hnew _ new _ Hw).
    simpl. rewrite Htab. apply lookup_insert_eq.
  - apply handleDDL_applyDDL in H as (db & _ & H); [|by rewrite Hty..].
    unfold applyDDL in H. cbn [Type_ TableID BinlogInfo withSchemaName] in H.
    rewrite Hty in H.
    destruct (BinlogInfo job) as [bi|] eqn:Hbi;
      [|by eexists; split; [done|]; intros t [=]].
    destruct (HistoryInfo_TableInfo bi) as [info|] eqn:Hinfo;
      [|by eexists; split; [done|]; intros t [=]].
    apply bind_Ok_inv in H as (s1 & H1 & H2).
    apply setCurrentTs_Ok in H2 as (bi0 & _ & ->).
    apply withWrapTableInfo_Ok in H1 as (new & Hw & H1).
    destruct (wrapped_job_table _ _ _ Hw) as (bi' & info' & Hbi' & Hinfo' & Hraw & Hid).
    assert (bi' = bi) as -> by congruence. assert (info' = info) as -> by congruence.
    rewrite <- Hid.
    destruct (replaceTable_Ok_inv _ _ _ H1) as [t Ht].
    destruct (replaceTable_Ok new s (ex_intro _ t Ht)) as (s2 & H2 & Htab & _).
    rewrite H1 in H2. injection H2 as <-.
    rewrite Ht. eexists. split; [done|]. intros ? [= <-].
    exists (ID new). split; [done|]. unfold post. apply (Hnew _ new _ Hw).
    simpl. rewrite Htab. apply lookup_insert_eq.
Qed.

(** ** Skipped jobs *)

(** At or after the latest snapshot and within the watermarks, the lookup
    returns the latest snapshot. *)
Lemma getSnapshot_latest (st : schemaStorageImpl) (latest : schemaSnapshot) (t : N) :
  History (snaps st) → last (snaps st) = Some latest →
  (gcTs st ≤ t)%N → (currentTs latest ≤ t)%N → (t ≤ resolvedTs st)%N →
  getSnapshot st t = inr latest.
Proof.
  intros Hl Hlast Hgc Hlat Hres. rewrite getSnapshot_count by done.
  assert ((t <? gcTs st)%N = false) as -> by (apply N.ltb_ge; lia).
  assert ((resolvedTs st <? t)%N = false) as -> by (apply N.ltb_ge; lia).
  rewrite last_lookup in Hlast.
  rewrite atOrBefore_all.
  - destruct (length (snaps st)) as [|n] eqn:Hn.
    + apply length_zero_iff_nil in Hn. by rewrite Hn in Hlast.
    + simpl in Hlast. by rewrite Hlast.
  - apply Forall_forall. intros x Hx. apply list_elem_of_lookup in Hx as [a Ha].
    apply lookup_lt_Some in Ha as Hlen.
    pose proof (History_lookup_le (snaps st) a (pred (length (snaps st))) x latest
                  Hl ltac:(lia) Ha Hlast). lia.
Qed.

(** X21. A skipped job (discarded by the filter, or neither done nor
    synced) on a reachable storage appends nothing: the call returns without
    error, the snapshots and [gcTs] are as before, [resolvedTs] is raised to
    the finished timestamp of the job when that is later; the lookups that
    were resolved before return what they returned, and every timestamp from
    the latest snapshot up to the new [resolvedTs] now resolves to the latest
    snapshot. *)
Theorem HandleDDLJob_skipped (job : Job) (bi : HistoryInfo) (latest : schemaSnapshot)
    (st : schemaStorageImpl) :
  reachable st →
  skipJob st job = true → BinlogInfo job = Some bi →
  last (snaps st) = Some latest →
  ∃ st',
    HandleDDLJob job st = Ok st' ∧
    snaps st' = snaps st ∧
    gcTs st' = gcTs st ∧
    resolvedTs st' = N.max (resolvedTs st) (FinishedTS bi) ∧
    (∀ t, (t ≤ resolvedTs st)%N → getSnapshot st' t = getSnapshot st t) ∧
    (∀ t, (currentTs latest ≤ t)%N → (t ≤ resolvedTs st')%N →
          getSnapshot st' t = inr latest).
Proof.
  intros Hst Hskip Hbi Hlast.
  exists (AdvanceResolvedTs (FinishedTS bi) st).
  destruct (AdvanceResolvedTs_snaps (FinishedTS bi) st) as [Hsn Hg].
  destruct (reachable_History st Hst) as [_ Hl].
  destruct (reachable_watermarks st Hst) as (oldest & latest' & Hhead & Hlast' & Hw & _).
  rewrite Hlast in Hlast'. injection Hlast' as <-.
  assert (currentTs oldest ≤ currentTs latest)%N as Hol.
  { rewrite head_lookup in Hhead. rewrite last_lookup in Hlast.
    apply (History_lookup_le (snaps st) 0 (pred (length (snaps st))) _ _ Hl);
      [lia|done|done]. }
  split. { unfold HandleDDLJob. by rewrite Hbi, Hskip. }
  split; [done|]. split; [done|]. split; [apply AdvanceResolvedTs_max|]. split.
  - intros t Ht. unfold getSnapshot. rewrite Hsn, Hg, AdvanceResolvedTs_max.
    destruct (t <? gcTs st)%N; [done|].
    assert ((resolvedTs st <? t)%N = false) as -> by (apply N.ltb_ge; lia).
    assert ((N.max (resolvedTs st) (FinishedTS bi) <? t)%N = false) as ->
      by (apply N.ltb_ge; lia).
    done.
  - intros t Hlo Hhi. apply getSnapshot_latest.
    + by rewrite Hsn.
    + by rewrite Hsn.
    + rewrite Hg. lia.
    + done.
    + done.
Qed.

(** ** The owners of the partitions *)


Lemma partitionOwned_same (s s' : schemaSnapshot) :
  tables s' = tables s → partitionTable s' = partitionTable s →
  partitionOwned s → partitionOwned s'.
Proof. unfold partitionOwned. by intros -> ->. Qed.

Lemma createTable_partitionOwned (table : TableInfo) (s s' : schemaSnapshot) :
  createTable table s = Ok s' → partitionOwned s → partitionOwned s'.
Proof.
  intros H Hown. apply createTable_Ok in H as (Hfree & _ & Htab & Hpart & _).
  intros pid t. rewrite Hpart, Htab, foldl_insert_lookup. case_decide as Hpid.
  - intros [= <-]. split; [apply lookup_insert_eq|done].
  - intros Hp. destruct (Hown pid t Hp) as [Ht Hin]. split; [|done].
    rewrite lookup_insert_ne; [done|]. intros Heq. rewrite <- Heq in Ht. congruence.
Qed.

Lemma dropTable_partitionOwned (id : Z) (s s' : schemaSnapshot) :
  dropTable id s = Ok s' → partitionOwned s → partitionOwned s'.
Proof.
  intros H Hown. apply dropTable_Ok in H as (t0 & Ht0 & Htab & Hpart & _).
  intros pid t. rewrite Hpart, Htab, foldl_delete_lookup. case_decide as Hpid; [done|].
  intros Hp. destruct (Hown pid t Hp) as [Ht Hin]. split; [|done].
  rewrite lookup_delete_ne; [done|]. intros Heq. subst id.
  assert (t0 = t) as -> by congruence. done.
Qed.

Lemma updatePartition_partitionOwned (tbl : TableInfo) (s s' : schemaSnapshot) :
  updatePartition tbl s = Ok s' → partitionOwned s → partitionOwned s'.
Proof.
  intros H Hown.
  destruct (updatePartition_Ok_inv _ _ _ H) as (table & oldPi & newPi & H1 & H2 & H3).
  destruct (updatePartition_Ok tbl table oldPi newPi s H1 H2 H3)
    as (s2 & Hup & Htab & Hpart & _).
  rewrite H in Hup. injection Hup as <-.
  intros pid t. rewrite Hpart, Htab. case_decide as Hnew.
  - intros [= <-]. split; [apply lookup_insert_eq|].
    unfold partitionsOf. by rewrite H3.
  - case_decide as Hold; [done|]. intros Hp.
    destruct (Hown pid t Hp) as [Ht Hin]. split; [|done].
    rewrite lookup_insert_ne; [done|]. intros Heq. rewrite Heq in H1.
    assert (table = t) as -> by congruence.
    apply Hold. unfold partitionsOf in Hin. by rewrite H2 in Hin.
Qed.

Lemma dropSchema_partitionOwned (id : Z) (s s' : schemaSnapshot) :
  dropSchema id s = Ok s' → partitionOwned s → partitionOwned s'.
Proof.
  unfold dropSchema. destruct (schemas s !! id) as [db|]; [|done].
  intros H Hown. apply bind_Ok_inv in H as (s1 & H1 & [= <-]).
  apply dropSchema_tables_Ok in H1 as (_ & _ & Htab & Hpart & Hgone & _).
  intros pid t. simpl. intros Hp.
  destruct (Hpart pid) as [Hnone|Hsame]; [congruence|].
  rewrite Hsame in Hp. destruct (Hown pid t Hp) as [Ht Hin]. split; [|done].
  rewrite Htab, foldl_delete_lookup. case_decide as Hid; [|done].
  rewrite (Hgone (ID t) t pid Hid Ht Hin) in Hsame. congruence.
Qed.

Lemma dropTables_partitionOwned (ids : list Z) (s s' : schemaSnapshot) :
  forEach dropTable ids s = Ok s' → partitionOwned s → partitionOwned s'.
Proof.
  intros H Hs.
  apply (forEach_Ok_ind partitionOwned dropTable ids) with (s := s); [|done|done].
  intros x s1 s2 _ H1 H2. by eapply dropTable_partitionOwned.
Qed.

Lemma renameTables_create_partitionOwned (ids : list Z) (ts : N)
    (infos : list RawTableInfo) (i : nat) (s s' : schemaSnapshot) :
  renameTables_create ids ts i infos s = Ok s' → partitionOwned s → partitionOwned s'.
Proof.
  revert i s. induction infos as [|info infos IH]; intros i s; simpl.
  - by intros [= <-].
  - destruct (ids !! i); [|done]. destruct (SchemaByID s _); [|done].
    intros H Hs. apply bind_Ok_inv in H as (s1 & H1 & H2).
    eapply IH; [exact H2|]. by eapply createTable_partitionOwned.
Qed.

(** X22. The partition index stays owned under every DDL kind that
    [handleDDL] names: when every record of the partition index is the record
    that the table map holds under its id and lists the partition id, and a
    job of a named kind (any kind but the catch-all that replaces a table) is
    applied with success, the same holds of the resulting snapshot. *)
Theorem handleDDL_keeps_partitionOwned (job : Job) (s s' : schemaSnapshot) :
  (∀ code, Type_ job ≠ ActionOther code) →
  partitionOwned s →
  handleDDL job s = Ok s' →
  partitionOwned s'.
Proof.
  intros Hkind Hs. unfold handleDDL.
  destruct (FillSchemaName s job) as [job'| |] eqn:Hfill; [|done|done].
  apply FillSchemaName_Ok in Hfill as [name ->].
  set (job' := withSchemaName job name).
  assert (∀ m, m >>> setCurrentTs job' = Ok s' →
               (∀ s1, m = Ok s1 → partitionOwned s1) → partitionOwned s') as Hfinish.
  { intros m H Hm. apply bind_Ok_inv in H as (s1 & H1 & H2).
    apply setCurrentTs_Ok in H2 as (bi & _ & ->).
    by apply (partitionOwned_same s1); [| |apply Hm]. }
  unfold applyDDL. change (Type_ job') with (Type_ job).
  destruct (Type_ job) eqn:Hty; intros H;
    try (apply Hfinish in H; [exact H|clear H; intros s1 H1]).
  - apply withDBInfo_Ok in H1 as (bi & db & _ & _ & H1).
    unfold createSchema in H1. destruct (schemas s !! _); [done|].
    injection H1 as <-. by apply (partitionOwned_same s).
  - by eapply dropSchema_partitionOwned.
  - apply withWrapTableInfo_Ok in H1 as (t & _ & H1).
    by eapply createTable_partitionOwned.
  - by eapply dropTable_partitionOwned.
  - apply bind_Ok_inv in H1 as (s2 & H2 & [= <-]).
    apply bind_Ok_inv in H2 as (s3 & H3 & H4).
    apply withWrapTableInfo_Ok in H4 as (t & _ & H4).
    apply (partitionOwned_same s2); [done|done|].
    eapply createTable_partitionOwned; [exact H4|].
    by eapply dropTable_partitionOwned.
  - apply withDBInfo_Ok in H1 as (bi & db & _ & _ & H1).
    unfold replaceSchema in H1. destruct (schemas s !! _); [|done].
    injection H1 as <-. by apply (partitionOwned_same s).
  - apply bind_Ok_inv in H1 as (s3 & H3 & H4).
    apply withWrapTableInfo_Ok in H4 as (t & _ & H4).
    eapply createTable_partitionOwned; [exact H4|].
    by eapply dropTable_partitionOwned.
  - unfold renameTables in H1. destruct (Args job'); [|done].
    destruct (BinlogInfo job'); [|done]. destruct (_ <? _)%nat; [done|].
    apply bind_Ok_inv in H1 as (s3 & H3 & H4).
    eapply renameTables_create_partitionOwned; [exact H4|].
    by eapply dropTables_partitionOwned.
  - apply withWrapTableInfo_Ok in H1 as (t & _ & H1).
    by eapply createTable_partitionOwned.
  - by eapply dropTable_partitionOwned.
  - apply withWrapTableInfo_Ok in H1 as (t & _ & H1).
    by eapply createTable_partitionOwned.
  - apply withWrapTableInfo_Ok in H1 as (t & _ & H1).
    by eapply updatePartition_partitionOwned.
  - apply withWrapTableInfo_Ok in H1 as (t & _ & H1).
    by eapply updatePartition_partitionOwned.
  - apply withWrapTableInfo_Ok in H1 as (t & _ & H1).
    by eapply updatePartition_partitionOwned.
  - by destruct (Hkind code).
Qed.

(** X23. On a snapshot whose partition index is owned, [GetTableNameByID]
    returns for every id, without dereferencing a missing owner: it answers
    with the name of the physical table of that id, and with nothing exactly
    when the id is neither a table nor a partition; for the id of a table it
    is the name that [CloneTables] holds. *)
Theorem GetTableNameByID_total (s : schemaSnapshot) (id : Z) :
  partitionOwned s →
  GetTableNameByID s id = inr (TableInfo_TableName <$> PhysicalTableByID s id) ∧
  (∀ n, CloneTables s !! id = Some n → GetTableNameByID s id = inr (Some n)).
Proof.
  intros Hown. unfold GetTableNameByID, PhysicalTableByID, CloneTables.
  rewrite lookup_fmap.
  destruct (tables s !! id) as [t|] eqn:Ht; simpl.
  - split; [done|]. by intros n [= <-].
  - split; [|done].
    destruct (partitionTable s !! id) as [p|] eqn:Hp; [|done].
    destruct (Hown id p Hp) as [Howner _]. by rewrite Howner.
Qed.

(** ** Creating a schema *)

Lemma DBInfo_Copy_eq (db : DBInfo) : DBInfo_Copy db = db.
Proof. by destruct db. Qed.

(** X24. A CreateSchema job that succeeds: the job carried a schema whose
    id was not known; afterwards the schema is found by its id and its name
    resolves to its id, its membership list is empty, the snapshot is stamped
    with the finished timestamp, the other schemas and every table are as
    before, and a table of that schema whose id is free can be created. *)
Theorem handleDDL_CreateSchema (job : Job) (s s' : schemaSnapshot) :
  Type_ job = ActionCreateSchema →
  handleDDL job s = Ok s' →
  ∃ bi db,
    BinlogInfo job = Some bi ∧
    HistoryInfo_DBInfo bi = Some db ∧
    SchemaByID s (DBInfo_ID db) = None ∧
    SchemaByID s' (DBInfo_ID db) = Some db ∧
    schemaNameToID s' !! O (DBInfo_Name db) = Some (DBInfo_ID db) ∧
    tableInSchema s' !! DBInfo_ID db = Some [] ∧
    currentTs s' = FinishedTS bi ∧
    tables s' = tables s ∧
    (∀ id, id ≠ DBInfo_ID db → SchemaByID s' id = SchemaByID s id) ∧
    (∀ t, SchemaID t = DBInfo_ID db → TableByID s' (ID t) = None →
          ∃ s'', createTable t s' = Ok s'' ∧ tableInSchema s'' !! DBInfo_ID db = Some [ID t]).
Proof.
  intros Hty. unfold handleDDL, FillSchemaName. rewrite Hty.
  destruct (BinlogInfo job) as [bi|] eqn:Hbi; [|done].
  destruct (HistoryInfo_DBInfo bi) as [db|] eqn:Hdb; [|done].
  unfold applyDDL. cbn [Type_ withSchemaName]. rewrite Hty.
  unfold withDBInfo, setCurrentTs. cbn [BinlogInfo withSchemaName]. rewrite Hbi, Hdb.
  unfold createSchema, SchemaByID, TableByID.
  destruct (schemas s !! DBInfo_ID db) eqn:Hfree; [done|]. simpl. intros [= <-].
  exists bi, db. simpl. rewrite DBInfo_Copy_eq.
  split; [done|]. split; [done|]. split; [done|].
  split; [apply lookup_insert_eq|]. split; [apply lookup_insert_eq|].
  split; [apply lookup_insert_eq|]. split; [done|]. split; [done|]. split.
  { intros id Hne. by apply lookup_insert_ne. }
  intros t Hsid Ht. unfold createTable. simpl. rewrite Hsid, !lookup_insert_eq, Ht.
  eexists. split; [done|]. simpl.
  destruct (GetPartitionInfo t) as [pi|].
  - match goal with
    | |- context [foldl (addPartition t) ?s0 ?defs] =>
        destruct (addPartition_others t defs s0) as (_ & _ & _ & _ & -> & _)
    end.
    destruct (IsEligible t _); simpl; apply lookup_insert_eq.
  - destruct (IsEligible t _); simpl; apply lookup_insert_eq.
Qed.

(** ** The initial storage *)

Lemma History_singleton (snap : schemaSnapshot) : History [snap].
Proof. unfold History. simpl. repeat constructor. Qed.

(** X25. The storage that [NewSchemaStorage] returns holds one snapshot,
    with [gcTs] zero and [resolvedTs] the start timestamp. Read from a
    catalog, the snapshot is stamped with the start timestamp: the lookup at
    the start timestamp returns it and every earlier lookup fails with
    SnapshotNotFound. Without a catalog the snapshot is the empty one and is
    left at timestamp zero, so every lookup up to the start timestamp
    returns it. *)
Theorem NewSchemaStorage_initial (meta : option Meta) (startTs : N)
    (filter : option (ActionType → bool)) (force : bool) (id : string)
    (st : schemaStorageImpl) :
  NewSchemaStorage meta startTs filter force id = inr st →
  ∃ snap,
    snaps st = [snap] ∧ gcTs st = 0%N ∧ resolvedTs st = startTs ∧
    forceReplicate snap = force ∧
    (∀ t, (startTs < t)%N → getSnapshot st t = inl ErrSchemaStorageUnresolved) ∧
    match meta with
    | Some _ =>
        currentTs snap = startTs ∧
        getSnapshot st startTs = inr snap ∧
        ∀ t, (t < startTs)%N → getSnapshot st t = inl ErrSchemaSnapshotNotFound
    | None =>
        snap = newEmptySchemaSnapshot force ∧
        ∀ t, (t ≤ startTs)%N → getSnapshot st t = inr snap
    end.
Proof.
  unfold NewSchemaStorage. intros H.
  assert (∀ snap t,
    getSnapshot {| snaps := [snap]; gcTs := 0; resolvedTs := startTs; ddlFilter := filter;
                   storageForceReplicate := force; changefeedID := id |} t =
      if (startTs <? t)%N then inl ErrSchemaStorageUnresolved
      else if decide (currentTs snap ≤ t)%N then inr snap
           else inl ErrSchemaSnapshotNotFound) as Hget.
  { intros snap t. rewrite getSnapshot_count by apply History_singleton. simpl.
    assert ((t <? 0)%N = false) as -> by (apply N.ltb_ge; lia).
    destruct (startTs <? t)%N; [done|]. unfold atOrBefore.
    case_decide as Hle.
    - by rewrite filter_cons_True by done.
    - by rewrite filter_cons_False by done. }
  destruct meta as [meta|].
  - destruct (newSchemaSnapshotFromMeta meta startTs force) as [|snap] eqn:Hmeta; [done|].
    injection H as <-. exists snap.
    pose proof (newSchemaSnapshotFromMeta_currentTs _ _ _ _ Hmeta) as Hts.
    assert (forceReplicate snap = force) as Hforce.
    { apply newSchemaSnapshotFromMeta_inr in Hmeta as (dbs & s2 & _ & -> & Hl & _).
      by destruct Hl as (_ & ? & _). }
    simpl. split; [done|]. split; [done|]. split; [done|]. split; [done|]. split.
    { intros t Ht. rewrite Hget. apply N.ltb_lt in Ht. by rewrite Ht. }
    split; [done|]. split.
    + rewrite Hget, N.ltb_irrefl. by rewrite decide_True by lia.
    + intros t Ht. rewrite Hget.
      assert ((startTs <? t)%N = false) as -> by (apply N.ltb_ge; lia).
      by rewrite decide_False by lia.
  - injection H as <-. eexists. simpl.
    split; [done|]. split; [done|]. split; [done|]. split; [done|]. split.
    { intros t Ht. rewrite Hget. apply N.ltb_lt in Ht. by rewrite Ht. }
    split; [done|]. intros t Ht. rewrite Hget.
    assert ((startTs <? t)%N = false) as -> by (apply N.ltb_ge; lia).
    by rewrite decide_True by (simpl; lia).
Qed.

(** ** The schema of a created table *)

(** X26. A CreateTable job that succeeds: the schema of the job was known
    and the job carried a table; afterwards the table is found under its id,
    wrapped with the schema id of the job, the name of that schema and the
    finished timestamp; [SchemaByTableID] resolves the table through the
    schema name index, so it answers with what that index holds for the name
    of the schema, and with the schema of the job whenever the index maps the
    name of that schema to its id. *)
Theorem handleDDL_CreateTable (job : Job) (s s' : schemaSnapshot) :
  Type_ job = ActionCreateTable →
  handleDDL job s = Ok s' →
  ∃ db bi info,
    SchemaByID s (Job_SchemaID job) = Some db ∧
    BinlogInfo job = Some bi ∧
    HistoryInfo_TableInfo bi = Some info ∧
    TableByID s (RawTableInfo_ID info) = None ∧
    TableByID s' (RawTableInfo_ID info) =
      Some (WrapTableInfo (Job_SchemaID job) (O (DBInfo_Name db)) (FinishedTS bi) info) ∧
    currentTs s' = FinishedTS bi ∧
    SchemaByTableID s' (RawTableInfo_ID info) =
      match schemaNameToID s !! O (DBInfo_Name db) with
      | Some schemaID => SchemaByID s schemaID
      | None => None
      end ∧
    (schemaNameToID s !! O (DBInfo_Name db) = Some (Job_SchemaID job) →
     SchemaByTableID s' (RawTableInfo_ID info) = Some db).
Proof.
  intros Hty H.
  apply handleDDL_applyDDL in H as (db & Hdb & H); [|by rewrite Hty..].
  unfold applyDDL in H. cbn [Type_ withSchemaName] in H. rewrite Hty in H.
  apply bind_Ok_inv in H as (s1 & H1 & H2).
  apply setCurrentTs_Ok in H2 as (bi & Hbi & ->).
  apply withWrapTableInfo_Ok in H1 as (t & Ht & H1).
  apply getWrapTableInfo_Some in Ht as (bi' & info & Hbi' & Hinfo & ->).
  cbn [BinlogInfo Job_SchemaID SchemaName withSchemaName] in Hbi, Hbi', H1.
  assert (bi' = bi) as -> by congruence.
  apply createTable_Ok in H1 as (Hfree & _ & Htab & _ & _ & _ & _ & Hsch & Hsn).
  exists db, bi, info. unfold SchemaByID, TableByID, SchemaByTableID. simpl.
  change (ID (WrapTableInfo (Job_SchemaID job) (O (DBInfo_Name db)) (FinishedTS bi) info))
    with (RawTableInfo_ID info) in *.
  rewrite Htab, lookup_insert_eq. simpl. rewrite Hsn.
  unfold SchemaByID. simpl. rewrite Hsch.
  split; [done|]. split; [done|]. split; [done|]. split; [done|]. split; [done|].
  split; [done|]. split; [done|]. by intros ->.
Qed.

(** ** The replication flag *)

Lemma reachable_forceReplicate (st : schemaStorageImpl) :
  reachable st →
  Forall (λ snap, forceReplicate snap = storageForceReplicate st) (snaps st).
Proof.
  induction 1 as [meta startTs filter force id st Hnew
                 |job st st' Hst IH Hddl
                 |job err st st' _ IH Hddl
                 |ts st _ IH
                 |ts st st' r Hst IH Hgc].
  - unfold NewSchemaStorage in Hnew. destruct meta as [meta|].
    + destruct (newSchemaSnapshotFromMeta meta startTs force) as [|snap] eqn:Hmeta; [done|].
      injection Hnew as <-. simpl. constructor; [|done].
      apply newSchemaSnapshotFromMeta_inr in Hmeta as (dbs & s2 & _ & -> & Hl & _).
      by destruct Hl as (_ & ? & _).
    + injection Hnew as <-. simpl. by constructor.
  - apply HandleDDLJob_Ok_cases in Hddl as (bi & Hbi & [[_ ->]|[(_ & -> & _)|(_ & Hap)]]).
    + unfold AdvanceResolvedTs. by destruct (_ <? _)%N.
    + done.
    + destruct Hap as (base & snap & Hbase & Hddl & ->).
      assert (forceReplicate snap = storageForceReplicate st) as Hsnap.
      { apply handleDDL_Ok in Hddl as [-> _].
        destruct Hbase as [[Hb _]|[_ ->]]; [|done].
        rewrite Forall_forall in IH. apply IH. rewrite last_lookup in Hb.
        by eapply list_elem_of_lookup_2. }
      unfold AdvanceResolvedTs. destruct (_ <? _)%N; simpl.
      all: apply Forall_app; split; [done|by constructor].
  - apply HandleDDLJob_Err in Hddl as ->. done.
  - unfold AdvanceResolvedTs. by destruct (_ <? _)%N.
  - destruct (reachable_History st Hst) as [Hne Hl].
    destruct (DoGC_history ts st Hne Hl) as (removed & old' & kept & Hs & _ & _ & _ & Hrun).
    rewrite Hgc in Hrun. injection Hrun as -> ->.
    destruct removed as [|x removed]; [done|]. simpl.
    rewrite Hs in IH. by apply Forall_app in IH as [_ IH].
Qed.

(** X27. The replication flag is uniform: every snapshot of a reachable
    storage carries the flag that the storage was created with, so a lookup
    never returns a snapshot that judges eligibility with another flag. *)
Theorem getSnapshot_forceReplicate (st : schemaStorageImpl) (ts : N) (snap : schemaSnapshot) :
  reachable st →
  getSnapshot st ts = inr snap →
  forceReplicate snap = storageForceReplicate st.
Proof.
  intros Hst Hget. destruct (reachable_History st Hst) as [_ Hl].
  apply getSnapshot_inr in Hget as (i & Hi & _); [|done].
  pose proof (reachable_forceReplicate st Hst) as Hall.
  rewrite Forall_forall in Hall. apply Hall. by eapply list_elem_of_lookup_2.
Qed.

(** * The properties on the scenarios *)

Lemma reachable_storage_invariant_witness :
  History (snaps Scenario.st1579) ∧
  ∃ oldest latest,
    head (snaps Scenario.st1579) = Some oldest ∧
    last (snaps Scenario.st1579) = Some latest ∧
    (gcTs Scenario.st1579 ≤ currentTs oldest)%N ∧
    (currentTs oldest ≤ currentTs latest)%N ∧
    (currentTs latest ≤ resolvedTs Scenario.st1579)%N.
Proof. exact (reachable_storage_invariant Scenario.st1579 st1579_reachable). Defined.

Lemma getSnapshot_window_witness :
  (∃ s, getSnapshot Scenario.st1579 6 = inr s) ∧
  getSnapshot Scenario.st1579 0 = inl ErrSchemaSnapshotNotFound.
Proof.
  split; [|evaluate].
  apply (proj2 (getSnapshot_window Scenario.st1579 6 st1579_reachable)).
  exists (Scenario.nthSnap Scenario.st1579 0).
  split; [evaluate|]. split; evaluate.
Defined.

Lemma getSnapshot_at_own_ts_witness :
  ∃ s',
    getSnapshot Scenario.st1579 (currentTs (Scenario.nthSnap Scenario.st1579 2)) = inr s' ∧
    s' ∈ snaps Scenario.st1579 ∧
    currentTs s' = currentTs (Scenario.nthSnap Scenario.st1579 2).
Proof.
  apply (getSnapshot_at_own_ts Scenario.st1579 (Scenario.nthSnap Scenario.st1579 2)
           st1579_reachable).
  apply (list_elem_of_lookup_2 _ 2%nat). evaluate.
Defined.

Lemma DoGC_idempotent_witness :
  DoGC 6 Scenario.st1579 = inr (Scenario.st579, 5%N) ∧
  DoGC 6 Scenario.st579 = inr (Scenario.st579, 5%N).
Proof.
  assert (DoGC 6 Scenario.st1579 = inr (Scenario.st579, 5%N)) as Hgc by evaluate.
  split; [exact Hgc|].
  apply (DoGC_idempotent 6 Scenario.st1579 Scenario.st579 5); [|exact st1579_History|exact Hgc].
  evaluate.
Defined.

Lemma DoGC_preserves_lookups_witness :
  getSnapshot Scenario.st579 8 = getSnapshot Scenario.st1579 8 ∧
  (getSnapshot Scenario.st579 4 = inl ErrSchemaStorageGCed ∨
   getSnapshot Scenario.st579 4 = inl ErrSchemaSnapshotNotFound).
Proof.
  assert (DoGC 6 Scenario.st1579 = inr (Scenario.st579, 5%N)) as Hgc by evaluate.
  destruct (DoGC_preserves_lookups 6 Scenario.st1579 Scenario.st579 5 st1579_reachable Hgc)
    as [Hsame Hgone].
  split; [apply Hsame; evaluate|apply Hgone; evaluate].
Defined.

Lemma HandleDDLJob_then_getSnapshot_witness :
  ∃ snap,
    handleDDL Scenario.createDb4 (Clone (Scenario.latest Scenario.st1579)) = Ok snap ∧
    snaps Scenario.st157911 = snaps Scenario.st1579 ++ [snap] ∧
    getSnapshot Scenario.st157911 11 = inr snap.
Proof.
  refine (HandleDDLJob_then_getSnapshot Scenario.createDb4
            {| FinishedTS := 11; HistoryInfo_DBInfo := Some (Scenario.schema 4 "db4");
               HistoryInfo_TableInfo := None; MultipleTableInfos := [] |}
            (Scenario.latest Scenario.st1579) Scenario.st1579 Scenario.st157911
            st1579_reachable _ _ _ _ _).
  - evaluate.
  - reflexivity.
  - evaluate.
  - evaluate.
  - evaluate.
Defined.

Lemma HandleDDLJob_preserves_lookups_witness :
  getSnapshot Scenario.st157911 8 = getSnapshot Scenario.st1579 8.
Proof.
  refine (HandleDDLJob_preserves_lookups Scenario.createDb4
            {| FinishedTS := 11; HistoryInfo_DBInfo := Some (Scenario.schema 4 "db4");
               HistoryInfo_TableInfo := None; MultipleTableInfos := [] |}
            (Scenario.latest Scenario.st1579) Scenario.st1579 Scenario.st157911 8
            st1579_reachable _ _ _ _ _ _ _).
  - evaluate.
  - reflexivity.
  - evaluate.
  - evaluate.
  - evaluate.
  - evaluate.
  - evaluate.
Defined.

Lemma HandleDDLJob_job_without_table_witness :
  HandleDDLJob Scenario.noTableJob Scenario.st1579 =
    Ok (set_resolvedTs (N.max (resolvedTs Scenario.st1579) 11)
          (set_snaps (snaps Scenario.st1579 ++ [Scenario.latest Scenario.st1579])
             Scenario.st1579)) ∧
  currentTs (Scenario.latest Scenario.st1579) = 9%N.
Proof.
  split; [|evaluate].
  refine (HandleDDLJob_job_without_table Scenario.noTableJob 7
            {| FinishedTS := 11; HistoryInfo_DBInfo := None;
               HistoryInfo_TableInfo := None; MultipleTableInfos := [] |} Scenario.db1
            (Scenario.latest Scenario.st1579) Scenario.st1579 _ _ _ _ _ _ _).
  - reflexivity.
  - reflexivity.
  - reflexivity.
  - evaluate.
  - evaluate.
  - evaluate.
  - evaluate.
Defined.

Lemma handleDDL_keeps_ineligibleKnown_witness :
  ineligibleTableID (Scenario.onePartitioned [10; 20] false) = {[100; 10; 20]} ∧
  ineligibleKnown
    (Scenario.snapshotOf
       (handleDDL (Scenario.createTableJob (Scenario.partitioned 200 "p" [30; 40] false) 3)
          (Scenario.onePartitioned [10; 20] false))).
Proof.
  split; [evaluate|].
  apply (handleDDL_keeps_ineligibleKnown
           (Scenario.createTableJob (Scenario.partitioned 200 "p" [30; 40] false) 3)
           (Scenario.onePartitioned [10; 20] false)).
  - evaluate.
  - unfold ineligibleKnown. apply (bool_decide_unpack _). evaluate.
  - evaluate.
Defined.

Lemma dropSchema_effect_witness :
  tables (Scenario.snapshotOf (dropSchema 1 (Scenario.onePartitioned [10; 20] false)))
    !! 100 = None ∧
  partitionTable (Scenario.snapshotOf (dropSchema 1 (Scenario.onePartitioned [10; 20] false)))
    !! 10 = None ∧
  ineligibleTableID (Scenario.snapshotOf (dropSchema 1 (Scenario.onePartitioned [10; 20] false)))
    = ineligibleTableID (Scenario.onePartitioned [10; 20] false).
Proof.
  destruct (dropSchema_effect 1 (Scenario.onePartitioned [10; 20] false)
              (Scenario.snapshotOf (dropSchema 1 (Scenario.onePartitioned [10; 20] false))))
    as (db & Hdb & H); [evaluate|].
  cbv zeta in H.
  destruct H as (_ & _ & _ & _ & _ & Htab & _ & _ & Hgone & Hin & _).
  split; [rewrite (Htab 100); evaluate|]. split; [|exact Hin].
  destruct (Hgone 100 (WrapTableInfo 1 "db1" 2 (Scenario.partitioned 100 "t" [10; 20] false)))
    as [_ Hparts]; [member|evaluate|].
  apply Hparts. member.
Defined.

Lemma createTable_lookups_witness :
  GetTableByName (Scenario.snapshotOf (createTable Scenario.partitionedTable
                                         (Scenario.oneTable true))) "db1" "p"
    = Some Scenario.partitionedTable ∧
  PhysicalTableByID (Scenario.snapshotOf (createTable Scenario.partitionedTable
                                            (Scenario.oneTable true))) 30
    = Some Scenario.partitionedTable ∧
  IsIneligibleTableID (Scenario.snapshotOf (createTable Scenario.partitionedTable
                                              (Scenario.oneTable true))) 40 = true.
Proof.
  pose proof (createTable_lookups Scenario.partitionedTable (Scenario.oneTable true)
                (Scenario.snapshotOf (createTable Scenario.partitionedTable
                                        (Scenario.oneTable true)))) as H.
  cbv zeta in H.
  destruct H as (_ & _ & _ & Hname & _ & _ & Hparts & _ & Hin & _); [evaluate|].
  split; [exact Hname|]. split.
  - destruct (Hparts 30) as [_ Hphys]; [member|].
    destruct Hphys as [Hphys _]; [evaluate|]. exact Hphys.
  - destruct Hin as [_ Hin]; [evaluate|]. apply Hin. member.
Defined.

Lemma dropTable_lookups_witness :
  ∃ t,
    TableByID (Scenario.onePartitioned [10; 20] false) 100 = Some t ∧
    TableByID (Scenario.snapshotOf (dropTable 100 (Scenario.onePartitioned [10; 20] false)))
      100 = None ∧
    IsIneligibleTableID
      (Scenario.snapshotOf (dropTable 100 (Scenario.onePartitioned [10; 20] false))) 100
      = false.
Proof.
  destruct (dropTable_lookups 100 (Scenario.onePartitioned [10; 20] false)
              (Scenario.snapshotOf (dropTable 100 (Scenario.onePartitioned [10; 20] false))))
    as (t & Ht & H); [evaluate|].
  cbv zeta in H. destruct H as (Hgone & _ & _ & Hin & _).
  exists t. split; [exact Ht|]. split; [exact Hgone|exact Hin].
Defined.

Lemma createTable_then_dropTable_witness :
  ∃ s2,
    dropTable 200 (Scenario.snapshotOf (createTable Scenario.partitionedTable
                                          (Scenario.oneTable true))) = Ok s2 ∧
    tables s2 = tables (Scenario.oneTable true).
Proof.
  destruct (createTable_then_dropTable Scenario.partitionedTable (Scenario.oneTable true)
              (Scenario.snapshotOf (createTable Scenario.partitionedTable
                                      (Scenario.oneTable true))))
    as (s2 & Hdrop & Htab & _); [evaluate|].
  exists s2. split; [exact Hdrop|exact Htab].
Defined.

Lemma handleDDL_RenameTable_witness :
  ∃ db,
    SchemaByID (Scenario.oneTable true) 1 = Some db ∧
    currentTs (Scenario.snapshotOf (handleDDL Scenario.renameJob (Scenario.oneTable true)))
      = 5%N ∧
    GetTableIDByName
      (Scenario.snapshotOf (handleDDL Scenario.renameJob (Scenario.oneTable true)))
      (O (DBInfo_Name db)) "u" = Some 100.
Proof.
  destruct (handleDDL_RenameTable Scenario.renameJob (Scenario.oneTable true)
              (Scenario.snapshotOf (handleDDL Scenario.renameJob (Scenario.oneTable true))))
    as (db & bi & info & old & Hdb & Hbi & Hinfo & Hold & H); [reflexivity|evaluate|].
  cbv zeta in H. destruct H as (Hts & _ & Hname & _).
  injection Hbi as <-. injection Hinfo as <-.
  exists db. split; [exact Hdb|]. split; [exact Hts|exact Hname].
Defined.

Lemma handleDDL_TruncateTable_witness :
  IsTruncateTableID
    (Scenario.snapshotOf (handleDDL Scenario.truncateJob (Scenario.oneTable true))) 100
    = true ∧
  TableByID
    (Scenario.snapshotOf (handleDDL Scenario.truncateJob (Scenario.oneTable true))) 100
    = None.
Proof.
  destruct (handleDDL_TruncateTable Scenario.truncateJob (Scenario.oneTable true)
              (Scenario.snapshotOf (handleDDL Scenario.truncateJob (Scenario.oneTable true))))
    as (db & bi & info & old & Hdb & Hbi & Hinfo & Hold & H); [reflexivity|evaluate|].
  cbv zeta in H. destruct H as (_ & Htr & _ & _ & _ & Hgone & _).
  injection Hbi as <-. injection Hinfo as <-.
  split; [exact Htr|]. destruct Hgone as [Hgone _]; [evaluate|exact Hgone].
Defined.

Lemma newSchemaSnapshotFromMeta_snapshot_witness :
  currentTs Scenario.fromCatalog = 5%N ∧
  forceReplicate Scenario.fromCatalog = false ∧
  ineligibleKnown Scenario.fromCatalog ∧
  IsIneligibleTableID Scenario.fromCatalog 10 = true.
Proof.
  destruct (newSchemaSnapshotFromMeta_snapshot Scenario.catalog 5 false Scenario.fromCatalog)
    as (Hts & Hforce & _ & _ & _ & _ & Hknown); [evaluate|].
  split; [exact Hts|]. split; [exact Hforce|]. split; [exact Hknown|evaluate].
Defined.

Lemma PreTableInfo_agrees_with_handleDDL_witness :
  ∃ r, PreTableInfo (Scenario.oneTable true) Scenario.renameJob = inr r ∧
       TableByID (Scenario.oneTable true) 100 = r.
Proof.
  destruct (PreTableInfo_agrees_with_handleDDL Scenario.renameJob (Scenario.oneTable true)
              (Scenario.snapshotOf (handleDDL Scenario.renameJob (Scenario.oneTable true))))
    as (r & Hr & _); [evaluate|].
  exists r. split; [exact Hr|].
  assert (PreTableInfo (Scenario.oneTable true) Scenario.renameJob
          = inr (TableByID (Scenario.oneTable true) 100)) as Hpre by evaluate.
  rewrite Hpre in Hr. injection Hr as <-. reflexivity.
Defined.

Lemma HandleDDLJob_skipped_witness :
  ∃ st',
    HandleDDLJob Scenario.runningJob Scenario.st1579 = Ok st' ∧
    snaps st' = snaps Scenario.st1579 ∧
    getSnapshot st' 10 = inr (Scenario.latest Scenario.st1579).
Proof.
  destruct (HandleDDLJob_skipped Scenario.runningJob
              {| FinishedTS := 11; HistoryInfo_DBInfo := Some (Scenario.schema 4 "db4");
                 HistoryInfo_TableInfo := None; MultipleTableInfos := [] |}
              (Scenario.latest Scenario.st1579) Scenario.st1579 st1579_reachable)
    as (st' & Hddl & Hsnaps & _ & Hres & _ & Hlatest); [evaluate|reflexivity|evaluate|].
  exists st'. split; [exact Hddl|]. split; [exact Hsnaps|].
  apply Hlatest; [evaluate|]. rewrite Hres. evaluate.
Defined.

Lemma owned_partitionOwned : partitionOwned Scenario.owned.
Proof.
  apply (createTable_partitionOwned Scenario.ownedTable Scenario.schemaOnly); [evaluate|].
  apply (partitionOwned_same (newEmptySchemaSnapshot false)); [evaluate|evaluate|].
  intros pid t H. simpl in H. by rewrite lookup_empty in H.
Qed.

Lemma handleDDL_keeps_partitionOwned_witness :
  partitionTable
    (Scenario.snapshotOf (handleDDL Scenario.dropPartitionJob
                            (Scenario.onePartitioned [10; 20; 30] true))) !! 30 = None ∧
  partitionOwned
    (Scenario.snapshotOf
       (handleDDL (Scenario.createTableJob (Scenario.partitioned 200 "p" [30; 40] false) 3)
          Scenario.owned)).
Proof.
  split; [evaluate|].
  apply (handleDDL_keeps_partitionOwned
           (Scenario.createTableJob (Scenario.partitioned 200 "p" [30; 40] false) 3)
           Scenario.owned).
  - evaluate.
  - exact owned_partitionOwned.
  - evaluate.
Defined.

Lemma GetTableNameByID_total_witness :
  GetTableNameByID Scenario.owned 10 =
    inr (TableInfo_TableName <$> PhysicalTableByID Scenario.owned 10) ∧
  PhysicalTableByID Scenario.owned 10 = Some Scenario.ownedTable.
Proof.
  split; [|evaluate].
  exact (proj1 (GetTableNameByID_total Scenario.owned 10 owned_partitionOwned)).
Defined.

Lemma handleDDL_CreateSchema_witness :
  ∃ db,
    SchemaByID (Scenario.snapshotOf Scenario.withDb1) (DBInfo_ID db) = Some db ∧
    tableInSchema (Scenario.snapshotOf Scenario.withDb1) !! DBInfo_ID db = Some [] ∧
    currentTs (Scenario.snapshotOf Scenario.withDb1) = 1%N.
Proof.
  destruct (handleDDL_CreateSchema (Scenario.createSchemaJob Scenario.db1 1)
              (newEmptySchemaSnapshot false) (Scenario.snapshotOf Scenario.withDb1))
    as (bi & db & Hbi & Hdb & _ & Hs & _ & Hlist & Hts & _); [reflexivity|evaluate|].
  injection Hbi as <-.
  exists db. split; [exact Hs|]. split; [exact Hlist|exact Hts].
Defined.

Lemma NewSchemaStorage_initial_witness :
  ∃ snap,
    snaps (Scenario.startAt 5) = [snap] ∧
    getSnapshot (Scenario.startAt 5) 5 = inr snap ∧
    getSnapshot (Scenario.startAt 5) 4 = inl ErrSchemaSnapshotNotFound.
Proof.
  destruct (NewSchemaStorage_initial (Some Scenario.emptyMeta) 5 None false "changefeed"
              (Scenario.startAt 5))
    as (snap & Hsnaps & _ & _ & _ & _ & _ & Hget & Hbefore); [evaluate|].
  exists snap. split; [exact Hsnaps|]. split; [exact Hget|]. apply Hbefore. evaluate.
Defined.

Lemma handleDDL_CreateTable_witness :
  ∃ db,
    SchemaByID (Scenario.snapshotOf Scenario.withDb1) 1 = Some db ∧
    SchemaByTableID (Scenario.oneTable true) 100 = Some db.
Proof.
  destruct (handleDDL_CreateTable (Scenario.createTableJob (Scenario.table 100 "t" true) 2)
              (Scenario.snapshotOf Scenario.withDb1) (Scenario.oneTable true))
    as (db & bi & info & Hdb & Hbi & Hinfo & _ & _ & _ & _ & Hschema);
    [reflexivity|evaluate|].
  injection Hbi as <-. injection Hinfo as <-.
  exists db. split; [exact Hdb|]. apply Hschema.
  assert (Some db = Some Scenario.db1) as Heq by (rewrite <- Hdb; evaluate).
  injection Heq as ->. evaluate.
Defined.

Lemma getSnapshot_forceReplicate_witness :
  forceReplicate (Scenario.nthSnap Scenario.st1579 2) = storageForceReplicate Scenario.st1579.
Proof.
  apply (getSnapshot_forceReplicate Scenario.st1579 8 (Scenario.nthSnap Scenario.st1579 2)
           st1579_reachable).
  evaluate.
Defined.

Lemma watermarks_never_move_back_witness :
  (gcTs Scenario.st1579 ≤ gcTs Scenario.st579)%N ∧
  (gcTs Scenario.st579 ≤ 5)%N ∧
  resolvedTs Scenario.st579 = resolvedTs Scenario.st1579.
Proof.
  apply (proj2 (proj2 watermarks_never_move_back) 6%N Scenario.st1579 Scenario.st579 5%N
           st1579_reachable).
  evaluate.
Defined.

Lemma failing_operation_writes_nothing_witness :
  dropTable 7 (Scenario.oneTable true) =
    Err ErrSnapshotTableNotFound (Scenario.oneTable true) ∧
  tables (Scenario.oneTable true) !! 7 = None.
Proof.
  assert (dropTable 7 (Scenario.oneTable true) =
            Err ErrSnapshotTableNotFound (Scenario.oneTable true)) as Hdrop by evaluate.
  split; [exact Hdrop|].
  destruct (proj1 (proj2 (proj2 (proj2
              (failing_operation_writes_nothing (Scenario.oneTable true)
                 (Scenario.oneTable true) ErrSnapshotTableNotFound)))) 7 Hdrop)
    as (_ & [[_ Hnone]|[Hbad _]]).
  - exact Hnone.
  - discriminate Hbad.
Defined.

Lemma newSchemaSnapshotFromMeta_failure_witness :
  (∃ e, newSchemaSnapshotFromMeta
          {| ListDatabases := Some [Scenario.db1]; ListTables := λ _, None |} 5 false
          = inl e) ∧
  (∃ s, newSchemaSnapshotFromMeta Scenario.catalog 5 false = inr s).
Proof.
  split.
  - apply (proj2 (proj1 (newSchemaSnapshotFromMeta_failure
                           {| ListDatabases := Some [Scenario.db1]; ListTables := λ _, None |}
                           5 false))).
    right. exists [Scenario.db1], Scenario.db1.
    split; [reflexivity|]. split; [constructor|reflexivity].
  - apply (proj2 (proj2 (newSchemaSnapshotFromMeta_failure Scenario.catalog 5 false))).
    exists [Scenario.db1]. split; [reflexivity|].
    intros db Hdb. apply list_elem_of_singleton in Hdb as ->. by eexists.
Defined.
